(** * Mesh hierarchy and block orchestration of Athena++ (src/mesh.cpp)

    A shallow embedding of the functions of [mesh.cpp] that carry the
    testable properties of the mesh subsystem, and the proofs (or
    refutations) of those properties.

    Conventions of the embedding.
    - [Real] (a C++ floating-point type fixed in athena.hpp) is taken as the
      exact rationals [Q]: sums, products, quotients and comparisons are
      the mathematical ones, binary rounding is not modelled.
    - [int] and [long int] values are [Z]; every quantity below stays far
      inside the machine range, so no wrap-around is written.
    - The doubly linked list of MeshBlocks hanging off [Mesh::pblock] is a
      [list MeshBlock]: the head is [pblock], the tail is reached through
      [next].
    - A C++ exception ([throw std::runtime_error]) is the constructor
      [Throw] of [result]; undefined behaviour (a read through a pointer
      that was never allocated, or past the end of an array) is the
      constructor [Fault] of [outcome]. *)

From Stdlib Require Import String ZArith QArith Qabs Lqa List Sorted Bool Lia.
Import ListNotations.
Local Open Scope Z_scope.

(** ** Data model *)

Abbreviation Real := Q (only parsing).

Record LogicalLocation := mkLoc {
  lx1 : Z;
  lx2 : Z;
  lx3 : Z;
  level : Z
}.


(** [RegionSize]: physical extents, stretch ratios and cell counts. *)
Record RegionSize := mkRegion {
  x1min : Real; x2min : Real; x3min : Real;
  x1max : Real; x2max : Real; x3max : Real;
  x1rat : Real; x2rat : Real; x3rat : Real;
  nx1 : Z; nx2 : Z; nx3 : Z
}.

(** [enum neighbor_type] of the neighbour descriptor, and the six faces
    ([enum direction], also the index into a block's boundary tags). *)
Inductive neighbor_type := neighbor_face | neighbor_edge | neighbor_corner.
Inductive direction := inner_x1 | outer_x1 | inner_x2 | outer_x2 | inner_x3 | outer_x3.

Definition neighbor_type_eqb (a b : neighbor_type) : bool :=
  match a, b with
  | neighbor_face, neighbor_face => true
  | neighbor_edge, neighbor_edge => true
  | neighbor_corner, neighbor_corner => true
  | _, _ => false
  end.

(** [NeighborBlock], with the fields [SetNeighbor] writes. [fid] and [eid]
    are the face and edge tags derived from the offsets; a tag the type
    does not define is left unset ([None]). *)
Module NeighborBlock.

Record t := mk {
  rank : Z; level : Z; gid : Z; lid : Z;
  ox1 : Z; ox2 : Z; ox3 : Z;
  type : neighbor_type;
  bufid : Z; targetid : Z;
  fi1 : Z; fi2 : Z;
  fid : option direction; eid : option Z
}.

End NeighborBlock.

(** What the neighbour search reads of a tree node: [flag] (true on a
    leaf), [loc], [gid], and through [GetLeaf] the location and gid of the
    leaf in octant (i,j,k) of an interior node. The class MeshBlockTree is
    declared in meshblocktree.hpp; the search only ever asks it
    [FindNeighbor], so a tree is given here by the answers to that call. *)
Record TreeLeaf := mkLeaf {
  leaf_loc : LogicalLocation;
  leaf_gid : Z
}.

Record TreeNode := mkNode {
  flag : bool;
  node_loc : LogicalLocation;
  node_gid : Z;
  GetLeaf : Z -> Z -> Z -> TreeLeaf
}.

Record MeshBlockTree := mkTree {
  FindNeighbor : LogicalLocation -> Z -> Z -> Z -> list Z ->
                 Z -> Z -> Z -> Z -> option TreeNode
}.

(** The part of a MeshBlock the functions below read or write. The
    refinement flags live in [pmr] in the source; [nblevel] is the 3x3x3
    level map indexed [k][j][i]. *)
Record MeshBlock := mkBlock {
  gid : Z;
  lid : Z;
  loc : LogicalLocation;
  cost : Real;
  block_size : RegionSize;
  block_bcs : list Z;
  new_block_dt : Real;
  refine_flag_ : Z;
  neighbor_rflag_ : Z;
  neighbor : list NeighborBlock.t;
  nneighbor : Z;
  nblevel : Z -> Z -> Z -> Z
}.

(** The part of Mesh the functions below read or write. *)
Record Mesh := mkMesh {
  pblock : list MeshBlock;
  time : Real;
  tlim : Real;
  dt : Real;
  cfl_number : Real;
  ncycle : Z;
  mesh_size : RegionSize;
  mesh_bcs : list Z;
  nrbx1 : Z; nrbx2 : Z; nrbx3 : Z;
  root_level : Z;
  current_level : Z;
  max_level : Z;
  multilevel : bool;
  adaptive : bool;
  face_only : bool;
  maxneighbor_ : Z;
  tree : MeshBlockTree;
  nbtotal : Z;
  loclist : list LogicalLocation;
  costlist : list Real;
  ranklist : list Z;
  nslist : list Z;
  nblist : list Z
}.

Definition set_dt (m : Mesh) (d : Real) : Mesh :=
  mkMesh (pblock m) (time m) (tlim m) d (cfl_number m) (ncycle m)
         (mesh_size m) (mesh_bcs m) (nrbx1 m) (nrbx2 m) (nrbx3 m)
         (root_level m) (current_level m) (max_level m) (multilevel m)
         (adaptive m) (face_only m) (maxneighbor_ m) (tree m) (nbtotal m)
         (loclist m) (costlist m) (ranklist m) (nslist m) (nblist m).

Definition set_pblock (m : Mesh) (bl : list MeshBlock) : Mesh :=
  mkMesh bl (time m) (tlim m) (dt m) (cfl_number m) (ncycle m)
         (mesh_size m) (mesh_bcs m) (nrbx1 m) (nrbx2 m) (nrbx3 m)
         (root_level m) (current_level m) (max_level m) (multilevel m)
         (adaptive m) (face_only m) (maxneighbor_ m) (tree m) (nbtotal m)
         (loclist m) (costlist m) (ranklist m) (nslist m) (nblist m).

(** Array access [a[i]] on an [int] array held as a list. *)
Definition at_ (a : list Z) (i : Z) : Z := nth (Z.to_nat i) a 0.

(** Exceptions and undefined behaviour. *)
Inductive result (A : Type) : Type :=
| Ok (a : A)
| Throw (msg : string).
Arguments Ok {A} a.
Arguments Throw {A} msg.

Definition bind {A B} (r : result A) (k : A -> result B) : result B :=
  match r with
  | Ok a => k a
  | Throw msg => Throw msg
  end.

Module ResultNotation.

Notation "x <- c ;; k" := (bind c (fun x => k))
  (at level 61, c at next level, right associativity).
Notation "c ;;; k" := (bind c (fun _ => k))
  (at level 61, right associativity).

End ResultNotation.

Definition failed {A} (r : result A) : Prop := exists msg, r = Throw msg.

Inductive outcome (A : Type) : Type :=
| Done (a : A)
| Fault.
Arguments Done {A} a.
Arguments Fault {A}.

(** [std::min(a,b)] returns [b] when [b < a] and [a] otherwise;
    [std::max(a,b)] returns [b] when [a < b] and [a] otherwise. *)
Definition Qltb (a b : Q) : bool := negb (Qle_bool b a).


Definition std_min (a b : Real) : Real := if Qltb b a then b else a.
Definition std_max (a b : Real) : Real := if Qltb a b then b else a.


(** ** Mesh::FindMeshBlock *)

Module Find.

(** The [while(pbl!=NULL)] walk: stop at the first block whose gid is
    [tgid]; the pointer that falls off the end is NULL ([None]). *)
Fixpoint FindMeshBlock (pblock : list MeshBlock) (tgid : Z) : option MeshBlock :=
  match pblock with
  | [] => None
  | pbl :: next => if gid pbl =? tgid then Some pbl else FindMeshBlock next tgid
  end.

End Find.

(** ** Mesh::NewTimeStep *)

Module TimeStep.

(** [MPI_Allreduce(..., MPI_MIN, ...)]: the minimum of the local value and
    of the values the other ranks contribute ([remote] is empty in a build
    without MPI_PARALLEL). *)
Definition MPI_Allreduce_MIN (remote : list Real) (x : Real) : Real :=
  fold_left std_min remote x.

Definition NewTimeStep (remote : list Real) (m : Mesh) : outcome Mesh :=
  match pblock m with
  | [] => Fault
  | pmb :: next =>
      let min_dt := fold_left (fun acc b => std_min acc (new_block_dt b)) next
                              (new_block_dt pmb) in
      let min_dt := MPI_Allreduce_MIN remote min_dt in
      let dt1 := std_min (min_dt * cfl_number m)%Q (2 * dt m)%Q in
      let dt2 := if Qltb (time m) (tlim m) && Qltb (tlim m - time m)%Q dt1
                 then (tlim m - time m)%Q else dt1 in
      Done (set_dt m dt2)
  end.

End TimeStep.

(** ** NeighborBlock::SetNeighbor and MeshBlock::SearchAndSetNeighbors *)

Module Neighbors.

Definition SetNeighbor (irank ilevel igid ilid iox1 iox2 iox3 : Z)
    (itype : neighbor_type) (ibid itargetid ifi1 ifi2 : Z) : NeighborBlock.t :=
  let fid :=
    if neighbor_type_eqb itype neighbor_face then
      if iox1 =? -1 then Some inner_x1
      else if iox1 =? 1 then Some outer_x1
      else if iox2 =? -1 then Some inner_x2
      else if iox2 =? 1 then Some outer_x2
      else if iox3 =? -1 then Some inner_x3
      else if iox3 =? 1 then Some outer_x3
      else None
    else None in
  let eid :=
    if neighbor_type_eqb itype neighbor_edge then
      if iox3 =? 0 then
        Some (Z.lor (Z.shiftr (iox1 + 1) 1) (Z.land (iox2 + 1) 2))
      else if iox2 =? 0 then
        Some (4 + Z.lor (Z.shiftr (iox1 + 1) 1) (Z.land (iox3 + 1) 2))
      else if iox1 =? 0 then
        Some (8 + Z.lor (Z.shiftr (iox2 + 1) 1) (Z.land (iox3 + 1) 2))
      else None
    else None in
  NeighborBlock.mk irank ilevel igid ilid iox1 iox2 iox3 itype ibid itargetid
                   ifi1 ifi2 fid eid.

(** The variables the search updates as it goes: the running buffer id,
    the neighbour array with its fill count, and the level map. *)
Record search_state := mkSt {
  st_bufid : Z;
  st_nneighbor : Z;
  st_neighbor : list NeighborBlock.t;
  st_nblevel : Z -> Z -> Z -> Z
}.

(** [nblevel[k][j][i] = v]. *)
Definition set_nblevel (f : Z -> Z -> Z -> Z) (k j i v : Z) : Z -> Z -> Z -> Z :=
  fun k' j' i' => if (k' =? k) && (j' =? j) && (i' =? i) then v else f k' j' i'.

(** [neighbor[nneighbor].SetNeighbor(...); nneighbor++]. *)
Definition push (st : search_state) (nb : NeighborBlock.t) : search_state :=
  mkSt (st_bufid st) (st_nneighbor st + 1) (st_neighbor st ++ [nb]) (st_nblevel st).

Definition advance (st : search_state) (w : Z) : search_state :=
  mkSt (st_bufid st + w) (st_nneighbor st) (st_neighbor st) (st_nblevel st).

Definition record_level (st : search_state) (k j i v : Z) : search_state :=
  mkSt (st_bufid st) (st_nneighbor st) (st_neighbor st)
       (set_nblevel (st_nblevel st) k j i v).

(** [for(int f=0; f<n; f++)] and [for(int n=-1; n<=1; n+=2)]. *)
Definition upto (n : Z) : list Z := map Z.of_nat (seq 0 (Z.to_nat n)).
Definition sides : list Z := [-1; 1].

Section Search.

Variable FindBufferID : Z -> Z -> Z -> Z -> Z -> Z -> Z.
Variable pmy_mesh : Mesh.
Variable ranklist_ nslist_ : list Z.
Variable blk : MeshBlock.

Let lev := level (loc blk).
Let maxn := maxneighbor_ pmy_mesh.

Definition myfx1 : Z := Z.land (lx1 (loc blk)) 1.
Definition myfx2 : Z := Z.land (lx2 (loc blk)) 1.
Definition myfx3 : Z := Z.land (lx3 (loc blk)) 1.
Definition myox1 : Z := Z.land (lx1 (loc blk)) 1 * 2 - 1.
Definition myox2 : Z :=
  if 1 <? nx2 (block_size blk) then Z.land (lx2 (loc blk)) 1 * 2 - 1 else 0.
Definition myox3 : Z :=
  if 1 <? nx3 (block_size blk) then Z.land (lx3 (loc blk)) 1 * 2 - 1 else 0.

Definition nf1 : Z :=
  if multilevel pmy_mesh then (if 1 <? nx2 (block_size blk) then 2 else 1) else 1.
Definition nf2 : Z :=
  if multilevel pmy_mesh then (if 1 <? nx3 (block_size blk) then 2 else 1) else 1.

Definition find (ox1 ox2 ox3 : Z) : option TreeNode :=
  FindNeighbor (tree pmy_mesh) (loc blk) ox1 ox2 ox3 (block_bcs blk)
               (nrbx1 pmy_mesh) (nrbx2 pmy_mesh) (nrbx3 pmy_mesh)
               (root_level pmy_mesh).

(** One entry for the leaf [nf] of a finer neighbour, then
    [bufid++; nneighbor++]. *)
Definition push_finer (ox1 ox2 ox3 : Z) (ty : neighbor_type) (tbid : Z)
    (nf : TreeLeaf) (f1 f2 : Z) (st : search_state) : search_state :=
  let fid := leaf_gid nf in
  let nlevel := level (leaf_loc nf) in
  advance
    (push st (SetNeighbor (at_ ranklist_ fid) nlevel fid
                          (fid - at_ nslist_ (at_ ranklist_ fid))
                          ox1 ox2 ox3 ty (st_bufid st) tbid f1 f2)) 1.

(** One face direction. [leaf fface f1 f2] picks the octant handed to
    [GetLeaf]; [cf1], [cf2] are this block's own octant indices used for
    the target id on a coarser neighbour; [(k,j,i)] is the level-map slot. *)
Definition face_dir (ox1 ox2 ox3 : Z) (leaf : TreeNode -> Z -> Z -> Z -> TreeLeaf)
    (cf1 cf2 : Z) (k j i : Z) (n : Z) (st : search_state) : search_state :=
  match find ox1 ox2 ox3 with
  | None => advance st (nf1 * nf2)
  | Some neibt =>
      if negb (flag neibt) then
        let fface := 1 - Z.quot (n + 1) 2 in
        let st := record_level st k j i (level (node_loc neibt) + 1) in
        fold_left (fun st f2 =>
          fold_left (fun st f1 =>
            push_finer ox1 ox2 ox3 neighbor_face
                       (FindBufferID (- ox1) (- ox2) (- ox3) 0 0 maxn)
                       (leaf neibt fface f1 f2) f1 f2 st)
            (upto nf1) st)
          (upto nf2) st
      else
        let nlevel := level (node_loc neibt) in
        let nid := node_gid neibt in
        let st := record_level st k j i nlevel in
        let tbid := if nlevel =? lev
                    then FindBufferID (- ox1) (- ox2) (- ox3) 0 0 maxn
                    else FindBufferID (- ox1) (- ox2) (- ox3) cf1 cf2 maxn in
        advance
          (push st (SetNeighbor (at_ ranklist_ nid) nlevel nid
                                (nid - at_ nslist_ (at_ ranklist_ nid))
                                ox1 ox2 ox3 neighbor_face (st_bufid st) tbid 0 0))
          (nf1 * nf2)
  end.

(** One edge direction; [w] is the number of buffer slots of the edge
    ([nf2] for x1x2, [nf1] for the other two), [mine] says whether this
    block is the sibling that touches the edge. *)
Definition edge_dir (ox1 ox2 ox3 : Z) (leaf : TreeNode -> Z -> Z -> Z -> TreeLeaf)
    (w cf1 : Z) (mine : bool) (k j i : Z) (n m : Z) (st : search_state)
    : search_state :=
  match find ox1 ox2 ox3 with
  | None => advance st w
  | Some neibt =>
      if negb (flag neibt) then
        let ff1 := 1 - Z.quot (n + 1) 2 in
        let ff2 := 1 - Z.quot (m + 1) 2 in
        let st := record_level st k j i (level (node_loc neibt) + 1) in
        fold_left (fun st f1 =>
            push_finer ox1 ox2 ox3 neighbor_edge
                       (FindBufferID (- ox1) (- ox2) (- ox3) 0 0 maxn)
                       (leaf neibt ff1 ff2 f1) f1 0 st)
          (upto w) st
      else
        let nlevel := level (node_loc neibt) in
        let nid := node_gid neibt in
        let st := record_level st k j i nlevel in
        let tbid := if nlevel =? lev
                    then FindBufferID (- ox1) (- ox2) (- ox3) 0 0 maxn
                    else FindBufferID (- ox1) (- ox2) (- ox3) cf1 0 maxn in
        let st := if (lev <=? nlevel) || mine
                  then push st (SetNeighbor (at_ ranklist_ nid) nlevel nid
                                  (nid - at_ nslist_ (at_ ranklist_ nid))
                                  ox1 ox2 ox3 neighbor_edge (st_bufid st) tbid 0 0)
                  else st in
        advance st w
  end.

Definition corner_dir (n m l : Z) (st : search_state) : search_state :=
  match find n m l with
  | None => advance st 1
  | Some neibt =>
      let '(nloc, nid) :=
        if negb (flag neibt) then
          let ff1 := 1 - Z.quot (n + 1) 2 in
          let ff2 := 1 - Z.quot (m + 1) 2 in
          let ff3 := 1 - Z.quot (l + 1) 2 in
          let lf := GetLeaf neibt ff1 ff2 ff3 in
          (leaf_loc lf, leaf_gid lf)
        else (node_loc neibt, node_gid neibt) in
      let nlevel := level nloc in
      let st := record_level st (l + 1) (m + 1) (n + 1) nlevel in
      let st := if (lev <=? nlevel) ||
                   ((myox1 =? n) && (myox2 =? m) && (myox3 =? l))
                then push st (SetNeighbor (at_ ranklist_ nid) nlevel nid
                                (nid - at_ nslist_ (at_ ranklist_ nid))
                                n m l neighbor_corner (st_bufid st)
                                (FindBufferID (- n) (- m) (- l) 0 0 maxn) 0 0)
                else st in
      advance st 1
  end.

(** The six groups of loops, in the order of the source. *)
Definition x1_faces (st : search_state) : search_state :=
  fold_left (fun st n =>
    face_dir n 0 0 (fun nd fface f1 f2 => GetLeaf nd fface f1 f2)
             myfx2 myfx3 1 1 (n + 1) n st) sides st.

Definition x2_faces (st : search_state) : search_state :=
  fold_left (fun st n =>
    face_dir 0 n 0 (fun nd fface f1 f2 => GetLeaf nd f1 fface f2)
             myfx1 myfx3 1 (n + 1) 1 n st) sides st.

Definition x3_faces (st : search_state) : search_state :=
  fold_left (fun st n =>
    face_dir 0 0 n (fun nd fface f1 f2 => GetLeaf nd f1 f2 fface)
             myfx1 myfx2 (n + 1) 1 1 n st) sides st.

Definition x1x2_edges (st : search_state) : search_state :=
  fold_left (fun st m => fold_left (fun st n =>
    edge_dir n m 0 (fun nd ff1 ff2 f1 => GetLeaf nd ff1 ff2 f1)
             nf2 myfx3 ((myox1 =? n) && (myox2 =? m)) 1 (m + 1) (n + 1) n m st)
    sides st) sides st.

Definition x1x3_edges (st : search_state) : search_state :=
  fold_left (fun st m => fold_left (fun st n =>
    edge_dir n 0 m (fun nd ff1 ff2 f1 => GetLeaf nd ff1 f1 ff2)
             nf1 myfx2 ((myox1 =? n) && (myox3 =? m)) (m + 1) 1 (n + 1) n m st)
    sides st) sides st.

Definition x2x3_edges (st : search_state) : search_state :=
  fold_left (fun st m => fold_left (fun st n =>
    edge_dir 0 n m (fun nd ff1 ff2 f1 => GetLeaf nd f1 ff1 ff2)
             nf1 myfx1 ((myox2 =? n) && (myox3 =? m)) (m + 1) (n + 1) 1 n m st)
    sides st) sides st.

Definition corners (st : search_state) : search_state :=
  fold_left (fun st l => fold_left (fun st m => fold_left (fun st n =>
    corner_dir n m l st) sides st) sides st) sides st.

(** The state at the top of the search: [bufid=0], [nneighbor=0], the
    level map all -1 but for the centre. The neighbour array itself is not
    cleared: entries from [nneighbor] on are stale and no longer counted. *)
Definition search_init : search_state :=
  mkSt 0 0 []
       (set_nblevel (fun _ _ _ => -1) 1 1 1 lev).

Definition search : search_state :=
  let st := x1_faces search_init in
  if nx2 (block_size blk) =? 1 then st else
  let st := x2_faces st in
  let st := if 1 <? nx3 (block_size blk) then x3_faces st else st in
  if face_only pmy_mesh then st else
  let st := x1x2_edges st in
  if nx3 (block_size blk) =? 1 then st else
  let st := x1x3_edges st in
  let st := x2x3_edges st in
  corners st.

(** The block after the call. *)
Definition SearchAndSetNeighbors : MeshBlock :=
  let st := search in
  mkBlock (gid blk) (lid blk) (loc blk) (cost blk) (block_size blk)
          (block_bcs blk) (new_block_dt blk) (refine_flag_ blk)
          (neighbor_rflag_ blk) (st_neighbor st) (st_nneighbor st) (st_nblevel st).

(** The buffer ids carried by the entries of the neighbour list. *)
Definition bufids (b : MeshBlock) : list Z := map NeighborBlock.bufid (neighbor b).

(** The number of buffer slots the sweep walks over, a function of the
    dimension and of the multilevel and face-only switches alone. *)
Definition nslots : Z :=
  let f := 2 * (nf1 * nf2) in
  if nx2 (block_size blk) =? 1 then f else
  let f := f + 2 * (nf1 * nf2) in
  let f := if 1 <? nx3 (block_size blk) then f + 2 * (nf1 * nf2) else f in
  if face_only pmy_mesh then f else
  let f := f + 4 * nf2 in
  if nx3 (block_size blk) =? 1 then f else
  f + 4 * nf1 + 4 * nf1 + 8.

End Search.

End Neighbors.

(** ** Mesh::LoadBalancing *)

Module Balancer.

Definition FLT_MAX : Real := inject_Z 340282346638528859811704183484516925440.

(** [a[i] = v] on an [int] array held as a list. *)
Fixpoint store (a : list Z) (i : nat) (v : Z) : list Z :=
  match a, i with
  | [], _ => []
  | _ :: a', O => v :: a'
  | x :: a', S i' => x :: store a' i' v
  end.

(** First loop: total, minimum and maximum of the cost list. *)
Definition totals (clist : list Real) : Real * Real * Real :=
  fold_left (fun '(totalcost, mincost, maxcost) c =>
               ((totalcost + c)%Q, std_min mincost c, std_max maxcost c))
            clist (0%Q, FLT_MAX, 0%Q).

Definition sum (clist : list Real) : Real := fold_right Qplus 0%Q clist.

(** Second loop, from the last block down: [cs] holds the costs still to
    visit, highest index first, and the result lists the ranks written to
    [rlist] in that same order. *)
Fixpoint sweep (cs : list Real) (j : Z) (totalcost mycost targetcost : Real)
  : list Z :=
  match cs with
  | [] => []
  | c :: cs' =>
      let mycost := (mycost + c)%Q in
      if Qle_bool targetcost mycost && (0 <? j) then
        let totalcost := (totalcost - mycost)%Q in
        j :: sweep cs' (j - 1) totalcost 0%Q (totalcost / inject_Z (j - 1 + 1))%Q
      else
        j :: sweep cs' j totalcost mycost targetcost
  end.

(** Third loop, [i] from 1: a new start index each time the rank changes.
    [prev] is [rlist[i-1]]. Every call site hands the member [nslist] in
    as [slist], so the read [nslist[j]] of the source is a read of
    [slist]. *)
Fixpoint starts (prev : Z) (rest : list Z) (i : Z) (j : nat)
    (slist nlist : list Z) : nat * list Z * list Z :=
  match rest with
  | [] => (j, slist, nlist)
  | r :: rest' =>
      if negb (r =? prev) then
        starts r rest' (i + 1) (S j)
               (store slist (S j) i)
               (store nlist j (i - nth j slist 0))
      else starts r rest' (i + 1) j slist nlist
  end.

(** The three output arrays [(rlist, slist, nlist)]; [slist] and [nlist]
    come in with whatever they held before ([nranks] entries each). *)
Definition LoadBalancing (nranks : Z) (clist : list Real) (slist nlist : list Z)
  : list Z * list Z * list Z :=
  let nbtotal := Z.of_nat (length clist) in
  let '(totalcost, mincost, maxcost) := totals clist in
  let targetcost := (totalcost / inject_Z nranks)%Q in
  let rlist := rev (sweep (rev clist) (nranks - 1) totalcost 0%Q targetcost) in
  let slist := store slist 0 0 in
  let '(j, slist, nlist) :=
    match rlist with
    | [] => (O, slist, nlist)
    | r0 :: rest => starts r0 rest 1 0 slist nlist
    end in
  (rlist, slist, store nlist j (nbtotal - nth j slist 0)).

Definition rlist_of (nranks : Z) (clist : list Real) : list Z :=
  let '(rlist, _, _) := LoadBalancing nranks clist (repeat 0 (Z.to_nat nranks))
                                      (repeat 0 (Z.to_nat nranks)) in rlist.

(** The warning of the MPI build. *)
Definition LoadBalancing_warns (nranks my_rank : Z) (adaptive : bool)
    (clist : list Real) : bool :=
  let '(_, mincost, maxcost) := totals clist in
  negb (Z.rem (Z.of_nat (length clist)) nranks =? 0) && negb adaptive
  && Qeq_bool maxcost mincost && (my_rank =? 0).

(** Blocks and load a rank receives under an assignment [rlist]. *)
Definition blocks_of (r : Z) (rlist : list Z) : Z :=
  Z.of_nat (length (filter (Z.eqb r) rlist)).

Fixpoint load_of (r : Z) (clist : list Real) (rlist : list Z) : Real :=
  match clist, rlist with
  | c :: cl, x :: rl =>
      if x =? r then (c + load_of r cl rl)%Q else load_of r cl rl
  | _, _ => 0%Q
  end.

(** The assignment expected for [n] ranks of [k] blocks each, as the sweep
    produces it (highest rank first) and as [rlist] holds it. *)
Fixpoint ranks_down (j k : nat) : list Z :=
  match j with
  | O => []
  | S j' => repeat (Z.of_nat j') k ++ ranks_down j' k
  end.

Definition nat_scale (n : nat) (c : Real) : Real := (inject_Z (Z.of_nat n) * c)%Q.

(** Ranks [r], [r+1], ... , [r+q-1] written [k] times each, and the
    start indices 0, k, 2k, ... the third loop derives from such a list. *)
Fixpoint ranks_from (r : nat) (q k : nat) : list Z :=
  match q with
  | O => []
  | S q' => repeat (Z.of_nat r) k ++ ranks_from (S r) q' k
  end.

Definition starts_prefix (k m : nat) : list Z :=
  map (fun t => Z.of_nat t * Z.of_nat k) (seq 0 m).

End Balancer.

(** ** Mesh::Mesh, construction from the input file *)

(** The values the constructors ask of ParameterInput. A [meshblock]
    size that the input leaves out is [None] ([GetOrAdd...] then takes
    the mesh size). *)
Record ParameterInput := mkPin {
  pin_start_time : Real;
  pin_tlim : Real;
  pin_cfl_number : Real;
  pin_nlim : Z;
  pin_num_threads : Z;
  pin_nx1 : Z; pin_nx2 : Z; pin_nx3 : Z;
  pin_x1min : Real; pin_x2min : Real; pin_x3min : Real;
  pin_x1max : Real; pin_x2max : Real; pin_x3max : Real;
  pin_x1rat : Real; pin_x2rat : Real; pin_x3rat : Real;
  pin_bcs : list Z;
  pin_block_nx1 : option Z; pin_block_nx2 : option Z; pin_block_nx3 : option Z;
  pin_refinement : string;
  pin_maxlevel : Z
}.

Module Construct.

Import ResultNotation.


Definition msg_threads : string :=
  "Mesh constructor: Number of OpenMP threads must be >= 1".
Definition msg_nx1 : string :=
  "Mesh constructor: In mesh block in input file nx1 must be >= 4".
Definition msg_nx2 : string :=
  "Mesh constructor: In mesh block in input file nx2 must be >= 1".
Definition msg_nx3 : string :=
  "Mesh constructor: In mesh block in input file nx3 must be >= 1".
Definition msg_x1x3 : string :=
  "Mesh constructor: 2D problems in x1-x3 plane not supported".
Definition msg_cfl_1d : string :=
  "Mesh constructor: The CFL number must be smaller than 1.0 in 1D simulation".
Definition msg_cfl_2d3d : string :=
  "Mesh constructor: The CFL number must be smaller than 0.5 in 2D/3D simulation".
Definition msg_x1max : string :=
  "Mesh constructor: Input x1max must be larger than x1min".
Definition msg_x2max : string :=
  "Mesh constructor: Input x2max must be larger than x2min".
Definition msg_x3max : string :=
  "Mesh constructor: Input x3max must be larger than x3min".
Definition msg_x1rat : string :=
  "Mesh constructor: Ratio of cell sizes must be 0.9 <= x1rat <= 1.1".
Definition msg_x2rat : string :=
  "Mesh constructor: Ratio of cell sizes must be 0.9 <= x2rat <= 1.1".
Definition msg_x3rat : string :=
  "Mesh constructor: Ratio of cell sizes must be 0.9 <= x3rat <= 1.1".

(** [if (cond) throw std::runtime_error(msg)]. *)
Definition throw_if (cond : bool) (msg : string) : result unit :=
  if cond then Throw msg else Ok tt.

(** The block under the comment "check cfl_number", the same in both
    constructors. *)
Definition check_cfl_number (cfl : Real) (mesh_nx2 : Z) : result unit :=
  throw_if (Qltb 1 cfl && (mesh_nx2 =? 1)) msg_cfl_1d ;;;
  throw_if (Qltb (1 # 2) cfl && (1 <? mesh_nx2)) msg_cfl_2d3d.

Definition dim_of (mesh_nx2 mesh_nx3 : Z) : Z :=
  let dim := 1 in
  let dim := if 1 <? mesh_nx2 then 2 else dim in
  if 1 <? mesh_nx3 then 3 else dim.

(** The constructor from its first line to the check of the cell-size
    ratios; it yields [mesh_size] and [dim]. *)
Definition Mesh_checks (pin : ParameterInput) : result (RegionSize * Z) :=
  throw_if (pin_num_threads pin <? 1) msg_threads ;;;
  throw_if (pin_nx1 pin <? 4) msg_nx1 ;;;
  throw_if (pin_nx2 pin <? 1) msg_nx2 ;;;
  throw_if (pin_nx3 pin <? 1) msg_nx3 ;;;
  throw_if ((pin_nx2 pin =? 1) && (1 <? pin_nx3 pin)) msg_x1x3 ;;;
  check_cfl_number (pin_cfl_number pin) (pin_nx2 pin) ;;;
  let dim := dim_of (pin_nx2 pin) (pin_nx3 pin) in
  throw_if (Qle_bool (pin_x1max pin) (pin_x1min pin)) msg_x1max ;;;
  throw_if (Qle_bool (pin_x2max pin) (pin_x2min pin)) msg_x2max ;;;
  throw_if (Qle_bool (pin_x3max pin) (pin_x3min pin)) msg_x3max ;;;
  throw_if (Qltb (1 # 10) (Qabs (pin_x1rat pin - 1))) msg_x1rat ;;;
  throw_if (Qltb (1 # 10) (Qabs (pin_x2rat pin - 1))) msg_x2rat ;;;
  throw_if (Qltb (1 # 10) (Qabs (pin_x3rat pin - 1))) msg_x3rat ;;;
  Ok (mkRegion (pin_x1min pin) (pin_x2min pin) (pin_x3min pin)
               (pin_x1max pin) (pin_x2max pin) (pin_x3max pin)
               (pin_x1rat pin) (pin_x2rat pin) (pin_x3rat pin)
               (pin_nx1 pin) (pin_nx2 pin) (pin_nx3 pin), dim).

(** The whole constructor: [rest] stands for everything after the ratio
    checks (boundary tags, block sizes, the tree, the balancer, the
    blocks). *)
Definition Mesh_ctor {A} (rest : ParameterInput -> RegionSize * Z -> result A)
    (pin : ParameterInput) : result A :=
  v <- Mesh_checks pin ;; rest pin v.

End Construct.

(** ** Mesh::Mesh and MeshBlock::MeshBlock, construction from a restart file *)

Module Restart.

(** [IOWrapper] over a file state [F]. Each read gives back the file, the
    number of items it delivered and the content of the destination
    afterwards (whatever that is when the read fell short). *)
Record IOWrapper (F : Type) := mkIO {
  Read_int : F -> F * (Z * Z);
  Read_ints : Z -> F -> F * (Z * list Z);
  Read_Real : F -> F * (Z * Real);
  Read_Reals : Z -> F -> F * (Z * list Real);
  Read_RegionSize : F -> F * (Z * RegionSize);
  Read_LogicalLocation : F -> F * (Z * LogicalLocation);
  Read_size_t : F -> F * (Z * Z);
  Seek : Z -> F -> F;
  Close : F -> F
}.
Arguments Read_int {F}. Arguments Read_ints {F}. Arguments Read_Real {F}.
Arguments Read_Reals {F}. Arguments Read_RegionSize {F}.
Arguments Read_LogicalLocation {F}. Arguments Read_size_t {F}.
Arguments Seek {F}. Arguments Close {F}.

(** What is outside mesh.cpp: the process globals, the configure-time
    switches, the tree, the physics objects of a block (their
    constructors may throw; the sizes of their arrays decide how much is
    read) and the buffer numbering. *)
Record Collaborators := mkCollab {
  Globals_nranks : Z;
  Globals_my_rank : Z;
  MPI_PARALLEL : bool;
  MAGNETIC_FIELDS_ENABLED : bool;
  GENERAL_RELATIVITY : bool;
  VISCOSITY : bool;
  BufferID : Z -> bool -> bool -> Z;
  FindBufferID : Z -> Z -> Z -> Z -> Z -> Z -> Z;
  (** [AddMeshBlockWithoutRefine] for every location, then
      [GetMeshBlockList]: the tree, the list it enumerates and its leaf
      count. *)
  rebuild_tree : list LogicalLocation -> Z -> Z -> Z -> Z ->
                 MeshBlockTree * (list LogicalLocation * Z);
  new_physics : RegionSize -> list Z -> result unit;
  u_size : RegionSize -> Z;
  w_size : RegionSize -> Z;
  w1_size : RegionSize -> Z;
  x1f_size : RegionSize -> Z;
  x2f_size : RegionSize -> Z;
  x3f_size : RegionSize -> Z
}.

(** The trace of a construction: every [Read] with the count asked for
    and the count delivered, and the comparison of the leaf count of the
    rebuilt tree with the header. *)
Inductive event :=
| EvRead (asked got : Z)
| EvLeaves (nnb nbtotal : Z).

Definition ev_ok (e : event) : Prop :=
  match e with
  | EvRead asked got => got = asked
  | EvLeaves nnb nbtotal => nnb = nbtotal
  end.

(** No short read and no leaf-count mismatch so far. *)
Definition clean (log : list event) : Prop := Forall ev_ok log.

Definition msg_broken_mesh : string :=
  "Mesh constructor: The restarting file is broken.".
Definition msg_broken_block : string :=
  "MeshBlock constructor: The restarting file is broken.".
Definition msg_tree : string :=
  "Mesh constructor: Tree reconstruction failed. The total numbers of the blocks do not match.".
Definition msg_too_few : string :=
  "Mesh constructor: Too few blocks: nbtotal < nranks".
Definition msg_bad_alloc : string := "std::bad_array_new_length".
Definition msg_div_zero : string := "integer division by zero".

Section WithFile.

Variable F : Type.
Variable io : IOWrapper F.
Variable ext : Collaborators.

(** State threaded through a constructor: the file and the trace. *)
Record st := mkSt { file : F; log : list event }.

Definition IO (A : Type) : Type := st -> result A * st.

Definition ret {A} (a : A) : IO A := fun s => (Ok a, s).
Definition throw {A} (msg : string) : IO A := fun s => (Throw msg, s).
Definition iobind {A B} (c : IO A) (k : A -> IO B) : IO B :=
  fun s => match c s with
           | (Ok a, s') => k a s'
           | (Throw msg, s') => (Throw msg, s')
           end.
Definition lift {A} (r : result A) : IO A := fun s => (r, s).

Notation "x <-- c ;; k" := (iobind c (fun x => k))
  (at level 61, c at next level, right associativity).
Notation "' pat <-- c ;; k" := (iobind c (fun x => match x with pat => k end))
  (at level 61, pat pattern, c at next level, right associativity).
Notation "c ;;; k" := (iobind c (fun _ => k))
  (at level 61, right associativity).

(** [if(resfile.Read(dst, size, asked) != asked) nerr++]. *)
Definition counted {V} (rd : F -> F * (Z * V)) (asked nerr : Z) : IO (Z * V) :=
  fun s =>
    let '(f, (got, v)) := rd (file s) in
    (Ok (if got =? asked then nerr else nerr + 1, v),
     mkSt f (log s ++ [EvRead asked got])).

(** [if(nerr>0) { resfile.Close(); throw ... }]. *)
Definition broken_if (nerr : Z) (msg : string) : IO unit :=
  fun s => if 0 <? nerr then (Throw msg, mkSt (Close io (file s)) (log s))
           else (Ok tt, s).

Definition throw_if (cond : bool) (msg : string) : IO unit :=
  if cond then throw msg else ret tt.

Definition seek (offset : Z) : IO unit :=
  fun s => (Ok tt, mkSt (Seek io offset (file s)) (log s)).

Definition note (e : event) : IO unit :=
  fun s => (Ok tt, mkSt (file s) (log s ++ [e])).

(** The restart header. *)
Record header := mkHeader {
  h_nbtotal : Z;
  h_root_level : Z;
  h_mesh_size : RegionSize;
  h_mesh_bcs : list Z;
  h_time : Real;
  h_dt : Real;
  h_ncycle : Z
}.

Definition read_header : IO header :=
  '(nerr, nbtotal) <-- counted (Read_int io) 1 0 ;;
  '(nerr, root_level) <-- counted (Read_int io) 1 nerr ;;
  '(nerr, mesh_size) <-- counted (Read_RegionSize io) 1 nerr ;;
  '(nerr, mesh_bcs) <-- counted (Read_ints io 6) 6 nerr ;;
  '(nerr, time) <-- counted (Read_Real io) 1 nerr ;;
  '(nerr, dt) <-- counted (Read_Real io) 1 nerr ;;
  '(nerr, ncycle) <-- counted (Read_int io) 1 nerr ;;
  broken_if nerr msg_broken_mesh ;;;
  ret (mkHeader nbtotal root_level mesh_size mesh_bcs time dt ncycle).

(** What the id-list loop accumulates. *)
Record idlist := mkIds {
  i_nerr : Z;
  i_loclist : list LogicalLocation;
  i_costlist : list Real;
  i_offset : list Z;
  i_multilevel : bool;
  i_current_level : Z;
  i_mincost : Real;
  i_maxcost : Real
}.

(** One pass of the id-list loop: gid, location, cost, offset. *)
Definition read_id (root_level : Z) (a : idlist) : IO idlist :=
  '(nerr, bgid) <-- counted (Read_int io) 1 (i_nerr a) ;;
  '(nerr, l) <-- counted (Read_LogicalLocation io) 1 nerr ;;
  let multilevel := if negb (level l =? root_level) then true else i_multilevel a in
  let current_level := if i_current_level a <? level l then level l
                       else i_current_level a in
  '(nerr, c) <-- counted (Read_Real io) 1 nerr ;;
  '(nerr, off) <-- counted (Read_size_t io) 1 nerr ;;
  ret (mkIds nerr (i_loclist a ++ [l]) (i_costlist a ++ [c]) (i_offset a ++ [off])
             multilevel current_level
             (std_min (i_mincost a) c) (std_max (i_maxcost a) c)).

Fixpoint read_ids (n : nat) (root_level : Z) (a : idlist) : IO idlist :=
  match n with
  | O => ret a
  | S n' => a' <-- read_id root_level a ;; read_ids n' root_level a'
  end.

(** The restart constructor of MeshBlock. The arrays the payload is read
    into belong to the physics objects and are not kept here. *)
Definition MeshBlock_restart (igid ilid : Z) (pm : Mesh) (iloc : LogicalLocation)
    (offset : Z) (icost : Real) : IO MeshBlock :=
  seek offset ;;;
  '(nerr, block_size) <-- counted (Read_RegionSize io) 1 0 ;;
  '(nerr, block_bcs) <-- counted (Read_ints io 6) 6 nerr ;;
  broken_if nerr msg_broken_block ;;;
  lift (new_physics ext block_size block_bcs) ;;;
  '(nerr, u) <-- counted (Read_Reals io (u_size ext block_size))
                         (u_size ext block_size) 0 ;;
  '(nerr, _) <--
     (if GENERAL_RELATIVITY ext then
        '(nerr, w) <-- counted (Read_Reals io (w_size ext block_size))
                               (w_size ext block_size) nerr ;;
        counted (Read_Reals io (w1_size ext block_size))
                (w1_size ext block_size) nerr
      else ret (nerr, [])) ;;
  '(nerr, _) <--
     (if MAGNETIC_FIELDS_ENABLED ext then
        '(nerr, b1) <-- counted (Read_Reals io (x1f_size ext block_size))
                                (x1f_size ext block_size) nerr ;;
        '(nerr, b2) <-- counted (Read_Reals io (x2f_size ext block_size))
                                (x2f_size ext block_size) nerr ;;
        counted (Read_Reals io (x3f_size ext block_size))
                (x3f_size ext block_size) nerr
      else ret (nerr, [])) ;;
  broken_if nerr msg_broken_block ;;;
  ret (mkBlock igid ilid iloc icost block_size block_bcs 0%Q 0 0 [] 0
               (fun _ _ _ => -1)).

(** The loop that loads the blocks [i = nbstart .. nbend] of this rank;
    [idx] lists those indices, [acc] is the list built so far. *)
Fixpoint load_blocks (pm : Mesh) (offset : list Z) (nbstart : Z) (idx : list Z)
    (acc : list MeshBlock) : IO (list MeshBlock) :=
  match idx with
  | [] => ret acc
  | i :: idx' =>
      b <-- MeshBlock_restart i (i - nbstart) pm
              (nth (Z.to_nat i) (loclist pm) (mkLoc 0 0 0 0))
              (nth (Z.to_nat i) offset 0)
              (nth (Z.to_nat i) (costlist pm) 0%Q) ;;
      load_blocks pm offset nbstart idx'
        (acc ++ [Neighbors.SearchAndSetNeighbors (FindBufferID ext) pm
                   (ranklist pm) (nslist pm) b])
  end.

(** [for(i=lo; i<=hi; i++)]. *)
Definition from_to (lo hi : Z) : list Z :=
  map (fun k => lo + Z.of_nat k) (seq 0 (Z.to_nat (hi - lo + 1))).

(** [GetOrAddReal("meshblock", ..., mesh_size.nx)] narrowed to [int]. *)
Definition block_nx (given : option Z) (mesh_nx : Z) : Z :=
  match given with Some n => n | None => mesh_nx end.

Definition Mesh_restart (pin : ParameterInput) (test_flag : Z) : IO Mesh :=
  let nranks := if 0 <? test_flag then test_flag else Globals_nranks ext in
  let my_rank := Globals_my_rank ext in
  throw_if (pin_num_threads pin <? 1) Construct.msg_threads ;;;
  h <-- read_header ;;
  let nbtotal := h_nbtotal h in
  let root_level := h_root_level h in
  let mesh_size := h_mesh_size h in
  let max_level := pin_maxlevel pin + root_level - 1 in
  let dim := Construct.dim_of (nx2 mesh_size) (nx3 mesh_size) in
  lift (Construct.check_cfl_number (pin_cfl_number pin) (nx2 mesh_size)) ;;;
  (* new LogicalLocation[nbtotal] and the other arrays *)
  throw_if ((nbtotal <? 0) || (nranks <? 0)) msg_bad_alloc ;;;
  let bnx1 := block_nx (pin_block_nx1 pin) (nx1 mesh_size) in
  let bnx2 := block_nx (pin_block_nx2 pin) (nx2 mesh_size) in
  let bnx3 := block_nx (pin_block_nx3 pin) (nx3 mesh_size) in
  (* the three quotients trap on a zero block size *)
  throw_if ((bnx1 =? 0) || (bnx2 =? 0) || (bnx3 =? 0)) msg_div_zero ;;;
  let nrbx1 := Z.quot (nx1 mesh_size) bnx1 in
  let nrbx2 := Z.quot (nx2 mesh_size) bnx2 in
  let nrbx3 := Z.quot (nx3 mesh_size) bnx3 in
  ids <-- read_ids (Z.to_nat nbtotal) root_level
            (mkIds 0 [] [] [] false root_level Balancer.FLT_MAX 0%Q) ;;
  broken_if (i_nerr ids) msg_broken_mesh ;;;
  let adaptive := (pin_refinement pin =? "adaptive")%string in
  let multilevel := if adaptive then true else i_multilevel ids in
  let face_only :=
    negb (MAGNETIC_FIELDS_ENABLED ext || multilevel || VISCOSITY ext) in
  let maxneighbor := BufferID ext dim multilevel face_only in
  let '(tree, (loclist, nnb)) :=
    rebuild_tree ext (i_loclist ids) nrbx1 nrbx2 nrbx3 root_level in
  note (EvLeaves nnb nbtotal) ;;;
  throw_if (negb (nnb =? nbtotal)) msg_tree ;;;
  let unbalanced :=
    mkMesh [] (h_time h) (pin_tlim pin) (h_dt h) (pin_cfl_number pin) (h_ncycle h)
           mesh_size (h_mesh_bcs h) nrbx1 nrbx2 nrbx3 root_level
           (i_current_level ids) max_level multilevel adaptive face_only
           maxneighbor tree nbtotal loclist (i_costlist ids)
           (repeat 0 (Z.to_nat nbtotal)) (repeat 0 (Z.to_nat nranks))
           (repeat 0 (Z.to_nat nranks)) in
  if MPI_PARALLEL ext && (nbtotal <? nranks) && (test_flag =? 0)
  then throw msg_too_few
  else if MPI_PARALLEL ext && (nbtotal <? nranks) then ret unbalanced
  else
    let '(ranklist, nslist, nblist) :=
      Balancer.LoadBalancing nranks (i_costlist ids)
        (repeat 0 (Z.to_nat nranks)) (repeat 0 (Z.to_nat nranks)) in
    let nbstart := at_ nslist my_rank in
    let nbend := if my_rank + 1 =? nranks then nbtotal - 1
                 else at_ nslist (my_rank + 1) - 1 in
    let pm :=
      mkMesh [] (h_time h) (pin_tlim pin) (h_dt h) (pin_cfl_number pin) (h_ncycle h)
             mesh_size (h_mesh_bcs h) nrbx1 nrbx2 nrbx3 root_level
             (i_current_level ids) max_level multilevel adaptive face_only
             maxneighbor tree nbtotal loclist (i_costlist ids)
             ranklist nslist nblist in
    if 0 <? test_flag then ret pm
    else
      blocks <-- load_blocks pm (i_offset ids) nbstart (from_to nbstart nbend) [] ;;
      ret (set_pblock pm blocks).

(** Assertions on the state, and partial-correctness triples: when [c]
    starts in a state satisfying [P] and returns, the value and the state
    satisfy [Q]; an exception is always allowed. *)
Definition is_clean (s : st) : Prop := clean (log s).

(** The error count covers the trace: either no read fell short, or
    [nerr] is positive. *)
Definition tallied (nerr : Z) (s : st) : Prop :=
  0 <= nerr /\ (clean (log s) \/ 0 < nerr).

Definition triple {A} (P : st -> Prop) (c : IO A) (Q : A -> st -> Prop) : Prop :=
  forall s, P s ->
    match c s with
    | (Ok a, s') => Q a s'
    | (Throw _, _) => True
    end.

End WithFile.

Arguments file {F}. Arguments log {F}. Arguments mkSt {F}.
Arguments ret {F A}. Arguments throw {F A}. Arguments iobind {F A B}.
Arguments lift {F A}. Arguments is_clean {F}. Arguments tallied {F}.
Arguments triple {F A}.

End Restart.

(** ** Mesh::MeshRefinement *)

Module Refinement.

Definition obind {A B} (o : outcome A) (k : A -> outcome B) : outcome B :=
  match o with
  | Done a => k a
  | Fault => Fault
  end.

Notation "x <~ c ;; k" := (obind c (fun x => k))
  (at level 61, c at next level, right associativity).

(** What the cycle does to the outside: the neighbour searches it runs
    (named by the gid of the block searched) and the final call of
    [Initialize]. *)
Inductive event :=
| EvSearchAndSetNeighbors (g : Z)
| EvInitialize (res_flag : Z).

(** The lists the cycle builds (and, on rank 0, prints). *)
Record report := mkReport {
  tnref : Z;
  tnderef : Z;
  lref : list LogicalLocation;
  fref : list Z;
  clderef : list LogicalLocation;
  events : list event
}.

(** [a[i]] on an array that may never have been allocated ([None]):
    reading through the dangling pointer, or outside the [new]-ed range,
    is undefined. *)
Definition read (a : option (list LogicalLocation)) (i : Z)
  : outcome LogicalLocation :=
  match a with
  | None => Fault
  | Some l =>
      if i <? 0 then Fault
      else match nth_error l (Z.to_nat i) with
           | Some x => Done x
           | None => Fault
           end
  end.

Definition count_flag (v : Z) (bl : list MeshBlock) : Z :=
  Z.of_nat (length (filter (fun b => refine_flag_ b =? v) bl)).

(** The local collection loop: this rank's segment of [lref], [fref] and
    [lderef], in block order. *)
Definition local_lref (bl : list MeshBlock) : list LogicalLocation :=
  map loc (filter (fun b => refine_flag_ b =? 1) bl).
Definition local_fref (bl : list MeshBlock) : list Z :=
  map neighbor_rflag_ (filter (fun b => refine_flag_ b =? 1) bl).
Definition local_lderef (bl : list MeshBlock) : list LogicalLocation :=
  map loc (filter (fun b => refine_flag_ b =? -1) bl).

(** [MPI_Allgatherv]: the segments of all ranks, in rank order. Without
    MPI_PARALLEL there is one rank and the result is the local segment. *)
Definition MPI_Allgatherv {A} (segments : list (list A)) : list A := concat segments.

Definition minbl_of (mesh_size : RegionSize) : Z :=
  let minbl := 2 in
  let minbl := if 1 <? nx2 mesh_size then 4 else minbl in
  if 1 <? nx3 mesh_size then 8 else minbl.

Definition je_of (mesh_size : RegionSize) : Z := if 1 <? nx2 mesh_size then 1 else 0.
Definition ke_of (mesh_size : RegionSize) : Z := if 1 <? nx3 mesh_size then 1 else 0.

(** The offsets [(i,j,k)] in the order the three nested loops visit them. *)
Definition offsets (ke je : Z) : list (Z * Z * Z) :=
  flat_map (fun k => flat_map (fun j => map (fun i => (i, j, k))
    (Neighbors.upto 2)) (Neighbors.upto (je + 1))) (Neighbors.upto (ke + 1)).

Definition aligned (l : LogicalLocation) : bool :=
  (Z.land (lx1 l) 1 =? 0) && (Z.land (lx2 l) 1 =? 0) && (Z.land (lx3 l) 1 =? 0).

Definition is_sibling (base : LogicalLocation) (o : Z * Z * Z) (x : LogicalLocation)
  : bool :=
  let '(i, j, k) := o in
  (lx1 base + i =? lx1 x) && (lx2 base + j =? lx2 x) && (lx3 base + k =? lx3 x)
  && (level base =? level x).

(** The inner loops: [r] walks on from [n+1], [rr] counts the matches. *)
Fixpoint count_siblings (lderef : option (list LogicalLocation))
    (base : LogicalLocation) (offs : list (Z * Z * Z)) (r rr : Z) : outcome Z :=
  match offs with
  | [] => Done rr
  | o :: offs' =>
      x <~ read lderef r ;;
      count_siblings lderef base offs' (r + 1)
                     (if is_sibling base o x then rr + 1 else rr)
  end.

Definition parent_of (l : LogicalLocation) : LogicalLocation :=
  mkLoc (Z.shiftr (lx1 l) 1) (Z.shiftr (lx2 l) 1) (Z.shiftr (lx3 l) 1) (level l - 1).

(** The outer loop over [n]; [clderef] grows by one parent per accepted
    candidate ([ctnd] is its length). *)
Fixpoint collect_derefined (lderef : option (list LogicalLocation))
    (minbl ke je : Z) (ns : list Z) (clderef : list LogicalLocation)
  : outcome (list LogicalLocation) :=
  match ns with
  | [] => Done clderef
  | n :: ns' =>
      x <~ read lderef n ;;
      if aligned x then
        rr <~ count_siblings lderef x (offsets ke je) (n + 1) 0 ;;
        collect_derefined lderef minbl ke je ns'
          (if rr =? minbl then clderef ++ [parent_of x] else clderef)
      else collect_derefined lderef minbl ke je ns' clderef
  end.

Section Cycle.

Variable FindBufferID : Z -> Z -> Z -> Z -> Z -> Z -> Z.

(** [LogicalLocation::Greater], the comparator handed to [std::sort]; it
    is declared with LogicalLocation outside mesh.cpp. *)
Variable Greater : LogicalLocation -> LogicalLocation -> bool.

(** [std::sort(first, last, comp)] on the elements of the range. *)
Fixpoint insert_sorted (x : LogicalLocation) (l : list LogicalLocation)
  : list LogicalLocation :=
  match l with
  | [] => [x]
  | y :: l' => if Greater x y then x :: y :: l' else y :: insert_sorted x l'
  end.

Definition std_sort (l : list LogicalLocation) : list LogicalLocation :=
  fold_right insert_sorted [] l.

(** [if(ctnd>1) std::sort(clderef, &(clderef[ctnd-1]), Greater)]: the
    range ends at the address of the last element. *)
Definition sort_clderef (clderef : list LogicalLocation) : list LogicalLocation :=
  let ctnd := Z.of_nat (length clderef) in
  if 1 <? ctnd then
    std_sort (firstn (Z.to_nat (ctnd - 1)) clderef)
    ++ skipn (Z.to_nat (ctnd - 1)) clderef
  else clderef.

(** The closing loop: one pass per block of the list, each calling
    [pblock->SearchAndSetNeighbors]. [pmb] is the loop pointer. *)
Fixpoint reinitialize (m : Mesh) (pmb : list MeshBlock) (pblock_ : list MeshBlock)
    (ev : list event) : list MeshBlock * list event :=
  match pmb with
  | [] => (pblock_, ev)
  | _ :: next =>
      match pblock_ with
      | [] => reinitialize m next pblock_ ev
      | first :: rest =>
          reinitialize m next
            (Neighbors.SearchAndSetNeighbors FindBufferID m (ranklist m) (nslist m) first
             :: rest)
            (ev ++ [EvSearchAndSetNeighbors (gid first)])
      end
  end.

(** The cycle on one rank. [before] and [after] are the block lists of
    the ranks below and above this one (both empty without MPI). *)
Definition MeshRefinement (before after : list (list MeshBlock)) (m : Mesh)
  : outcome (Mesh * report) :=
  let all := before ++ [pblock m] ++ after in
  let nref := map (count_flag 1) all in
  let nderef := map (count_flag (-1)) all in
  let tnref := fold_left Z.add nref 0 in
  let tnderef := fold_left Z.add nderef 0 in
  if (tnref =? 0) && (tnderef =? 0) then
    Done (m, mkReport tnref tnderef [] [] [] [])
  else
    let minbl := minbl_of (mesh_size m) in
    let lref := MPI_Allgatherv (map local_lref all) in
    let fref := MPI_Allgatherv (map local_fref all) in
    let lderef := if minbl <? tnderef
                  then Some (MPI_Allgatherv (map local_lderef all)) else None in
    let ke := ke_of (mesh_size m) in
    let je := je_of (mesh_size m) in
    clderef <~ collect_derefined lderef minbl ke je (Neighbors.upto tnderef) [] ;;
    let clderef := sort_clderef clderef in
    let '(pblock', ev) := reinitialize m (pblock m) (pblock m) [] in
    Done (set_pblock m pblock',
          mkReport tnref tnderef lref fref clderef (ev ++ [EvInitialize 2])).

End Cycle.

(** The children of a location in a mesh with the given [ke], [je]. *)
Definition children (ke je : Z) (p : LogicalLocation) : list LogicalLocation :=
  map (fun '(i, j, k) =>
         mkLoc (2 * lx1 p + i) (2 * lx2 p + j) (2 * lx3 p + k) (level p + 1))
      (offsets ke je).

(** Descending order of levels, the first key of the (level, Morton)
    order. *)
Definition levels_descending (l : list LogicalLocation) : Prop :=
  forall i j, (i < j < length l)%nat ->
    level (nth j l (mkLoc 0 0 0 0)) <= level (nth i l (mkLoc 0 0 0 0)).

End Refinement.

(** Predicates on the search state used to state the buffer-id
    properties. [ids] lists the buffer ids in the order of the neighbour
    array. *)
Definition ids (s : Neighbors.search_state) : list Z :=
  map NeighborBlock.bufid (Neighbors.st_neighbor s).

(** Ids strictly increase along the array and stay below the running
    counter; [nneighbor] is the fill count. *)
Definition ordered_ids (s : Neighbors.search_state) : Prop :=
  Neighbors.st_nneighbor s = Z.of_nat (length (Neighbors.st_neighbor s)) /\
  StronglySorted Z.lt (ids s) /\
  Forall (fun id => 0 <= id < Neighbors.st_bufid s) (ids s) /\
  0 <= Neighbors.st_bufid s.

(** Ids are exactly 0, 1, ..., bufid-1 and [nneighbor = bufid]. *)
Definition dense_ids (s : Neighbors.search_state) : Prop :=
  ids s = Neighbors.upto (Neighbors.st_bufid s) /\
  Neighbors.st_nneighbor s = Neighbors.st_bufid s /\
  0 <= Neighbors.st_bufid s.

(** Every direction has a neighbour, and none is coarser than the block. *)
Definition well_neighboured (pmy_mesh : Mesh) (blk : MeshBlock) : Prop :=
  forall ox1 ox2 ox3,
    match Neighbors.find pmy_mesh blk ox1 ox2 ox3 with
    | None => False
    | Some nd =>
        if flag nd then level (loc blk) <= level (node_loc nd)
        else forall i j k, level (loc blk) <= level (leaf_loc (GetLeaf nd i j k))
    end.

(** ** Concrete meshes used in the examples *)

Module Examples.

Definition loc1d (lv x : Z) : LogicalLocation := mkLoc x 0 0 lv.

(** Buffer numbering of a 1D block: slot 0 is the inner x1 face, slot 1
    the outer one. *)
Definition FindBufferID_1d (ox1 ox2 ox3 fi1 fi2 maxn : Z) : Z :=
  if ox1 <? 0 then 0 else 1.

Definition leaf_node (l : LogicalLocation) (g : Z) : TreeNode :=
  mkNode true l g (fun _ _ _ => mkLeaf l g).

(** Two root blocks in 1D with reflecting ends: block 0 has nothing on
    its inner side and block 1 on its outer side; block 1 has block 0 on
    its inner side and nothing on its outer side. *)
Definition tree_two_reflecting : MeshBlockTree :=
  mkTree (fun l ox1 ox2 ox3 bcs n1 n2 n3 rl =>
    if (ox2 =? 0) && (ox3 =? 0) then
      if (lx1 l =? 0) && (ox1 =? 1) then Some (leaf_node (loc1d 1 1) 1)
      else if (lx1 l =? 1) && (ox1 =? -1) then Some (leaf_node (loc1d 1 0) 0)
      else None
    else None).

(** The same two blocks with periodic ends: each is the other's
    neighbour on both sides. *)
Definition tree_two_periodic : MeshBlockTree :=
  mkTree (fun l ox1 ox2 ox3 bcs n1 n2 n3 rl =>
    if lx1 l =? 0 then Some (leaf_node (loc1d 1 1) 1)
    else Some (leaf_node (loc1d 1 0) 0)).

(** A 1D region of [n] cells over [lo, hi]. *)
Definition region1d (lo hi : Real) (n : Z) : RegionSize :=
  mkRegion lo 0%Q 0%Q hi 1%Q 1%Q 1%Q 1%Q 1%Q n 1 1.

Definition block1d (g x flagv : Z) (bcs : list Z) : MeshBlock :=
  mkBlock g g (loc1d 1 x) 1%Q
          (region1d (inject_Z x / 2)%Q ((inject_Z x + 1) / 2)%Q 16) bcs
          1%Q flagv 0 [] 0 (fun _ _ _ => -1).

Definition mesh1d (t : MeshBlockTree) (bcs : list Z) (bl : list MeshBlock) : Mesh :=
  mkMesh bl 0%Q 1%Q (1 # 10)%Q (8 # 10)%Q 0 (region1d 0%Q 1%Q 32) bcs
         2 1 1 1 1 63 false false true 2 t
         2 [loc1d 1 0; loc1d 1 1] [1%Q; 1%Q] [0; 0] [0] [2].

Definition reflecting_mesh : Mesh :=
  mesh1d tree_two_reflecting [1; 1; 0; 0; 0; 0]
         [block1d 0 0 0 [1; -1; 0; 0; 0; 0];
          block1d 1 1 0 [-1; 1; 0; 0; 0; 0]].

Definition periodic_mesh : Mesh :=
  mesh1d tree_two_periodic [4; 4; 0; 0; 0; 0]
         [block1d 0 0 0 [4; 4; 0; 0; 0; 0];
          block1d 1 1 0 [4; 4; 0; 0; 0; 0]].

(** The comparator of the examples: deeper level first. *)
Definition Greater_by_level (a b : LogicalLocation) : bool := level b <? level a.

(** Four sibling blocks of a 2D periodic mesh (root grid 2x2, blocks
    numbered in Morton order), block [g] at [(g mod 2, g / 2)]. *)
Definition loc2d (g : Z) : LogicalLocation := mkLoc (g mod 2) (g / 2) 0 1.

Definition region2d : RegionSize :=
  mkRegion 0%Q 0%Q 0%Q 1%Q 1%Q 1%Q 1%Q 1%Q 1%Q 16 16 1.

Definition tree_2x2_periodic : MeshBlockTree :=
  mkTree (fun l ox1 ox2 ox3 bcs n1 n2 n3 rl =>
    let x := (lx1 l + ox1) mod 2 in
    let y := (lx2 l + ox2) mod 2 in
    Some (leaf_node (mkLoc x y 0 1) (x + 2 * y))).

Definition block2d (g flagv : Z) : MeshBlock :=
  mkBlock g g (loc2d g) 1%Q region2d [4; 4; 4; 4; 0; 0] 1%Q flagv 0 [] 0
          (fun _ _ _ => -1).

Definition mesh2d (bl : list MeshBlock) : Mesh :=
  mkMesh bl 0%Q 1%Q (1 # 10)%Q (4 # 10)%Q 0
         (mkRegion 0%Q 0%Q 0%Q 1%Q 1%Q 1%Q 1%Q 1%Q 1%Q 32 32 1)
         [4; 4; 4; 4; 0; 0] 2 2 1 1 1 63 false false true 4 tree_2x2_periodic
         4 [loc2d 0; loc2d 1; loc2d 2; loc2d 3] [1%Q; 1%Q; 1%Q; 1%Q]
         [0; 0; 0; 0] [0] [4].

(** One of the four siblings asks to be derefined. *)
Definition one_of_four : Mesh :=
  mesh2d [block2d 0 0; block2d 1 0; block2d 2 (-1); block2d 3 0].

(** The 1D meshes with a flag on one block. *)
Definition derefine_one_1d : Mesh :=
  mesh1d tree_two_periodic [4; 4; 0; 0; 0; 0]
         [block1d 0 0 (-1) [4; 4; 0; 0; 0; 0];
          block1d 1 1 0 [4; 4; 0; 0; 0; 0]].

Definition refine_second_1d : Mesh :=
  mesh1d tree_two_periodic [4; 4; 0; 0; 0; 0]
         [block1d 0 0 0 [4; 4; 0; 0; 0; 0];
          block1d 1 1 1 [4; 4; 0; 0; 0; 0]].

(** Three blocks of a 1D mesh flagged for derefinement, at x1 indices 0,
    1 and [x]. *)
Definition derefine_three_1d (x : Z) : Mesh :=
  mesh1d tree_two_periodic [4; 4; 0; 0; 0; 0]
         [block1d 0 0 (-1) [4; 4; 0; 0; 0; 0];
          block1d 1 1 (-1) [4; 4; 0; 0; 0; 0];
          block1d 2 x (-1) [4; 4; 0; 0; 0; 0]].

(** Scenario S2: mesh 64x1x1 on [0,1], blocks of 16 cells, with the CFL
    number left open. *)
Definition pin_1d (cfl : Real) : ParameterInput :=
  mkPin 0%Q 1%Q cfl (-1) 1 64 1 1 0%Q 0%Q 0%Q 1%Q 1%Q 1%Q 1%Q 1%Q 1%Q
        [4; 4; 0; 0; 0; 0] (Some 16) None None "static" 1.

(** A restart file as a stream of typed items, read in order; a read that
    does not find its item delivers nothing. [Seek] is the identity: the
    payloads follow the id list in block order. *)
Inductive item :=
| IInt (z : Z)
| IInts (l : list Z)
| IReal (q : Real)
| IReals (l : list Real)
| IRegion (r : RegionSize)
| ILoc (l : LogicalLocation)
| ISize (z : Z).

Definition stream_io : Restart.IOWrapper (list item) :=
  Restart.mkIO (list item)
    (fun f => match f with IInt z :: f' => (f', (1, z)) | _ => (f, (0, 0)) end)
    (fun n f => match f with IInts l :: f' => (f', (n, l)) | _ => (f, (0, [])) end)
    (fun f => match f with IReal q :: f' => (f', (1, q)) | _ => (f, (0, 0%Q)) end)
    (fun n f => match f with IReals l :: f' => (f', (n, l)) | _ => (f, (0, [])) end)
    (fun f => match f with
              | IRegion r :: f' => (f', (1, r))
              | _ => (f, (0, region1d 0%Q 0%Q 0))
              end)
    (fun f => match f with ILoc l :: f' => (f', (1, l)) | _ => (f, (0, loc1d 0 0)) end)
    (fun f => match f with ISize z :: f' => (f', (1, z)) | _ => (f, (0, 0)) end)
    (fun _ f => f)
    (fun f => f).

(** One rank, no MPI, hydrodynamics only; the tree of the periodic 1D
    mesh; one conserved value per cell. *)
Definition serial_1d : Restart.Collaborators :=
  Restart.mkCollab 1 0 false false false false
    (fun _ _ _ => 2) FindBufferID_1d
    (fun locs _ _ _ _ => (tree_two_periodic, (locs, Z.of_nat (length locs))))
    (fun _ _ => Ok tt)
    nx1 nx1 nx1 nx1 nx1 nx1.

Definition header_1d : list item :=
  [IInt 2; IInt 1; IRegion (region1d 0%Q 1%Q 32); IInts [4; 4; 0; 0; 0; 0];
   IReal 0%Q; IReal (1 # 10)%Q; IInt 0].

Definition idlist_1d : list item :=
  [IInt 0; ILoc (loc1d 1 0); IReal 1%Q; ISize 0;
   IInt 1; ILoc (loc1d 1 1); IReal 1%Q; ISize 1].

Definition payload_1d (x : Z) : list item :=
  [IRegion (region1d (inject_Z x / 2)%Q ((inject_Z x + 1) / 2)%Q 16);
   IInts [4; 4; 0; 0; 0; 0]; IReals (repeat 1%Q 16)].

(** The complete file, and the file cut off inside the second payload. *)
Definition restart_file : list item :=
  header_1d ++ idlist_1d ++ payload_1d 0 ++ payload_1d 1.

Definition truncated_file : list item :=
  header_1d ++ idlist_1d ++ payload_1d 0 ++ firstn 2 (payload_1d 1).

Definition pin_restart : ParameterInput :=
  mkPin 0%Q 1%Q (8 # 10)%Q (-1) 1 32 1 1 0%Q 0%Q 0%Q 1%Q 1%Q 1%Q 1%Q 1%Q 1%Q
        [4; 4; 0; 0; 0; 0] (Some 16) None None "static" 1.

End Examples.

(** ** Shapes of rank lists *)

Module Runs.

(** Ranks [j], [j-1], ... with the given run lengths, the order in which
    the sweep of the balancer writes them; ranks [r], [r+1], ... with the
    given run lengths, the order of [rlist]; and the start index of each
    run when the first starts at [start]. *)
Fixpoint runs_down (j : Z) (lens : list nat) : list Z :=
  match lens with
  | [] => []
  | l :: ls => repeat j l ++ runs_down (j - 1) ls
  end.

Fixpoint runs_from (r : Z) (lens : list nat) : list Z :=
  match lens with
  | [] => []
  | l :: ls => repeat r l ++ runs_from (r + 1) ls
  end.

Fixpoint run_starts (start : Z) (lens : list nat) : list Z :=
  match lens with
  | [] => []
  | l :: ls => start :: run_starts (start + Z.of_nat l) ls
  end.

End Runs.

(** The counts the third loop of the balancer has written when it
    leaves: the run in progress at entry, then every run but the last. *)
Module RunCounts.

Fixpoint seg_counts (first : Z) (lens : list nat) : list Z :=
  match lens with
  | [] => []
  | l :: ls => first :: seg_counts (Z.of_nat l) ls
  end.

Definition total (lens : list nat) : Z := Z.of_nat (fold_right Nat.add 0%nat lens).

End RunCounts.

(** ** Directions *)

Module Offsets.

(** An offset is -1, 0 or 1; a direction has one (face), two (edge) or
    three (corner) offsets that are not 0. *)
Definition unit (o : Z) : bool := (o =? -1) || (o =? 0) || (o =? 1).

Definition nonzeros (o1 o2 o3 : Z) : Z :=
  (if o1 =? 0 then 0 else 1) + (if o2 =? 0 then 0 else 1)
  + (if o3 =? 0 then 0 else 1).

Definition direction_of (ty : neighbor_type) (o1 o2 o3 : Z) : bool :=
  unit o1 && unit o2 && unit o3 &&
  (nonzeros o1 o2 o3 =?
   match ty with neighbor_face => 1 | neighbor_edge => 2 | neighbor_corner => 3 end).

(** The descriptor is consistent: its offsets form a direction of its
    type, and the tag of that type is set. *)
Definition consistent (nb : NeighborBlock.t) : Prop :=
  direction_of (NeighborBlock.type nb) (NeighborBlock.ox1 nb)
               (NeighborBlock.ox2 nb) (NeighborBlock.ox3 nb) = true /\
  match NeighborBlock.type nb with
  | neighbor_face => NeighborBlock.fid nb <> None
  | neighbor_edge => exists e, NeighborBlock.eid nb = Some e /\ 0 <= e < 12
  | neighbor_corner => True
  end.

(** A property of descriptors that every descriptor of direction
    [(o1, o2, o3)] and type [ty] has when its rank and local id are read
    off the tables at its gid, as the search fills them in, and that
    every entry written so far has. *)
Definition covers (rl sl : list Z) (Q : NeighborBlock.t -> Prop)
    (ty : neighbor_type) (o1 o2 o3 : Z) : Prop :=
  forall l g b t f1 f2,
    Q (Neighbors.SetNeighbor (at_ rl g) l g (g - at_ sl (at_ rl g))
                             o1 o2 o3 ty b t f1 f2).

(** The rank and the local id of a descriptor are those the tables give
    for its gid. *)
Definition owned (rl sl : list Z) (nb : NeighborBlock.t) : Prop :=
  NeighborBlock.rank nb = at_ rl (NeighborBlock.gid nb) /\
  NeighborBlock.lid nb = NeighborBlock.gid nb - at_ sl (NeighborBlock.rank nb).

Definition all_entries (Q : NeighborBlock.t -> Prop)
    (s : Neighbors.search_state) : Prop :=
  Forall Q (Neighbors.st_neighbor s).

End Offsets.

(** ** Level map and index windows *)

Module Window.

(** What a direction contributes to the level map: -1 without a
    neighbour, the level of a leaf, one more than the level of an
    interior node (its children are the neighbours). *)
Definition level_seen (o : option TreeNode) : Z :=
  match o with
  | None => -1
  | Some nd => if flag nd then level (node_loc nd) else level (node_loc nd) + 1
  end.

(** The index window [(is, ie, js, je, ks, ke)] set by both MeshBlock
    constructors; [NGHOST] is a macro of athena.hpp. *)
Definition interior (NGHOST : Z) (bs : RegionSize) : Z * Z * Z * Z * Z * Z :=
  let is_ := NGHOST in
  let ie := is_ + nx1 bs - 1 in
  let '(js, je) := if 1 <? nx2 bs then (NGHOST, NGHOST + nx2 bs - 1) else (0, 0) in
  let '(ks, ke) := if 1 <? nx3 bs then (NGHOST, NGHOST + nx3 bs - 1) else (0, 0) in
  (is_, ie, js, je, ks, ke).

(** The window [Mesh::Initialize] hands to [ConservedToPrimitive]: the
    interior, pushed out by [NGHOST] on each face whose entry of the
    level map is not -1. *)
Definition Initialize_window (NGHOST : Z) (pmb : MeshBlock)
  : Z * Z * Z * Z * Z * Z :=
  let '(is_, ie, js, je, ks, ke) := interior NGHOST (block_size pmb) in
  let is_ := if negb (nblevel pmb 1 1 0 =? -1) then is_ - NGHOST else is_ in
  let ie := if negb (nblevel pmb 1 1 2 =? -1) then ie + NGHOST else ie in
  let js := if negb (nblevel pmb 1 0 1 =? -1) then js - NGHOST else js in
  let je := if negb (nblevel pmb 1 2 1 =? -1) then je + NGHOST else je in
  let ks := if negb (nblevel pmb 0 1 1 =? -1) then ks - NGHOST else ks in
  let ke := if negb (nblevel pmb 2 1 1 =? -1) then ke + NGHOST else ke in
  (is_, ie, js, je, ks, ke).

(** How far a face of the window moves: [NGHOST] with a neighbour across
    it, not at all without. *)
Definition widened (NGHOST : Z) (o : option TreeNode) : Z :=
  match o with Some _ => NGHOST | None => 0 end.

(** A slot of the level map with at least two of its three indices equal
    to 1: the centre and the six face slots. *)
Definition axial (k j i : Z) : bool :=
  ((k =? 1) && (j =? 1)) || ((k =? 1) && (i =? 1)) || ((j =? 1) && (i =? 1)).

End Window.

(** ** The flagged blocks of a refinement cycle *)

Module Flags.

(** The blocks of all ranks, in rank order, and among them those whose
    flag is [v]. *)
Definition flagged (v : Z) (all : list (list MeshBlock)) : list MeshBlock :=
  filter (fun b => refine_flag_ b =? v) (concat all).

(** The block list after the closing loop of the cycle, when the loop
    runs: the head searched, the rest as it was. *)
Definition head_searched (FindBufferID : Z -> Z -> Z -> Z -> Z -> Z -> Z)
    (m : Mesh) : list MeshBlock :=
  match pblock m with
  | [] => []
  | first :: rest =>
      Neighbors.SearchAndSetNeighbors FindBufferID m (ranklist m) (nslist m) first
      :: rest
  end.

Definition head_gid (m : Mesh) : Z :=
  match pblock m with
  | [] => 0
  | first :: _ => gid first
  end.

End Flags.

(** ** The blocks a rank creates *)

Module Ownership.

(** "store my nbstart and nbend" in both constructors. *)
Definition nbstart_of (nslist : list Z) (my_rank : Z) : Z := at_ nslist my_rank.

Definition nbend_of (nranks nbtotal : Z) (nslist : list Z) (my_rank : Z) : Z :=
  if my_rank + 1 =? nranks then nbtotal - 1 else at_ nslist (my_rank + 1) - 1.

(** A block as the restart loop builds it: local id counted from
    [nbstart], location and cost taken from the lists at its gid. *)
Definition loaded (pm : Mesh) (nbstart : Z) (b : MeshBlock) : Prop :=
  lid b = gid b - nbstart /\
  loc b = nth (Z.to_nat (gid b)) (loclist pm) (mkLoc 0 0 0 0) /\
  cost b = nth (Z.to_nat (gid b)) (costlist pm) 0%Q.

End Ownership.

(** ** The root grid of the fresh constructor *)

Module Layout.

Import ResultNotation.

Definition msg_uneven : string :=
  "Mesh constructor: the mesh must be evenly divisible by the meshblock".
Definition msg_small : string :=
  "Mesh constructor: block_size must be larger than or equal to 4 meshes.".
Definition msg_maxlevel : string :=
  "Mesh constructor: The maximum refinement level must be smaller than 63-root_level+1".
Definition msg_shift : string := "shift count out of range".

(** [a % b != 0] on [int]s; the remainder traps on a zero divisor. *)
Definition not_divisible (a b : Z) : result bool :=
  if b =? 0 then Throw Restart.msg_div_zero else Ok (negb (Z.rem a b =? 0)).

(** [for(root_level=0; (1<<root_level)<nbmax; root_level++);] on a 32-bit
    [int]: shift counts 0 to 30 are available. *)
Fixpoint find_root_level (fuel : nat) (root_level nbmax : Z) : option Z :=
  match fuel with
  | O => None
  | S fuel' =>
      if Z.shiftl 1 root_level <? nbmax
      then find_root_level fuel' (root_level + 1) nbmax
      else Some root_level
  end.

Record layout := mkLayout {
  l_bnx1 : Z; l_bnx2 : Z; l_bnx3 : Z;
  l_nrbx1 : Z; l_nrbx2 : Z; l_nrbx3 : Z;
  l_root_level : Z;
  l_adaptive : bool;
  l_max_level : Z
}.

(** From "read MeshBlock parameters" to the choice of [max_level]. The
    three remainders are taken left to right and the test stops at the
    first that is not zero. *)
Definition Mesh_blocks (pin : ParameterInput) (v : RegionSize * Z) : result layout :=
  let '(mesh_size, dim) := v in
  let bnx1 := Restart.block_nx (pin_block_nx1 pin) (nx1 mesh_size) in
  let bnx2 := if 2 <=? dim then Restart.block_nx (pin_block_nx2 pin) (nx2 mesh_size)
              else nx2 mesh_size in
  let bnx3 := if dim =? 3 then Restart.block_nx (pin_block_nx3 pin) (nx3 mesh_size)
              else nx3 mesh_size in
  u1 <- not_divisible (nx1 mesh_size) bnx1 ;;
  uneven <- (if u1 then Ok true else
             u2 <- not_divisible (nx2 mesh_size) bnx2 ;;
             if u2 then Ok true else not_divisible (nx3 mesh_size) bnx3) ;;
  Construct.throw_if uneven msg_uneven ;;;
  Construct.throw_if ((bnx1 <? 4) || ((bnx2 <? 4) && (2 <=? dim))
                      || ((bnx3 <? 4) && (dim =? 3))) msg_small ;;;
  let nrbx1 := Z.quot (nx1 mesh_size) bnx1 in
  let nrbx2 := Z.quot (nx2 mesh_size) bnx2 in
  let nrbx3 := Z.quot (nx3 mesh_size) bnx3 in
  let nbmax := if nrbx2 <? nrbx1 then nrbx1 else nrbx2 in
  let nbmax := if nrbx3 <? nbmax then nbmax else nrbx3 in
  match find_root_level 31 0 nbmax with
  | None => Throw msg_shift
  | Some root_level =>
      let adaptive := (pin_refinement pin =? "adaptive")%string in
      let max_level := if adaptive then pin_maxlevel pin + root_level - 1 else 63 in
      Construct.throw_if (adaptive && (63 <? max_level)) msg_maxlevel ;;;
      Ok (mkLayout bnx1 bnx2 bnx3 nrbx1 nrbx2 nrbx3 root_level adaptive max_level)
  end.

End Layout.

(** ** The logical range of a refinement region *)

Module Regions.

(** [for(lx=start; lx<lxmax; lx++) if(test(lx)) break;]: the value of
    [lx] when the loop is left, [steps] being the passes still allowed. *)
Fixpoint scan (test : Z -> bool) (steps : nat) (lx : Z) : Z :=
  match steps with
  | O => lx
  | S k => if test lx then lx else scan test k (lx + 1)
  end.

Definition scan_from (test : Z -> bool) (start lxmax : Z) : Z :=
  scan test (Z.to_nat (lxmax - start)) start.

(** "find the logical range in the ref_level" along one direction.
    [gen] is [MeshGeneratorX1] (or [X2], [X3]) at the mesh, a function
    of the fraction of the way across; [lxmax = nrbx*(1L<<ref_lev)]. The
    lower end is snapped down to an even index and the upper end up to an
    odd one. *)
Definition axis_range (gen : Real -> Real) (nrbx ref_lev : Z) (xmin xmax : Real)
  : Z * Z :=
  let lxmax := nrbx * Z.shiftl 1 ref_lev in
  let lxmin := scan_from (fun lx =>
                 Qltb xmin (gen (inject_Z (lx + 1) / inject_Z lxmax)%Q)) 0 lxmax in
  let lxmx := scan_from (fun lx =>
                 Qle_bool xmax (gen (inject_Z (lx + 1) / inject_Z lxmax)%Q))
                lxmin lxmax in
  let lxmin := if Z.rem lxmin 2 =? 1 then lxmin - 1 else lxmin in
  let lxmx := if Z.rem lxmx 2 =? 0 then lxmx + 1 else lxmx in
  (lxmin, lxmx).

(** [for(long int i=lo; i<hi; i+=2)]: the indices handed to
    [AddMeshBlock]. *)
Definition by_twos (lo hi : Z) : list Z :=
  map (fun k => lo + 2 * Z.of_nat k) (seq 0 (Z.to_nat ((hi - lo + 1) / 2))).

Definition msg_level : string :=
  "Mesh constructor: Refinement level must be larger than 0 (root level = 0)".
Definition msg_exceeds : string :=
  "Mesh constructor: Refinement level exceeds the maximum level (specify maxlevel in <mesh> if adaptive).".
Definition msg_invalid : string :=
  "Mesh constructor: Invalid refinement region is specified.".
Definition msg_outside : string :=
  "Mesh constructor: Refinement region must be smaller than the whole mesh.".

(** The "range check" of a refinement block of the input. *)
Definition check_region (ref_lev root_level max_level : Z)
    (ref_size mesh_size : RegionSize) : result unit :=
  let lrlev := ref_lev + root_level in
  bind (Construct.throw_if (ref_lev <? 1) msg_level) (fun _ =>
  bind (Construct.throw_if (max_level <? lrlev) msg_exceeds) (fun _ =>
  bind (Construct.throw_if
          (Qltb (x1max ref_size) (x1min ref_size)
           || Qltb (x2max ref_size) (x2min ref_size)
           || Qltb (x3max ref_size) (x3min ref_size)) msg_invalid) (fun _ =>
  Construct.throw_if
    (Qltb (x1min ref_size) (x1min mesh_size)
     || Qltb (x1max mesh_size) (x1max ref_size)
     || Qltb (x2min ref_size) (x2min mesh_size)
     || Qltb (x2max mesh_size) (x2max ref_size)
     || Qltb (x3min ref_size) (x3min mesh_size)
     || Qltb (x3max mesh_size) (x3max ref_size)) msg_outside))).

End Regions.

(** ** The physical extent of a block *)

Module Geometry.

(** "calculate physical block size" along one direction (the same code
    for x1, for x2 when [dim >= 2] and for x3 when [dim = 3]), for the
    block at index [lx] of a level [shift = ll - root_level] levels above
    the root grid: lower end with its boundary flag, upper end with its
    boundary flag. [gen] is the mesh generator of the direction at the
    mesh; -1 flags a face shared with another block. *)
Definition axis_extent (gen : Real -> Real) (mesh_min mesh_max : Real)
    (bc_inner bc_outer : Z) (nrbx shift lx : Z) : (Real * Z) * (Real * Z) :=
  let n := Z.shiftl nrbx shift in
  (if lx =? 0 then (mesh_min, bc_inner)
   else (gen (inject_Z lx / inject_Z n)%Q, -1),
   if lx =? n - 1 then (mesh_max, bc_outer)
   else (gen (inject_Z (lx + 1) / inject_Z n)%Q, -1)).

End Geometry.

(** ** Tearing the block list down *)

Module Destroy.

(** The two pointers of a MeshBlock that the destructors follow, and the
    store of live blocks by address; [None] is [NULL] for a pointer and
    "not allocated" for the store. *)
Record links := mkLinks { prev : option Z; next : option Z }.

Definition heap : Type := Z -> option links.

Definition write (h : heap) (p : Z) (v : option links) : heap :=
  fun q => if q =? p then v else h q.

(** [x->field = v] through a pointer that must be live. *)
Definition set_next (h : heap) (x : Z) (v : option Z) : outcome heap :=
  match h x with
  | None => Fault
  | Some l => Done (write h x (Some (mkLinks (prev l) v)))
  end.

Definition set_prev (h : heap) (x : Z) (v : option Z) : outcome heap :=
  match h x with
  | None => Fault
  | Some l => Done (write h x (Some (mkLinks v (next l))))
  end.

(** [delete p]: [MeshBlock::~MeshBlock] unlinks the block, then its
    storage is released. Each statement reads the fields of [*this]
    afresh. *)
Definition delete_block (h : heap) (p : Z) : outcome heap :=
  match h p with
  | None => Fault
  | Some me =>
      match (match prev me with
             | Some q => set_next h q (next me)
             | None => Done h
             end) with
      | Fault => Fault
      | Done h1 =>
          match h1 p with
          | None => Fault
          | Some me =>
              match (match next me with
                     | Some q => set_prev h1 q (prev me)
                     | None => Done h1
                     end) with
              | Fault => Fault
              | Done h2 => Done (write h2 p None)
              end
          end
      end
  end.

(** [while(pblock->side != NULL) delete pblock->side;] with a bound on
    the number of passes; [None] when the bound is reached. *)
Fixpoint drain (side : links -> option Z) (fuel : nat) (h : heap) (pblock : Z)
  : option (outcome heap) :=
  match fuel with
  | O => None
  | S fuel' =>
      match h pblock with
      | None => Some Fault
      | Some me =>
          match side me with
          | None => Some (Done h)
          | Some q =>
              match delete_block h q with
              | Fault => Some Fault
              | Done h' => drain side fuel' h' pblock
              end
          end
      end
  end.

(** [Mesh::~Mesh] as far as the blocks go. *)
Definition Mesh_dtor (fuel : nat) (h : heap) (pblock : Z) : option (outcome heap) :=
  match drain prev fuel h pblock with
  | Some (Done h1) =>
      match drain next fuel h1 pblock with
      | Some (Done h2) => Some (delete_block h2 pblock)
      | r => r
      end
  | r => r
  end.

(** The blocks before [from], nearest first: each points forward to the
    one nearer to [from] and back to the next one of the list. *)
Fixpoint before (h : heap) (from : Z) (l : list Z) : Prop :=
  match l with
  | [] => True
  | a :: l' => h a = Some (mkLinks (hd_error l') (Some from)) /\ before h a l'
  end.

(** The blocks after [from], nearest first. *)
Fixpoint after (h : heap) (from : Z) (l : list Z) : Prop :=
  match l with
  | [] => True
  | a :: l' => h a = Some (mkLinks (Some from) (hd_error l')) /\ after h a l'
  end.

(** A doubly linked list seen from [pblock]: [ps] before it and [ns]
    after it, all at different addresses. *)
Definition list_at (h : heap) (pblock : Z) (ps ns : list Z) : Prop :=
  NoDup (pblock :: ps ++ ns) /\
  h pblock = Some (mkLinks (hd_error ps) (hd_error ns)) /\
  before h pblock ps /\ after h pblock ns.

End Destroy.

(** * Theorems *)

(** ** Basic facts *)


Lemma Qltb_lt a b : Qltb a b = true <-> (a < b)%Q.
Proof.
  unfold Qltb. rewrite negb_true_iff. split; intros H.
  - apply Qnot_le_lt. intros Hle. apply Qle_bool_iff in Hle. congruence.
  - destruct (Qle_bool b a) eqn:E; [|reflexivity].
    apply Qle_bool_iff in E. exfalso. apply (Qlt_not_le _ _ H E).
Qed.

Lemma Qltb_ge a b : Qltb a b = false <-> (b <= a)%Q.
Proof.
  unfold Qltb. rewrite negb_false_iff. apply Qle_bool_iff.
Qed.


Lemma std_min_le_r a b : (std_min a b <= b)%Q.
Proof.
  unfold std_min. destruct (Qltb b a) eqn:E.
  - lra.
  - apply Qltb_ge in E. lra.
Qed.

(** C10. [FindMeshBlock] returns the first block of the local list whose
    gid is [tgid] (every block before it has another gid) and NULL when no
    local block has that gid; the local list is all it reads. *)
Theorem FindMeshBlock_first_or_null (pblock : list MeshBlock) (tgid : Z) :
  match Find.FindMeshBlock pblock tgid with
  | Some b => exists before after,
      pblock = before ++ b :: after /\ gid b = tgid /\
      Forall (fun x => gid x <> tgid) before
  | None => Forall (fun x => gid x <> tgid) pblock
  end.
Proof.
  induction pblock as [|pbl next IH]; simpl.
  - constructor.
  - destruct (gid pbl =? tgid) eqn:E.
    + apply Z.eqb_eq in E. exists [], next. repeat split; auto.
    + apply Z.eqb_neq in E.
      destruct (Find.FindMeshBlock next tgid) as [b|].
      * destruct IH as (before & after & -> & Hg & Hb).
        exists (pbl :: before), after. repeat split; auto.
      * constructor; auto.
Qed.



(** ** Buffer ids of the neighbour search *)

Lemma StronglySorted_snoc (l : list Z) (x : Z) :
  StronglySorted Z.lt l -> Forall (fun y => y < x) l ->
  StronglySorted Z.lt (l ++ [x]).
Proof.
  induction 1 as [|a l Hs IH Ha]; intros Hx; simpl.
  - repeat constructor.
  - inversion Hx; subst. constructor; [auto|].
    apply Forall_app. split; [assumption|]. repeat constructor. assumption.
Qed.

Lemma upto_length n : length (Neighbors.upto n) = Z.to_nat n.
Proof. unfold Neighbors.upto. now rewrite length_map, length_seq. Qed.

Lemma upto_succ b : 0 <= b -> Neighbors.upto (b + 1) = Neighbors.upto b ++ [b].
Proof.
  intros Hb. unfold Neighbors.upto.
  replace (Z.to_nat (b + 1)) with (S (Z.to_nat b)) by lia.
  rewrite seq_S, map_app. simpl. now rewrite Z2Nat.id.
Qed.

Lemma SetNeighbor_bufid r l g li o1 o2 o3 ty b t f1 f2 :
  NeighborBlock.bufid (Neighbors.SetNeighbor r l g li o1 o2 o3 ty b t f1 f2) = b.
Proof. reflexivity. Qed.

Section SearchFacts.

Variable FindBufferID : Z -> Z -> Z -> Z -> Z -> Z -> Z.
Variable pmy_mesh : Mesh.
Variable ranklist_ nslist_ : list Z.
Variable blk : MeshBlock.

Import Neighbors.

Lemma nf1_range : nf1 pmy_mesh blk = 1 \/ nf1 pmy_mesh blk = 2.
Proof. unfold nf1. destruct (multilevel pmy_mesh), (1 <? nx2 (block_size blk)); auto. Qed.

Lemma nf2_range : nf2 pmy_mesh blk = 1 \/ nf2 pmy_mesh blk = 2.
Proof. unfold nf2. destruct (multilevel pmy_mesh), (1 <? nx3 (block_size blk)); auto. Qed.

Lemma ordered_advance s w : 0 <= w -> ordered_ids s -> ordered_ids (advance s w).
Proof.
  intros Hw (Hn & Hs & Hb & H0). unfold ordered_ids, ids; simpl.
  repeat split; auto; try lia.
  eapply Forall_impl; [|exact Hb]. simpl. intros; lia.
Qed.

Lemma ordered_record_level s k j i v :
  ordered_ids s -> ordered_ids (record_level s k j i v).
Proof. intros H. exact H. Qed.

Lemma ordered_push_advance s nb w :
  1 <= w -> NeighborBlock.bufid nb = st_bufid s ->
  ordered_ids s -> ordered_ids (advance (push s nb) w).
Proof.
  intros Hw Hid (Hn & Hs & Hb & H0). unfold ordered_ids, ids; simpl.
  rewrite map_app, length_app. simpl. rewrite Hid.
  repeat split; try lia.
  - apply StronglySorted_snoc; [exact Hs|].
    eapply Forall_impl; [|exact Hb]. simpl. intros; lia.
  - apply Forall_app. split.
    + eapply Forall_impl; [|exact Hb]. simpl. intros; lia.
    + repeat constructor; lia.
Qed.

(** A loop whose body keeps the ids ordered and consumes [w] slots keeps
    them ordered and consumes [w] slots per iteration. *)
Lemma fold_ordered {A} (f : search_state -> A -> search_state) (w : Z) (l : list A) :
  (forall s a, ordered_ids s ->
     ordered_ids (f s a) /\ st_bufid (f s a) = st_bufid s + w) ->
  forall s, ordered_ids s ->
    ordered_ids (fold_left f l s) /\
    st_bufid (fold_left f l s) = st_bufid s + w * Z.of_nat (length l).
Proof.
  intros Hf. induction l as [|a l IH]; intros s Hs; simpl fold_left.
  - split; [exact Hs|]. simpl. lia.
  - destruct (Hf s a Hs) as [H1 H2].
    destruct (IH _ H1) as [H3 H4]. split; [exact H3|].
    rewrite H4, H2. simpl length. lia.
Qed.

Lemma push_finer_ordered o1 o2 o3 ty tbid nf f1 f2 s :
  ordered_ids s ->
  ordered_ids (push_finer ranklist_ nslist_ o1 o2 o3 ty tbid nf f1 f2 s) /\
  st_bufid (push_finer ranklist_ nslist_ o1 o2 o3 ty tbid nf f1 f2 s) = st_bufid s + 1.
Proof.
  intros Hs. unfold push_finer. split; [|reflexivity].
  apply ordered_push_advance; [lia|apply SetNeighbor_bufid|exact Hs].
Qed.

Lemma face_dir_ordered o1 o2 o3 leaf cf1 cf2 k j i n s :
  ordered_ids s ->
  ordered_ids (face_dir FindBufferID pmy_mesh ranklist_ nslist_ blk
                        o1 o2 o3 leaf cf1 cf2 k j i n s) /\
  st_bufid (face_dir FindBufferID pmy_mesh ranklist_ nslist_ blk
                     o1 o2 o3 leaf cf1 cf2 k j i n s)
  = st_bufid s + nf1 pmy_mesh blk * nf2 pmy_mesh blk.
Proof.
  intros Hs. unfold face_dir.
  pose proof nf1_range as H1. pose proof nf2_range as H2.
  destruct (find pmy_mesh blk o1 o2 o3) as [neibt|].
  - destruct (flag neibt); simpl negb; cbv iota.
    + split; [|reflexivity].
      apply ordered_push_advance; [nia|apply SetNeighbor_bufid|exact Hs].
    + match goal with
      | |- context [fold_left ?F (upto (nf2 pmy_mesh blk)) ?S0] =>
          destruct (fold_ordered F (nf1 pmy_mesh blk) (upto (nf2 pmy_mesh blk))) with (s := S0)
            as [Ha Hb]
      end.
      * intros s0 f2 Hs0.
        match goal with
        | |- context [fold_left ?G (upto (nf1 pmy_mesh blk)) s0] =>
            destruct (fold_ordered G 1 (upto (nf1 pmy_mesh blk))) with (s := s0)
              as [Hc Hd]
        end.
        -- intros s1 f1 Hs1. apply push_finer_ordered. exact Hs1.
        -- exact Hs0.
        -- split; [exact Hc|]. rewrite Hd, upto_length. lia.
      * apply ordered_record_level. exact Hs.
      * split; [exact Ha|]. rewrite Hb, upto_length. simpl st_bufid. lia.
  - split; [apply ordered_advance; [nia|exact Hs]|reflexivity].
Qed.

Lemma edge_dir_ordered o1 o2 o3 leaf w cf1 mine k j i n m s :
  1 <= w -> ordered_ids s ->
  ordered_ids (edge_dir FindBufferID pmy_mesh ranklist_ nslist_ blk
                        o1 o2 o3 leaf w cf1 mine k j i n m s) /\
  st_bufid (edge_dir FindBufferID pmy_mesh ranklist_ nslist_ blk
                     o1 o2 o3 leaf w cf1 mine k j i n m s) = st_bufid s + w.
Proof.
  intros Hw Hs. unfold edge_dir.
  destruct (find pmy_mesh blk o1 o2 o3) as [neibt|].
  - destruct (flag neibt); simpl negb; cbv iota.
    + destruct (_ || mine).
      * split; [|reflexivity].
        apply ordered_push_advance; [lia|apply SetNeighbor_bufid|exact Hs].
      * split; [|reflexivity]. apply ordered_advance; [lia|exact Hs].
    + match goal with
      | |- context [fold_left ?F (upto w) ?S0] =>
          destruct (fold_ordered F 1 (upto w)) with (s := S0) as [Ha Hb]
      end.
      * intros s1 f1 Hs1. apply push_finer_ordered. exact Hs1.
      * apply ordered_record_level. exact Hs.
      * split; [exact Ha|]. rewrite Hb, upto_length. simpl st_bufid. lia.
  - split; [apply ordered_advance; [lia|exact Hs]|reflexivity].
Qed.

Lemma corner_dir_ordered n m l s :
  ordered_ids s ->
  ordered_ids (corner_dir FindBufferID pmy_mesh ranklist_ nslist_ blk n m l s) /\
  st_bufid (corner_dir FindBufferID pmy_mesh ranklist_ nslist_ blk n m l s)
  = st_bufid s + 1.
Proof.
  intros Hs. unfold corner_dir.
  destruct (find pmy_mesh blk n m l) as [neibt|].
  - destruct (if negb (flag neibt) then _ else _) as [nloc nid].
    destruct (_ || _).
    + split; [|reflexivity].
      apply ordered_push_advance; [lia|apply SetNeighbor_bufid|exact Hs].
    + split; [|reflexivity]. apply ordered_advance; [lia|exact Hs].
  - split; [apply ordered_advance; [lia|exact Hs]|reflexivity].
Qed.

Lemma fold_sides_ordered (f : search_state -> Z -> search_state) (w : Z) s :
  (forall s a, ordered_ids s ->
     ordered_ids (f s a) /\ st_bufid (f s a) = st_bufid s + w) ->
  ordered_ids s ->
  ordered_ids (fold_left f sides s) /\
  st_bufid (fold_left f sides s) = st_bufid s + 2 * w.
Proof.
  intros Hf Hs. destruct (fold_ordered f w sides Hf s Hs) as [Ha Hb].
  split; [exact Ha|]. rewrite Hb.
  change (Z.of_nat (length sides)) with 2. lia.
Qed.

Ltac face_group :=
  intros Hs; apply fold_sides_ordered; [|exact Hs];
  intros s0 a Hs0; apply face_dir_ordered; exact Hs0.

Lemma x1_faces_ordered s :
  ordered_ids s ->
  ordered_ids (x1_faces FindBufferID pmy_mesh ranklist_ nslist_ blk s) /\
  st_bufid (x1_faces FindBufferID pmy_mesh ranklist_ nslist_ blk s)
  = st_bufid s + 2 * (nf1 pmy_mesh blk * nf2 pmy_mesh blk).
Proof. face_group. Qed.

Lemma x2_faces_ordered s :
  ordered_ids s ->
  ordered_ids (x2_faces FindBufferID pmy_mesh ranklist_ nslist_ blk s) /\
  st_bufid (x2_faces FindBufferID pmy_mesh ranklist_ nslist_ blk s)
  = st_bufid s + 2 * (nf1 pmy_mesh blk * nf2 pmy_mesh blk).
Proof. face_group. Qed.

Lemma x3_faces_ordered s :
  ordered_ids s ->
  ordered_ids (x3_faces FindBufferID pmy_mesh ranklist_ nslist_ blk s) /\
  st_bufid (x3_faces FindBufferID pmy_mesh ranklist_ nslist_ blk s)
  = st_bufid s + 2 * (nf1 pmy_mesh blk * nf2 pmy_mesh blk).
Proof. face_group. Qed.

Ltac edge_group Hw :=
  intros Hs;
  match goal with
  | |- ordered_ids (fold_left ?F sides ?S0) /\ _ =
       _ + 4 * ?W =>
      destruct (fold_sides_ordered F (2 * W) S0) as [Ha Hb];
      [ intros s0 m Hs0; apply fold_sides_ordered; [|exact Hs0];
        intros s1 n Hs1; apply edge_dir_ordered; [exact Hw|exact Hs1]
      | exact Hs
      | split; [exact Ha|rewrite Hb; lia] ]
  end.

Lemma x1x2_edges_ordered s :
  ordered_ids s ->
  ordered_ids (x1x2_edges FindBufferID pmy_mesh ranklist_ nslist_ blk s) /\
  st_bufid (x1x2_edges FindBufferID pmy_mesh ranklist_ nslist_ blk s)
  = st_bufid s + 4 * nf2 pmy_mesh blk.
Proof.
  assert (Hw : 1 <= nf2 pmy_mesh blk) by (destruct nf2_range; lia).
  unfold x1x2_edges. edge_group Hw.
Qed.

Lemma x1x3_edges_ordered s :
  ordered_ids s ->
  ordered_ids (x1x3_edges FindBufferID pmy_mesh ranklist_ nslist_ blk s) /\
  st_bufid (x1x3_edges FindBufferID pmy_mesh ranklist_ nslist_ blk s)
  = st_bufid s + 4 * nf1 pmy_mesh blk.
Proof.
  assert (Hw : 1 <= nf1 pmy_mesh blk) by (destruct nf1_range; lia).
  unfold x1x3_edges. edge_group Hw.
Qed.

Lemma x2x3_edges_ordered s :
  ordered_ids s ->
  ordered_ids (x2x3_edges FindBufferID pmy_mesh ranklist_ nslist_ blk s) /\
  st_bufid (x2x3_edges FindBufferID pmy_mesh ranklist_ nslist_ blk s)
  = st_bufid s + 4 * nf1 pmy_mesh blk.
Proof.
  assert (Hw : 1 <= nf1 pmy_mesh blk) by (destruct nf1_range; lia).
  unfold x2x3_edges. edge_group Hw.
Qed.

Lemma corners_ordered s :
  ordered_ids s ->
  ordered_ids (corners FindBufferID pmy_mesh ranklist_ nslist_ blk s) /\
  st_bufid (corners FindBufferID pmy_mesh ranklist_ nslist_ blk s)
  = st_bufid s + 8.
Proof.
  intros Hs. unfold corners.
  match goal with
  | |- ordered_ids (fold_left ?F sides ?S0) /\ _ =>
      destruct (fold_sides_ordered F 4 S0) as [Ha Hb]
  end.
  - intros s0 l Hs0.
    match goal with
    | |- ordered_ids (fold_left ?G sides s0) /\ _ =>
        destruct (fold_sides_ordered G 2 s0) as [Hc Hd]
    end.
    + intros s1 m Hs1.
      match goal with
      | |- ordered_ids (fold_left ?K sides s1) /\ _ =>
          destruct (fold_sides_ordered K 1 s1) as [He Hf]
      end.
      * intros s2 n Hs2. apply corner_dir_ordered. exact Hs2.
      * exact Hs1.
      * split; [exact He|]. rewrite Hf. lia.
    + exact Hs0.
    + split; [exact Hc|]. rewrite Hd. lia.
  - exact Hs.
  - split; [exact Ha|]. rewrite Hb. lia.
Qed.

Lemma search_init_ordered : ordered_ids (search_init blk).
Proof.
  unfold ordered_ids, ids, search_init; simpl.
  repeat split; try constructor; lia.
Qed.

(** The whole sweep keeps the ids ordered and ends with the counter at
    [nslots]. *)
Lemma search_ordered :
  ordered_ids (search FindBufferID pmy_mesh ranklist_ nslist_ blk) /\
  st_bufid (search FindBufferID pmy_mesh ranklist_ nslist_ blk)
  = nslots pmy_mesh blk.
Proof.
  unfold search, nslots.
  destruct (x1_faces_ordered _ search_init_ordered) as [A1 B1].
  simpl st_bufid in B1 at 2.
  destruct (nx2 (block_size blk) =? 1); [split; [exact A1|rewrite B1; lia]|].
  destruct (x2_faces_ordered _ A1) as [A2 B2].
  set (s3 := if 1 <? nx3 (block_size blk) then _ else _).
  assert (ordered_ids s3 /\
          st_bufid s3 = (if 1 <? nx3 (block_size blk)
                         then 0 + 2 * (nf1 pmy_mesh blk * nf2 pmy_mesh blk)
                                + 2 * (nf1 pmy_mesh blk * nf2 pmy_mesh blk)
                                + 2 * (nf1 pmy_mesh blk * nf2 pmy_mesh blk)
                         else 0 + 2 * (nf1 pmy_mesh blk * nf2 pmy_mesh blk)
                                + 2 * (nf1 pmy_mesh blk * nf2 pmy_mesh blk)))
    as [A3 B3].
  { subst s3. destruct (1 <? nx3 (block_size blk)).
    - destruct (x3_faces_ordered _ A2) as [A3 B3].
      split; [exact A3|]. rewrite B3, B2, B1. reflexivity.
    - split; [exact A2|]. rewrite B2, B1. reflexivity. }
  clearbody s3.
  destruct (face_only pmy_mesh).
  { split; [exact A3|]. rewrite B3. destruct (1 <? nx3 (block_size blk)); lia. }
  destruct (x1x2_edges_ordered _ A3) as [A4 B4].
  destruct (nx3 (block_size blk) =? 1).
  { split; [exact A4|]. rewrite B4, B3. destruct (1 <? nx3 (block_size blk)); lia. }
  destruct (x1x3_edges_ordered _ A4) as [A5 B5].
  destruct (x2x3_edges_ordered _ A5) as [A6 B6].
  destruct (corners_ordered _ A6) as [A7 B7].
  split; [exact A7|]. rewrite B7, B6, B5, B4, B3.
  destruct (1 <? nx3 (block_size blk)); lia.
Qed.

(** *** The dense case: no refinement, a neighbour in every direction *)

Hypothesis uniform : multilevel pmy_mesh = false.
Hypothesis everywhere : well_neighboured pmy_mesh blk.

Lemma nf1_uniform : nf1 pmy_mesh blk = 1.
Proof. unfold nf1. now rewrite uniform. Qed.

Lemma nf2_uniform : nf2 pmy_mesh blk = 1.
Proof. unfold nf2. now rewrite uniform. Qed.

Lemma dense_record_level s k j i v : dense_ids s -> dense_ids (record_level s k j i v).
Proof. intros H. exact H. Qed.

Lemma dense_push_advance s nb :
  NeighborBlock.bufid nb = st_bufid s ->
  dense_ids s -> dense_ids (advance (push s nb) 1).
Proof.
  intros Hid (Hi & Hn & H0). unfold dense_ids, ids in *; simpl.
  rewrite map_app, Hi, upto_succ by exact H0. simpl. rewrite Hid.
  repeat split; lia.
Qed.

Lemma fold_dense {A} (f : search_state -> A -> search_state) (l : list A) :
  (forall s a, dense_ids s -> dense_ids (f s a)) ->
  forall s, dense_ids s -> dense_ids (fold_left f l s).
Proof.
  intros Hf. induction l as [|a l IH]; intros s Hs; simpl; auto.
Qed.

Lemma push_finer_dense o1 o2 o3 ty tbid nf f1 f2 s :
  dense_ids s ->
  dense_ids (push_finer ranklist_ nslist_ o1 o2 o3 ty tbid nf f1 f2 s).
Proof.
  intros Hs. unfold push_finer.
  apply dense_push_advance; [apply SetNeighbor_bufid|exact Hs].
Qed.

Lemma face_dir_dense o1 o2 o3 leaf cf1 cf2 k j i n s :
  dense_ids s ->
  dense_ids (face_dir FindBufferID pmy_mesh ranklist_ nslist_ blk
                      o1 o2 o3 leaf cf1 cf2 k j i n s).
Proof.
  intros Hs. unfold face_dir. rewrite nf1_uniform, nf2_uniform.
  pose proof (everywhere o1 o2 o3) as Hn.
  destruct (find pmy_mesh blk o1 o2 o3) as [neibt|]; [|contradiction].
  destruct (flag neibt); simpl negb; cbv iota.
  - apply dense_push_advance; [apply SetNeighbor_bufid|exact Hs].
  - apply fold_dense; [|apply dense_record_level; exact Hs].
    intros s0 f2 Hs0. apply fold_dense; [|exact Hs0].
    intros s1 f1 Hs1. apply push_finer_dense. exact Hs1.
Qed.

Lemma edge_dir_dense o1 o2 o3 leaf cf1 mine k j i n m s :
  dense_ids s ->
  dense_ids (edge_dir FindBufferID pmy_mesh ranklist_ nslist_ blk
                      o1 o2 o3 leaf 1 cf1 mine k j i n m s).
Proof.
  intros Hs. unfold edge_dir.
  pose proof (everywhere o1 o2 o3) as Hn.
  destruct (find pmy_mesh blk o1 o2 o3) as [neibt|]; [|contradiction].
  destruct (flag neibt); simpl negb; cbv iota.
  - apply Z.leb_le in Hn. rewrite Hn. simpl orb. cbv iota.
    apply dense_push_advance; [apply SetNeighbor_bufid|exact Hs].
  - apply fold_dense; [|apply dense_record_level; exact Hs].
    intros s1 f1 Hs1. apply push_finer_dense. exact Hs1.
Qed.

Lemma corner_dir_dense n m l s :
  dense_ids s ->
  dense_ids (corner_dir FindBufferID pmy_mesh ranklist_ nslist_ blk n m l s).
Proof.
  intros Hs. unfold corner_dir.
  pose proof (everywhere n m l) as Hn.
  destruct (find pmy_mesh blk n m l) as [neibt|]; [|contradiction].
  destruct (flag neibt); simpl negb; cbv iota.
  - apply Z.leb_le in Hn. rewrite Hn. simpl orb. cbv iota.
    apply dense_push_advance; [apply SetNeighbor_bufid|exact Hs].
  - match goal with
    | |- context [GetLeaf neibt ?a ?b ?c] => specialize (Hn a b c)
    end.
    apply Z.leb_le in Hn. rewrite Hn. simpl orb. cbv iota.
    apply dense_push_advance; [apply SetNeighbor_bufid|exact Hs].
Qed.

Lemma search_dense :
  dense_ids (search FindBufferID pmy_mesh ranklist_ nslist_ blk).
Proof.
  assert (H0 : dense_ids (search_init blk)).
  { unfold dense_ids, ids, search_init; simpl. repeat split; lia. }
  assert (F1 : forall s, dense_ids s ->
             dense_ids (x1_faces FindBufferID pmy_mesh ranklist_ nslist_ blk s)).
  { intros s Hs. apply fold_dense; [|exact Hs].
    intros; now apply face_dir_dense. }
  assert (F2 : forall s, dense_ids s ->
             dense_ids (x2_faces FindBufferID pmy_mesh ranklist_ nslist_ blk s)).
  { intros s Hs. apply fold_dense; [|exact Hs].
    intros; now apply face_dir_dense. }
  assert (F3 : forall s, dense_ids s ->
             dense_ids (x3_faces FindBufferID pmy_mesh ranklist_ nslist_ blk s)).
  { intros s Hs. apply fold_dense; [|exact Hs].
    intros; now apply face_dir_dense. }
  assert (E1 : forall s, dense_ids s ->
             dense_ids (x1x2_edges FindBufferID pmy_mesh ranklist_ nslist_ blk s)).
  { intros s Hs. unfold x1x2_edges. rewrite nf2_uniform.
    apply fold_dense; [|exact Hs]. intros s0 m Hs0.
    apply fold_dense; [|exact Hs0]. intros; now apply edge_dir_dense. }
  assert (E2 : forall s, dense_ids s ->
             dense_ids (x1x3_edges FindBufferID pmy_mesh ranklist_ nslist_ blk s)).
  { intros s Hs. unfold x1x3_edges. rewrite nf1_uniform.
    apply fold_dense; [|exact Hs]. intros s0 m Hs0.
    apply fold_dense; [|exact Hs0]. intros; now apply edge_dir_dense. }
  assert (E3 : forall s, dense_ids s ->
             dense_ids (x2x3_edges FindBufferID pmy_mesh ranklist_ nslist_ blk s)).
  { intros s Hs. unfold x2x3_edges. rewrite nf1_uniform.
    apply fold_dense; [|exact Hs]. intros s0 m Hs0.
    apply fold_dense; [|exact Hs0]. intros; now apply edge_dir_dense. }
  assert (C : forall s, dense_ids s ->
             dense_ids (corners FindBufferID pmy_mesh ranklist_ nslist_ blk s)).
  { intros s Hs. unfold corners.
    apply fold_dense; [|exact Hs]. intros s0 l Hs0.
    apply fold_dense; [|exact Hs0]. intros s1 m Hs1.
    apply fold_dense; [|exact Hs1]. intros; now apply corner_dir_dense. }
  unfold search.
  destruct (nx2 (block_size blk) =? 1); [auto|].
  destruct (1 <? nx3 (block_size blk)), (face_only pmy_mesh), (nx3 (block_size blk) =? 1); auto 10.
Qed.

End SearchFacts.




(** ** The load balancer *)

Section BalancerFacts.

Import Balancer.

Lemma sweep_length cs : forall j t m g, length (sweep cs j t m g) = length cs.
Proof.
  induction cs as [|c cs IH]; intros j t m g; simpl; [reflexivity|].
  destruct (Qle_bool g (m + c) && (0 <? j)); simpl; now rewrite IH.
Qed.

Lemma sweep_cons c cs j t m g :
  sweep (c :: cs) j t m g =
  if Qle_bool g (m + c)%Q && (0 <? j)
  then j :: sweep cs (j - 1) (t - (m + c))%Q 0%Q
                  ((t - (m + c)) / inject_Z (j - 1 + 1))%Q
  else j :: sweep cs j t (m + c)%Q g.
Proof. reflexivity. Qed.

(** Once the rank has come down to 0 every remaining block goes to it. *)
Lemma sweep_rank0 cs : forall t m g, sweep cs 0 t m g = repeat 0 (length cs).
Proof.
  induction cs as [|c cs IH]; intros t m g; simpl; [reflexivity|].
  rewrite andb_false_r. now rewrite IH.
Qed.

Lemma totals_sum_gen clist : forall t mn mx,
  (fst (fst (fold_left (fun '(totalcost, mincost, maxcost) c =>
               ((totalcost + c)%Q, std_min mincost c, std_max maxcost c))
            clist (t, mn, mx))) == t + sum clist)%Q.
Proof.
  induction clist as [|c cl IH]; intros t mn mx; simpl.
  - lra.
  - rewrite IH. lra.
Qed.

Lemma totals_sum clist : (fst (fst (totals clist)) == sum clist)%Q.
Proof. unfold totals. rewrite totals_sum_gen. lra. Qed.

Lemma sum_app a b : (sum (a ++ b) == sum a + sum b)%Q.
Proof.
  induction a as [|x a IH]; simpl; [lra|]. rewrite IH. lra.
Qed.

Lemma sum_rev a : (sum (rev a) == sum a)%Q.
Proof.
  induction a as [|x a IH]; simpl; [lra|].
  rewrite sum_app, IH. simpl. lra.
Qed.

Lemma load_of_snoc r cl : forall rl c x, length cl = length rl ->
  (load_of r (cl ++ [c]) (rl ++ [x])
   == load_of r cl rl + (if x =? r then c else 0))%Q.
Proof.
  induction cl as [|c0 cl IH]; intros [|x0 rl] c x Hlen; simpl in *;
    try discriminate.
  - destruct (x =? r); lra.
  - injection Hlen as Hlen. pose proof (IH rl c x Hlen) as Hrec.
    destruct (x0 =? r); lra.
Qed.

Lemma load_of_rev r cl : forall rl, length cl = length rl ->
  (load_of r (rev cl) (rev rl) == load_of r cl rl)%Q.
Proof.
  induction cl as [|c cl IH]; intros [|x rl] Hlen; simpl in *;
    try discriminate; [lra|].
  injection Hlen as Hlen.
  assert (Hl : length (rev cl) = length (rev rl)) by (now rewrite !length_rev).
  pose proof (load_of_snoc r (rev cl) (rev rl) c x Hl) as Hsn.
  pose proof (IH rl Hlen) as Hrec.
  destruct (x =? r); lra.
Qed.

Lemma load_of_all0 cs : (load_of 0 cs (repeat 0%Z (length cs)) == sum cs)%Q.
Proof.
  induction cs as [|c cs IH]; simpl; [lra|]. rewrite IH. lra.
Qed.

(** *** Rank 0 carries at most the average *)

Lemma inject_Z_succ j : (inject_Z (j + 1) == inject_Z j + 1)%Q.
Proof. rewrite inject_Z_plus. reflexivity. Qed.

Lemma inject_Z_pos j : 0 < j -> (0 < inject_Z j)%Q.
Proof. intros H. change 0%Q with (inject_Z 0). now rewrite <- Zlt_Qlt. Qed.

(** The step that hands a rank its share leaves at most the old target
    per remaining rank. *)
Lemma target_decreases (total my : Q) (j : Z) :
  0 < j ->
  (total / inject_Z (j + 1) <= my)%Q ->
  ((total - my) / inject_Z (j - 1 + 1) <= total / inject_Z (j + 1))%Q.
Proof.
  intros Hj Hle.
  replace (j - 1 + 1) with j by lia.
  pose proof (inject_Z_pos j Hj) as HJ.
  assert (HJ1 : (0 < inject_Z (j + 1))%Q) by (apply inject_Z_pos; lia).
  set (t := (total / inject_Z (j + 1))%Q) in *.
  assert (Ht : (total == t * inject_Z (j + 1))%Q).
  { unfold t. field. intros H0. rewrite H0 in HJ1. now apply Qlt_irrefl in HJ1. }
  apply Qle_shift_div_r; [exact HJ|].
  rewrite inject_Z_succ in Ht. lra.
Qed.

Lemma sweep_rank0_load cs : forall j total my target B,
  0 <= j ->
  (target == total / inject_Z (j + 1))%Q ->
  (total == my + sum cs)%Q ->
  (j = 0 -> (my == 0)%Q) ->
  (0 <= B)%Q -> (total / inject_Z (j + 1) <= B)%Q ->
  (load_of 0 cs (sweep cs j total my target) <= B)%Q.
Proof.
  induction cs as [|c cs IH]; intros j total my target B Hj Ht Hs H0 HB Hle.
  - simpl. exact HB.
  - destruct (Z.eq_dec j 0) as [->|Hnz].
    + rewrite sweep_rank0, load_of_all0.
      specialize (H0 eq_refl). simpl in Hle.
      assert (total / inject_Z 1 == total)%Q by (field).
      simpl in H. lra.
    + simpl sweep.
      destruct (Qle_bool target (my + c)) eqn:E; simpl andb.
      * assert (Hjp : (0 <? j) = true) by (apply Z.ltb_lt; lia).
        rewrite Hjp. simpl load_of.
        assert (Hj0 : (j =? 0) = false) by (apply Z.eqb_neq; exact Hnz).
        rewrite Hj0.
        apply Qle_bool_iff in E. rewrite Ht in E.
        apply IH.
        -- lia.
        -- reflexivity.
        -- simpl in Hs. lra.
        -- intros _. reflexivity.
        -- exact HB.
        -- eapply Qle_trans; [apply target_decreases; [lia|exact E]|exact Hle].
      * simpl load_of.
        assert (Hj0 : (j =? 0) = false) by (apply Z.eqb_neq; exact Hnz).
        rewrite Hj0.
        apply IH; auto.
        -- simpl in Hs. lra.
        -- intros ->. contradiction.
Qed.

Lemma rlist_of_sweep nranks clist :
  rlist_of nranks clist =
  rev (sweep (rev clist) (nranks - 1) (fst (fst (totals clist))) 0%Q
             (fst (fst (totals clist)) / inject_Z nranks)%Q).
Proof.
  unfold rlist_of, LoadBalancing.
  destruct (totals clist) as [[totalcost mincost] maxcost]. simpl fst.
  destruct (match rev (sweep _ _ _ _ _) with [] => _ | r0 :: rest => _ end)
    as [[j sl] nl].
  reflexivity.
Qed.

Lemma rank0_load_bounded (nranks : Z) (clist : list Real) :
  0 < nranks -> (0 <= sum clist)%Q ->
  (load_of 0 clist (rlist_of nranks clist) <= sum clist / inject_Z nranks)%Q.
Proof.
  intros Hn Hpos. rewrite rlist_of_sweep.
  pose proof (totals_sum clist) as Htot.
  set (totalcost := fst (fst (totals clist))) in *.
  rewrite <- (rev_involutive clist) at 1.
  rewrite load_of_rev by (now rewrite sweep_length).
  assert (Hq : (sum clist / inject_Z nranks == totalcost / inject_Z nranks)%Q).
  { rewrite Htot. reflexivity. }
  rewrite Hq.
  assert (Hn1 : nranks = nranks - 1 + 1) by lia.
  rewrite Hn1 at 3.
  apply sweep_rank0_load.
  - lia.
  - rewrite <- Hn1. reflexivity.
  - rewrite sum_rev. lra.
  - intros _. reflexivity.
  - rewrite <- Hn1.
    apply Qle_shift_div_l; [apply inject_Z_pos; exact Hn|]. lra.
  - apply Qle_refl.
Qed.

(** *** Equal positive costs, block count a multiple of the rank count *)

Lemma nat_scale_S n c : (nat_scale (S n) c == nat_scale n c + c)%Q.
Proof.
  unfold nat_scale. rewrite Nat2Z.inj_succ. unfold Z.succ.
  rewrite inject_Z_plus. change (inject_Z 1) with 1%Q. ring.
Qed.

Lemma nat_scale_0 c : (nat_scale 0 c == 0)%Q.
Proof. unfold nat_scale. simpl. ring. Qed.

Lemma nat_scale_lt m k c : (0 < c)%Q -> (m < k)%nat ->
  (nat_scale m c < nat_scale k c)%Q.
Proof.
  intros Hc Hm. unfold nat_scale. apply Qmult_lt_r; [exact Hc|].
  rewrite <- Zlt_Qlt. lia.
Qed.

Lemma nat_scale_mul a b c :
  (nat_scale (a * b) c == inject_Z (Z.of_nat a) * nat_scale b c)%Q.
Proof.
  unfold nat_scale. rewrite Nat2Z.inj_mul, inject_Z_mult. ring.
Qed.

Lemma sum_uniform c l : Forall (fun x => x == c)%Q l ->
  (sum l == nat_scale (length l) c)%Q.
Proof.
  induction 1 as [|x l Hx _ IH]; simpl sum; simpl length.
  - rewrite nat_scale_0. reflexivity.
  - rewrite nat_scale_S, IH, Hx. ring.
Qed.

Lemma Qle_bool_false a b : (b < a)%Q -> Qle_bool a b = false.
Proof.
  intros H. destruct (Qle_bool a b) eqn:E; [|reflexivity].
  apply Qle_bool_iff in E. exfalso. apply (Qlt_not_le _ _ H E).
Qed.

Lemma Qle_bool_true a b : (a <= b)%Q -> Qle_bool a b = true.
Proof. apply Qle_bool_iff. Qed.

Section Uniform.

Variable c : Real.
Hypothesis cpos : (0 < c)%Q.
Variable k : nat.
Hypothesis kpos : (1 <= k)%nat.

Lemma sweep_uniform (j : nat) : forall (d m : nat) cs total my target,
  (m + d = k)%nat -> (1 <= d)%nat ->
  Forall (fun x => x == c)%Q cs ->
  length cs = (j * k + d)%nat ->
  (my == nat_scale m c)%Q ->
  (target == nat_scale k c)%Q ->
  (total == inject_Z (Z.of_nat (S j)) * nat_scale k c)%Q ->
  sweep cs (Z.of_nat j) total my target = repeat (Z.of_nat j) d ++ ranks_down j k.
Proof.
  induction j as [|j IHj].
  - intros d m cs total my target _ _ _ Hlen _ _ _.
    rewrite sweep_rank0. simpl in Hlen. subst d. simpl.
    now rewrite app_nil_r.
  - induction d as [|d IHd]; intros m cs total my target Hmd Hd Hall Hlen Hmy Htg Htot;
      [lia|].
    destruct cs as [|c' cs]; [simpl in Hlen; lia|].
    apply Forall_cons_iff in Hall as [Hc' Hall'].
    assert (Hlen' : length cs = (k + j * k + d)%nat) by (simpl in Hlen; lia).
    assert (Hmy' : (my + c' == nat_scale (S m) c)%Q).
    { rewrite nat_scale_S, Hmy, Hc'. reflexivity. }
    rewrite sweep_cons. destruct d as [|d].
    + (* the rank has its k blocks *)
      assert (Hk : S m = k) by lia.
      rewrite Hk in Hmy'.
      rewrite Qle_bool_true by (rewrite Htg, Hmy'; apply Qle_refl).
      assert (Hjp : (0 <? Z.of_nat (S j)) = true) by (apply Z.ltb_lt; lia).
      rewrite Hjp. simpl andb. cbv iota.
      replace (Z.of_nat (S j) - 1) with (Z.of_nat j) by lia.
      simpl repeat. simpl ranks_down. simpl app. f_equal.
      apply (IHj k 0%nat).
      * lia.
      * exact kpos.
      * exact Hall'.
      * lia.
      * rewrite nat_scale_0. reflexivity.
      * rewrite Htot, Hmy'.
        replace (Z.of_nat j + 1) with (Z.of_nat (S j)) by lia.
        rewrite (Nat2Z.inj_succ (S j)). unfold Z.succ. rewrite inject_Z_plus.
        change (inject_Z 1) with 1%Q.
        field. intros H0.
        assert (0 < inject_Z (Z.of_nat (S j)))%Q by (apply inject_Z_pos; lia).
        rewrite H0 in H. now apply Qlt_irrefl in H.
      * rewrite Htot, Hmy'.
        rewrite (Nat2Z.inj_succ (S j)). unfold Z.succ. rewrite inject_Z_plus.
        change (inject_Z 1) with 1%Q. ring.
    + (* still short of the target *)
      rewrite Qle_bool_false
        by (rewrite Htg, Hmy'; apply nat_scale_lt; [exact cpos|lia]).
      simpl andb. cbv iota. simpl repeat. simpl app. f_equal.
      apply (IHd (S m)); auto; lia.
Qed.

End Uniform.

Lemma filter_length_rev (f : Z -> bool) l :
  length (filter f (rev l)) = length (filter f l).
Proof.
  induction l as [|x l IH]; simpl; [reflexivity|].
  rewrite filter_app, length_app, IH. simpl.
  destruct (f x); simpl; lia.
Qed.

Lemma blocks_of_rev r l : blocks_of r (rev l) = blocks_of r l.
Proof. unfold blocks_of. now rewrite filter_length_rev. Qed.

Lemma blocks_of_app r a b : blocks_of r (a ++ b) = blocks_of r a + blocks_of r b.
Proof. unfold blocks_of. rewrite filter_app, length_app. lia. Qed.

Lemma blocks_of_repeat r x n :
  blocks_of r (repeat x n) = if r =? x then Z.of_nat n else 0.
Proof.
  unfold blocks_of. induction n as [|n IH]; simpl.
  - now destruct (r =? x).
  - destruct (r =? x) eqn:E; simpl; lia.
Qed.

Lemma blocks_of_ranks_down r j k : 0 <= r ->
  blocks_of r (ranks_down j k) = if r <? Z.of_nat j then Z.of_nat k else 0.
Proof.
  intros Hr. induction j as [|j IH].
  - simpl. destruct (r <? 0) eqn:E; [apply Z.ltb_lt in E; lia|reflexivity].
  - simpl ranks_down. rewrite blocks_of_app, blocks_of_repeat, IH.
    destruct (Z.eqb_spec r (Z.of_nat j)), (Z.ltb_spec r (Z.of_nat j)),
             (Z.ltb_spec r (Z.of_nat (S j))); lia.
Qed.

(** With [n] ranks and [n*k] equal positive costs the sweep writes
    [k] times each rank. *)
Lemma uniform_rlist (n k : nat) (c : Real) (clist : list Real) :
  (1 <= n)%nat -> (1 <= k)%nat -> (0 < c)%Q ->
  Forall (fun x => x == c)%Q clist -> length clist = (n * k)%nat ->
  rlist_of (Z.of_nat n) clist = rev (ranks_down n k).
Proof.
  intros Hn Hk Hc Hall Hlen. rewrite rlist_of_sweep.
  destruct n as [|j]; [lia|].
  replace (Z.of_nat (S j) - 1) with (Z.of_nat j) by lia.
  pose proof (totals_sum clist) as Htot.
  set (totalcost := fst (fst (totals clist))) in *.
  assert (Ht : (totalcost == inject_Z (Z.of_nat (S j)) * nat_scale k c)%Q).
  { rewrite Htot, (sum_uniform c) by exact Hall.
    rewrite Hlen. apply nat_scale_mul. }
  f_equal.
  rewrite (sweep_uniform c Hc k Hk j k 0%nat); try lia.
  - reflexivity.
  - apply Forall_rev. exact Hall.
  - rewrite length_rev, Hlen. simpl. lia.
  - rewrite nat_scale_0. reflexivity.
  - rewrite Ht. field. intros H0.
    assert (0 < inject_Z (Z.of_nat (S j)))%Q by (apply inject_Z_pos; lia).
    rewrite H0 in H. now apply Qlt_irrefl in H.
  - exact Ht.
Qed.

Lemma uniform_even_split (nranks : Z) (c : Real) (clist : list Real) :
  0 < nranks -> (0 < c)%Q -> Forall (fun x => x == c)%Q clist ->
  Z.of_nat (length clist) mod nranks = 0 ->
  forall r, 0 <= r < nranks ->
    blocks_of r (rlist_of nranks clist) = Z.of_nat (length clist) / nranks.
Proof.
  intros Hn Hc Hall Hmod r Hr.
  set (nb := Z.of_nat (length clist)) in *.
  assert (Hnb : nb = nranks * (nb / nranks)).
  { rewrite (Z.div_mod nb nranks) at 1 by lia. rewrite Hmod. lia. }
  assert (Hq : 0 <= nb / nranks) by (apply Z.div_pos; lia).
  destruct (Z.eq_dec (nb / nranks) 0) as [Hz|Hz].
  - rewrite Hz in *. assert (nb = 0) by lia.
    assert (clist = []) by (destruct clist; [reflexivity|simpl in *; lia]).
    subst clist. rewrite rlist_of_sweep. reflexivity.
  - rewrite <- (Z2Nat.id nranks) at 1 by lia.
    rewrite (uniform_rlist (Z.to_nat nranks) (Z.to_nat (nb / nranks)) c); try lia;
      auto.
    rewrite blocks_of_rev, blocks_of_ranks_down by lia.
    rewrite !Z2Nat.id by lia.
    destruct (Z.ltb_spec r nranks); lia.
Qed.

(** *** Start indices and counts for equal shares *)

Lemma store_length a : forall i v, length (store a i v) = length a.
Proof.
  induction a as [|x a IH]; intros [|i] v; simpl; auto.
Qed.

Lemma firstn_store_ge a : forall i m v, (m <= i)%nat ->
  firstn m (store a i v) = firstn m a.
Proof.
  induction a as [|x a IH]; intros [|i] [|m] v H; simpl; auto; try lia.
  f_equal. apply IH. lia.
Qed.

Lemma firstn_store_snoc a : forall i v, (i < length a)%nat ->
  firstn (S i) (store a i v) = firstn i a ++ [v].
Proof.
  induction a as [|x a IH]; intros [|i] v H; simpl in *; try lia.
  - reflexivity.
  - f_equal. apply IH. lia.
Qed.

Lemma starts_prefix_S k m :
  starts_prefix k (S m) = starts_prefix k m ++ [Z.of_nat m * Z.of_nat k].
Proof. unfold starts_prefix. now rewrite seq_S, map_app. Qed.

Lemma starts_prefix_nth k m r : (r < m)%nat ->
  nth r (starts_prefix k m) 0 = Z.of_nat r * Z.of_nat k.
Proof.
  intros H. unfold starts_prefix.
  change 0 with ((fun t => Z.of_nat t * Z.of_nat k) 0%nat).
  rewrite map_nth, seq_nth by exact H. reflexivity.
Qed.

Lemma nth_of_prefix (a p : list Z) m r : firstn m a = p -> (r < m)%nat ->
  nth r a 0 = nth r p 0.
Proof.
  intros <- H. rewrite nth_firstn.
  destruct (Nat.ltb_spec r m); [reflexivity|lia].
Qed.

Lemma ranks_from_snoc k : forall q r,
  ranks_from r (S q) k = ranks_from r q k ++ repeat (Z.of_nat (r + q)) k.
Proof.
  induction q as [|q IH]; intros r.
  - simpl. now rewrite app_nil_r, Nat.add_0_r.
  - change (ranks_from r (S (S q)) k)
      with (repeat (Z.of_nat r) k ++ ranks_from (S r) (S q) k).
    rewrite IH. simpl ranks_from. rewrite <- app_assoc.
    now replace (S r + q)%nat with (r + S q)%nat by lia.
Qed.

Lemma rev_ranks_down n k : rev (ranks_down n k) = ranks_from 0 n k.
Proof.
  induction n as [|n IH].
  - reflexivity.
  - simpl ranks_down. rewrite rev_app_distr, rev_repeat, IH.
    now rewrite ranks_from_snoc.
Qed.

Lemma repeat_snoc (x : Z) n : repeat x n ++ [x] = repeat x (S n).
Proof.
  change [x] with (repeat x 1). rewrite <- repeat_app. f_equal. lia.
Qed.

Lemma starts_cons prev r rest i j sl nl :
  starts prev (r :: rest) i j sl nl =
  if negb (r =? prev)
  then starts r rest (i + 1) (S j) (store sl (S j) i) (store nl j (i - nth j sl 0))
  else starts r rest (i + 1) j sl nl.
Proof. reflexivity. Qed.

Section Starts.

Variable k : nat.
Hypothesis kpos : (1 <= k)%nat.

Lemma starts_runs (q : nat) : forall (a r : nat) (i : Z) slist nlist,
  length slist = (S r + q)%nat -> length nlist = (S r + q)%nat ->
  (a <= k)%nat -> i = Z.of_nat r * Z.of_nat k + (Z.of_nat k - Z.of_nat a) ->
  firstn (S r) slist = starts_prefix k (S r) ->
  firstn r nlist = repeat (Z.of_nat k) r ->
  exists slist' nlist',
    starts (Z.of_nat r) (repeat (Z.of_nat r) a ++ ranks_from (S r) q k)
           i r slist nlist = ((r + q)%nat, slist', nlist') /\
    slist' = starts_prefix k (S r + q) /\
    length nlist' = (S r + q)%nat /\
    firstn (r + q) nlist' = repeat (Z.of_nat k) (r + q).
Proof.
  induction q as [|q IHq].
  - induction a as [|a IHa]; intros r i slist nlist Hls Hln Ha Hi Hs Hn.
    + simpl. exists slist, nlist. rewrite !Nat.add_0_r in *.
      repeat split; auto.
      rewrite <- Hs. symmetry. apply firstn_all2. lia.
    + cbn [repeat app]. rewrite starts_cons, Z.eqb_refl. cbn [negb].
      apply IHa; auto; lia.
  - induction a as [|a IHa]; intros r i slist nlist Hls Hln Ha Hi Hs Hn.
    + cbn [repeat app ranks_from].
      destruct k as [|k']; [lia|]. cbn [repeat app]. rewrite starts_cons.
      assert (Hne : (Z.of_nat (S r) =? Z.of_nat r) = false)
        by (apply Z.eqb_neq; lia).
      rewrite Hne. cbn [negb].
      assert (Hnth : nth r slist 0 = Z.of_nat r * Z.of_nat (S k')).
      { rewrite (nth_of_prefix slist _ (S r) r Hs) by lia.
        apply starts_prefix_nth. lia. }
      rewrite Hnth.
      destruct (IHq k' (S r) (i + 1) (store slist (S r) i)
                    (store nlist r (i - Z.of_nat r * Z.of_nat (S k'))))
        as (sl & nl & He & Hsl & Hnl & Hnk).
      * rewrite store_length. lia.
      * rewrite store_length. lia.
      * lia.
      * subst i. rewrite !Nat2Z.inj_succ. nia.
      * rewrite firstn_store_snoc by lia.
        rewrite Hs, (starts_prefix_S (S k') (S r)).
        f_equal. f_equal. subst i. rewrite !Nat2Z.inj_succ. nia.
      * rewrite firstn_store_snoc by lia. rewrite Hn.
        replace (i - Z.of_nat r * Z.of_nat (S k')) with (Z.of_nat (S k')) by lia.
        apply repeat_snoc.
      * exists sl, nl.
        replace (r + S q)%nat with (S r + q)%nat by lia.
        replace (S r + S q)%nat with (S (S r) + q)%nat by lia.
        repeat split; auto.
    + cbn [repeat app]. rewrite starts_cons, Z.eqb_refl. cbn [negb].
      apply IHa; auto; lia.
Qed.

End Starts.

(** The three arrays for [n] ranks and [n*k] equal positive costs: rank
    [r] owns the [k] blocks from [r*k] on. *)
Lemma uniform_arrays (n k : nat) (c : Real) (clist : list Real) (slist nlist : list Z) :
  (1 <= n)%nat -> (1 <= k)%nat -> (0 < c)%Q ->
  Forall (fun x => x == c)%Q clist -> length clist = (n * k)%nat ->
  length slist = n -> length nlist = n ->
  LoadBalancing (Z.of_nat n) clist slist nlist =
  (ranks_from 0 n k, starts_prefix k n, repeat (Z.of_nat k) n).
Proof.
  intros Hn Hk Hc Hall Hlen Hls Hln.
  pose proof (uniform_rlist n k c clist Hn Hk Hc Hall Hlen) as Hr.
  rewrite rlist_of_sweep, rev_ranks_down in Hr.
  unfold LoadBalancing.
  destruct (totals clist) as [[totalcost mincost] maxcost]. simpl fst in Hr.
  rewrite Hr.
  destruct n as [|n']; [lia|]. destruct k as [|k']; [lia|].
  simpl ranks_from at 1. simpl repeat at 1. simpl app at 1. cbv iota.
  destruct (starts_runs (S k') Hk n' k' 0%nat 1 (store slist 0 0) nlist)
    as (sl & nl & He & Hsl & Hnl & Hnk).
  - rewrite store_length. lia.
  - lia.
  - lia.
  - lia.
  - rewrite firstn_store_snoc by lia. reflexivity.
  - reflexivity.
  - change (Z.of_nat 0) with 0 in He. rewrite He. simpl Nat.add in *.
    f_equal; [f_equal; exact Hsl|].
    rewrite Hsl, starts_prefix_nth by lia. rewrite Hlen.
    replace (Z.of_nat (S n' * S k') - Z.of_nat n' * Z.of_nat (S k'))
      with (Z.of_nat (S k')) by lia.
    rewrite <- (firstn_all (store nl n' (Z.of_nat (S k')))).
    rewrite store_length, Hnl, firstn_store_snoc by lia.
    rewrite Hnk. apply repeat_snoc.
Qed.

End BalancerFacts.




(** ** The refinement cycle *)

Section CycleFacts.

Import Refinement.

Variable FindBufferID : Z -> Z -> Z -> Z -> Z -> Z -> Z.
Variable Greater : LogicalLocation -> LogicalLocation -> bool.

Lemma upto_pos n : 0 < n -> exists ns, Neighbors.upto n = 0 :: ns.
Proof.
  intros Hn. unfold Neighbors.upto.
  destruct (Z.to_nat n) as [|k] eqn:E; [lia|].
  simpl. eexists. reflexivity.
Qed.

(** With nothing to refine and between one and [minbl] blocks flagged for
    derefinement the cycle does not return early: [lderef] was never
    allocated and the candidate loop reads [lderef[0]]. *)
Lemma MeshRefinement_reads_unallocated before after m :
  let all := before ++ [pblock m] ++ after in
  fold_left Z.add (map (count_flag 1) all) 0 = 0 ->
  0 < fold_left Z.add (map (count_flag (-1)) all) 0 <= minbl_of (mesh_size m) ->
  MeshRefinement FindBufferID Greater before after m = Fault.
Proof.
  intros all Href Hde. unfold MeshRefinement. fold all.
  rewrite Href. simpl andb.
  destruct (Z.eqb_spec (fold_left Z.add (map (count_flag (-1)) all) 0) 0) as [E|E];
    [lia|].
  destruct (Z.ltb_spec (minbl_of (mesh_size m))
                       (fold_left Z.add (map (count_flag (-1)) all) 0)); [lia|].
  destruct (upto_pos _ (proj1 Hde)) as [ns ->]. reflexivity.
Qed.

(** The closing loop only ever touches the first block. *)
Lemma reinitialize_rest m : forall pmb first rest ev,
  exists first' ev',
    reinitialize FindBufferID m pmb (first :: rest) ev = (first' :: rest, ev').
Proof.
  induction pmb as [|b pmb IH]; intros first rest ev; simpl.
  - eauto.
  - apply IH.
Qed.

Lemma MeshRefinement_rest_untouched before after m m' rep :
  MeshRefinement FindBufferID Greater before after m = Done (m', rep) ->
  tl (pblock m') = tl (pblock m).
Proof.
  unfold MeshRefinement.
  destruct (_ && _); [intros H; injection H as <- _; reflexivity|].
  destruct (collect_derefined _ _ _ _ _ _) as [cl|]; simpl; [|discriminate].
  destruct (pblock m) as [|first rest] eqn:Hb.
  - simpl. intros H. injection H as <- _. simpl. reflexivity.
  - destruct (reinitialize_rest m (first :: rest) first rest []) as (f' & ev' & ->).
    intros H. injection H as <- _. reflexivity.
Qed.

(** *** The candidate filter *)

Lemma read_in ld i x : read (Some ld) i = Done x -> In x ld.
Proof.
  unfold read. destruct (i <? 0); [discriminate|].
  destruct (nth_error ld (Z.to_nat i)) eqn:E; [|discriminate].
  intros H. injection H as <-. eapply nth_error_In. exact E.
Qed.

Lemma count_siblings_bound ld base : forall offs r rr rr',
  count_siblings ld base offs r rr = Done rr' ->
  rr' <= rr + Z.of_nat (length offs) /\
  (rr' = rr + Z.of_nat (length offs) ->
   forall o, In o offs ->
     exists x, is_sibling base o x = true /\
               match ld with Some l => In x l | None => False end).
Proof.
  induction offs as [|o offs IH]; intros r rr rr' H; simpl in H.
  - injection H as <-. simpl. split; [lia|]. intros _ o [].
  - destruct (read ld r) as [x|] eqn:Er; simpl in H; [|discriminate].
    apply IH in H. destruct H as [Hle Hall]. simpl length.
    destruct (is_sibling base o x) eqn:Es.
    + split; [lia|]. intros Heq o' [<-|Hin].
      * exists x. split; [exact Es|].
        destruct ld as [l|]; [eapply read_in; exact Er|discriminate].
      * apply Hall; [lia|exact Hin].
    + split; [lia|]. intros Heq. lia.
Qed.

Lemma aligned_double x : Z.land x 1 = 0 -> 2 * Z.shiftr x 1 = x.
Proof.
  intros H. change 1 with (Z.ones 1) in H. rewrite Z.land_ones in H by lia.
  rewrite Z.shiftr_div_pow2 by lia. change (2 ^ 1) with 2 in *.
  pose proof (Z.div_mod x 2). lia.
Qed.

Lemma aligned_spec l :
  aligned l = true <->
  Z.land (lx1 l) 1 = 0 /\ Z.land (lx2 l) 1 = 0 /\ Z.land (lx3 l) 1 = 0.
Proof. unfold aligned. rewrite !andb_true_iff, !Z.eqb_eq. tauto. Qed.

Lemma is_sibling_spec base i j k x :
  is_sibling base (i, j, k) x = true <->
  lx1 base + i = lx1 x /\ lx2 base + j = lx2 x /\ lx3 base + k = lx3 x /\
  level base = level x.
Proof. unfold is_sibling. rewrite !andb_true_iff, !Z.eqb_eq. tauto. Qed.

Lemma children_of_sibling_group base ke je (ld : list LogicalLocation) :
  aligned base = true ->
  (forall o, In o (offsets ke je) ->
     exists x, is_sibling base o x = true /\ In x ld) ->
  forall c, In c (children ke je (parent_of base)) -> In c ld.
Proof.
  intros Ha Hall c Hc. unfold children in Hc. apply in_map_iff in Hc.
  destruct Hc as (o & <- & Hin). destruct (Hall o Hin) as (x & Hs & Hx).
  destruct o as [[i j] k].
  apply aligned_spec in Ha. destruct Ha as (A1 & A2 & A3).
  apply is_sibling_spec in Hs. destruct Hs as (S1 & S2 & S3 & S4).
  destruct x as [a b c lv]. unfold parent_of. cbn [lx1 lx2 lx3 level] in *.
  rewrite !aligned_double by assumption.
  replace (lx1 base + i) with a by lia. replace (lx2 base + j) with b by lia.
  replace (lx3 base + k) with c by lia. replace (level base - 1 + 1) with lv by lia.
  exact Hx.
Qed.

Lemma collect_derefined_cons ld minbl ke je n ns acc :
  collect_derefined ld minbl ke je (n :: ns) acc =
  obind (read ld n) (fun x =>
    if aligned x then
      obind (count_siblings ld x (offsets ke je) (n + 1) 0) (fun rr =>
        collect_derefined ld minbl ke je ns
          (if rr =? minbl then acc ++ [parent_of x] else acc))
    else collect_derefined ld minbl ke je ns acc).
Proof. reflexivity. Qed.

(** A parent enters [clderef] only when every one of its children is in
    the gathered list [lderef]. *)
Lemma collect_derefined_full_groups (ld : list LogicalLocation) minbl ke je :
  minbl = Z.of_nat (length (offsets ke je)) ->
  forall ns acc cl,
    collect_derefined (Some ld) minbl ke je ns acc = Done cl ->
    forall p, In p cl ->
      In p acc \/ (forall c, In c (children ke je p) -> In c ld).
Proof.
  intros Hm. induction ns as [|n ns IH]; intros acc cl H p Hp.
  - simpl in H. injection H as <-. left. exact Hp.
  - rewrite collect_derefined_cons in H.
    destruct (read (Some ld) n) as [x|] eqn:Er; cbn [obind] in H; [|discriminate].
    destruct (aligned x) eqn:Ea.
    + destruct (count_siblings (Some ld) x (offsets ke je) (n + 1) 0) as [rr|] eqn:Ec;
        cbn [obind] in H; [|discriminate].
      destruct (IH _ _ H p Hp) as [Hacc|Hfull]; [|right; exact Hfull].
      destruct (Z.eqb_spec rr minbl) as [Heq|Hne]; [|left; exact Hacc].
      apply in_app_or in Hacc. destruct Hacc as [Hacc|[<-|[]]]; [left; exact Hacc|].
      right. apply children_of_sibling_group; [exact Ea|].
      apply count_siblings_bound in Ec. destruct Ec as [_ Hall].
      apply Hall. lia.
    + apply (IH _ _ H p Hp).
Qed.

(** *** The sort of the accepted parents *)

Lemma skipn_last (l : list LogicalLocation) d : l <> [] ->
  skipn (length l - 1) l = [last l d].
Proof.
  induction l as [|x l IH]; intros Hne; [congruence|].
  destruct l as [|y l].
  - reflexivity.
  - change (last (x :: y :: l) d) with (last (y :: l) d).
    rewrite <- IH by discriminate.
    cbn [length]. rewrite !Nat.sub_succ, !Nat.sub_0_r. reflexivity.
Qed.

(** Whatever the comparator, the sort never moves the last element. *)
Lemma sort_clderef_keeps_last (l : list LogicalLocation) d :
  last (sort_clderef Greater l) d = last l d.
Proof.
  unfold sort_clderef.
  destruct (Z.ltb_spec 1 (Z.of_nat (length l))) as [H|H]; [|reflexivity].
  replace (Z.to_nat (Z.of_nat (length l) - 1)) with (length l - 1)%nat by lia.
  rewrite (skipn_last l d) by (destruct l; [simpl in H; lia|discriminate]).
  apply last_last.
Qed.

End CycleFacts.

(** C2. Failing input: the 1D mesh in which one block asks to be
    derefined and none to be refined. One flagged block is not more than
    [minbl = 2], so the claim asks for a no-op; the code passes its
    early return (taken only when both counts are 0), left [lderef]
    unallocated, and reads [lderef[0]]. *)
Theorem MeshRefinement_one_derefine_flag :
  Refinement.count_flag 1 (pblock Examples.derefine_one_1d) = 0 /\
  Refinement.count_flag (-1) (pblock Examples.derefine_one_1d) = 1 /\
  Refinement.minbl_of (mesh_size Examples.derefine_one_1d) = 2 /\
  Refinement.MeshRefinement Examples.FindBufferID_1d Examples.Greater_by_level
    [] [] Examples.derefine_one_1d = Fault.
Proof. repeat split. Qed.

(** C4. Failing input: four siblings in 2D of which exactly one is
    flagged for derefinement. The claim asks for a silent rejection; with
    one flagged block [tnderef = 1 <= minbl = 4], [lderef] is unallocated
    and the candidate loop reads it. *)
Theorem MeshRefinement_one_of_four_siblings :
  map refine_flag_ (pblock Examples.one_of_four) = [0; 0; -1; 0] /\
  Refinement.minbl_of (mesh_size Examples.one_of_four) = 4 /\
  Refinement.MeshRefinement Examples.FindBufferID_1d Examples.Greater_by_level
    [] [] Examples.one_of_four = Fault.
Proof. repeat split. Qed.


(** C9. Failing input: the periodic 1D mesh of two blocks in which the
    second asks to be refined. The closing loop runs twice and both times
    searches the first block: the second block keeps its stale (here
    empty) neighbour table, although a search would give it two
    neighbours. [Initialize(2)] follows. *)
Theorem MeshRefinement_searches_first_block_only :
  exists m' rep,
    Refinement.MeshRefinement Examples.FindBufferID_1d Examples.Greater_by_level
      [] [] Examples.refine_second_1d = Done (m', rep) /\
    Refinement.events rep =
      [Refinement.EvSearchAndSetNeighbors 0; Refinement.EvSearchAndSetNeighbors 0;
       Refinement.EvInitialize 2] /\
    map nneighbor (pblock m') = [2; 0] /\
    nneighbor (Neighbors.SearchAndSetNeighbors Examples.FindBufferID_1d
                 Examples.refine_second_1d [0; 0] [0]
                 (Examples.block1d 1 1 1 [4; 4; 0; 0; 0; 0])) = 2.
Proof.
  eexists. eexists. split; [reflexivity|]. repeat split.
Qed.

(** ** Validation of the CFL number *)


Lemma check_cfl_number_spec cfl n2 :
  Construct.check_cfl_number cfl n2 =
  if Qltb 1 cfl && (n2 =? 1) then Throw Construct.msg_cfl_1d
  else if Qltb (1 # 2) cfl && (1 <? n2) then Throw Construct.msg_cfl_2d3d
  else Ok tt.
Proof.
  unfold Construct.check_cfl_number, Construct.throw_if.
  destruct (Qltb 1 cfl && (n2 =? 1)); simpl; [reflexivity|].
  destruct (Qltb (1 # 2) cfl && (1 <? n2)); reflexivity.
Qed.

Lemma bind_failed {A B} (r : result A) (k : A -> result B) :
  failed r -> failed (bind r k).
Proof. intros [msg ->]. exists msg. reflexivity. Qed.

Lemma bind_ok_or_failed {A B} (r : result A) (k : A -> result B) :
  (forall a, failed (k a)) -> failed (bind r k).
Proof.
  intros H. destruct r as [a|msg]; simpl; [apply H|exists msg; reflexivity].
Qed.

(** C7. An input with [nx2 = 1] and a CFL number above 1, or with
    [nx2 > 1] and a CFL number above 0.5, makes the constructor throw,
    whatever the rest of the input and of the constructor; in every other
    case the CFL check lets the input through. In the 1D scenario a CFL
    number of 0.8 passes all the checks and 1.1 is refused with the 1D
    message. *)
Theorem Mesh_cfl_number_checked :
  (forall A (rest : ParameterInput -> RegionSize * Z -> result A) pin,
     (pin_nx2 pin = 1 /\ (1 < pin_cfl_number pin)%Q) \/
     (1 < pin_nx2 pin /\ ((1 # 2) < pin_cfl_number pin)%Q) ->
     failed (Construct.Mesh_ctor rest pin)) /\
  (forall cfl n2,
     ~ (n2 = 1 /\ (1 < cfl)%Q) -> ~ (1 < n2 /\ ((1 # 2) < cfl)%Q) ->
     Construct.check_cfl_number cfl n2 = Ok tt) /\
  (exists v, Construct.Mesh_checks (Examples.pin_1d (8 # 10)) = Ok v) /\
  Construct.Mesh_checks (Examples.pin_1d (11 # 10)) = Throw Construct.msg_cfl_1d.
Proof.
  split; [|split; [|split]].
  - intros A rest pin Hbad. unfold Construct.Mesh_ctor.
    apply bind_failed. unfold Construct.Mesh_checks.
    do 5 (apply bind_ok_or_failed; intros _).
    apply bind_failed. rewrite check_cfl_number_spec.
    destruct Hbad as [[H2 Hc]|[H2 Hc]].
    + apply Qltb_lt in Hc. rewrite Hc, H2. simpl. eexists; reflexivity.
    + apply Qltb_lt in Hc. rewrite Hc.
      assert (E : (1 <? pin_nx2 pin) = true) by (apply Z.ltb_lt; exact H2).
      rewrite E. simpl.
      destruct (Qltb 1 (pin_cfl_number pin) && (pin_nx2 pin =? 1));
        eexists; reflexivity.
  - intros cfl n2 H1 H2. rewrite check_cfl_number_spec.
    destruct (Qltb 1 cfl && (n2 =? 1)) eqn:E1.
    + apply andb_true_iff in E1. destruct E1 as [Ec En].
      apply Qltb_lt in Ec. apply Z.eqb_eq in En. tauto.
    + destruct (Qltb (1 # 2) cfl && (1 <? n2)) eqn:E2; [|reflexivity].
      apply andb_true_iff in E2. destruct E2 as [Ec En].
      apply Qltb_lt in Ec. apply Z.ltb_lt in En. tauto.
  - eexists. reflexivity.
  - reflexivity.
Qed.

(** The theorem at the 1D input with CFL number 1.1, continued by a
    constructor that would otherwise succeed. *)
Lemma Mesh_cfl_number_checked_witness :
  failed (Construct.Mesh_ctor (fun _ v => Ok v) (Examples.pin_1d (11 # 10))) /\
  Construct.check_cfl_number (8 # 10) 1 = Ok tt.
Proof.
  destruct Mesh_cfl_number_checked as (Hbad & Hgood & _).
  split.
  - apply Hbad. left. split; reflexivity.
  - apply Hgood.
    + intros [_ H]. vm_compute in H. discriminate.
    + intros [H _]. lia.
Defined.

(** ** Construction from a restart file *)

Section RestartFacts.

Import Restart.

Variable F : Type.
Variable io : IOWrapper F.
Variable ext : Collaborators.

Lemma triple_ret {A} (P : st F -> Prop) (a : A) (Q : A -> st F -> Prop) :
  (forall s, P s -> Q a s) -> triple P (ret a) Q.
Proof. intros H s Hs. simpl. auto. Qed.

Lemma triple_throw {A} (P : st F -> Prop) msg (Q : A -> st F -> Prop) :
  triple P (throw msg) Q.
Proof. intros s Hs. exact I. Qed.

Lemma triple_bind {A B} (P : st F -> Prop) (c : IO F A) (Q : A -> st F -> Prop)
    (k : A -> IO F B) (R : B -> st F -> Prop) :
  triple P c Q -> (forall a, triple (Q a) (k a) R) -> triple P (iobind c k) R.
Proof.
  intros Hc Hk s Hs. unfold iobind. specialize (Hc s Hs).
  destruct (c s) as [[a|msg] s']; [apply (Hk a s' Hc)|exact I].
Qed.

Lemma triple_pre {A} (P P' : st F -> Prop) (c : IO F A) Q :
  (forall s, P' s -> P s) -> triple P c Q -> triple P' c Q.
Proof. intros H Hc s Hs. apply Hc. auto. Qed.

Lemma triple_lift {A} (P : st F -> Prop) (r : result A) :
  triple P (lift r) (fun _ s => P s).
Proof. intros s Hs. unfold lift. destruct r; auto. Qed.

Lemma triple_throw_if (P : st F -> Prop) cond msg :
  triple P (throw_if F cond msg) (fun _ s => P s).
Proof. intros s Hs. unfold throw_if. destruct cond; simpl; auto. Qed.

Lemma clean_tallied (s : st F) : is_clean s -> tallied 0 s.
Proof. intros H. split; [lia|left; exact H]. Qed.

Lemma triple_counted {V} (rd : F -> F * (Z * V)) asked nerr :
  triple (tallied nerr) (counted F rd asked nerr) (fun r s => tallied (fst r) s).
Proof.
  intros s [H0 Hs]. unfold counted.
  destruct (rd (file s)) as [f [got v]]. simpl.
  destruct (Z.eqb_spec got asked) as [->|Hne].
  - split; [exact H0|]. destruct Hs as [Hc|Hp]; [left|right; exact Hp].
    apply Forall_app. split; [exact Hc|]. repeat constructor.
  - split; [lia|right; lia].
Qed.

Lemma triple_broken_if nerr msg :
  triple (tallied nerr) (broken_if F io nerr msg) (fun _ s => is_clean s).
Proof.
  intros s [H0 Hs]. unfold broken_if.
  destruct (Z.ltb_spec 0 nerr); [exact I|].
  destruct Hs as [Hc|Hp]; [exact Hc|lia].
Qed.

Lemma triple_seek offset :
  triple is_clean (seek F io offset) (fun _ s => is_clean s).
Proof. intros s Hs. exact Hs. Qed.

Lemma triple_note_leaves nnb nbtotal :
  triple is_clean (note F (EvLeaves nnb nbtotal))
         (fun _ s => nnb = nbtotal -> is_clean s).
Proof.
  intros s Hs. simpl. intros Heq.
  apply Forall_app. split; [exact Hs|]. repeat constructor. exact Heq.
Qed.

Lemma triple_throw_unless_eq nnb nbtotal msg :
  triple (fun s => nnb = nbtotal -> is_clean s)
         (throw_if F (negb (nnb =? nbtotal)) msg)
         (fun _ s => is_clean s).
Proof.
  intros s Hs. unfold throw_if.
  destruct (Z.eqb_spec nnb nbtotal) as [Heq|Hne]; simpl; auto.
Qed.

Ltac count_step :=
  eapply triple_bind; [apply triple_counted|intros [? ?]; cbn [fst]].

Ltac next_by lem :=
  eapply triple_bind; [apply lem|intros ?; cbn beta].

Lemma read_header_clean :
  triple is_clean (read_header F io) (fun _ s => is_clean s).
Proof.
  unfold read_header. eapply triple_pre; [apply clean_tallied|].
  do 7 count_step.
  next_by triple_broken_if.
  apply triple_ret. auto.
Qed.

Lemma read_id_tallied root_level a :
  triple (tallied (i_nerr a)) (read_id F io root_level a)
         (fun a' s => tallied (i_nerr a') s).
Proof.
  unfold read_id. do 4 count_step. apply triple_ret. auto.
Qed.

Lemma read_ids_tallied n root_level : forall a,
  triple (tallied (i_nerr a)) (read_ids F io n root_level a)
         (fun a' s => tallied (i_nerr a') s).
Proof.
  induction n as [|n IH]; intros a; simpl.
  - apply triple_ret. auto.
  - eapply triple_bind; [apply read_id_tallied|]. intros a'. apply IH.
Qed.

Lemma MeshBlock_restart_clean igid ilid pm iloc offset icost :
  triple is_clean (MeshBlock_restart F io ext igid ilid pm iloc offset icost)
         (fun _ s => is_clean s).
Proof.
  unfold MeshBlock_restart.
  next_by triple_seek.
  eapply triple_pre; [apply clean_tallied|].
  do 2 count_step.
  next_by triple_broken_if.
  next_by (@triple_lift unit).
  eapply triple_pre; [apply clean_tallied|].
  count_step.
  eapply triple_bind with (Q := fun r s => tallied (fst r) s).
  { destruct (GENERAL_RELATIVITY ext).
    - count_step. apply triple_counted.
    - apply triple_ret. auto. }
  intros [? ?]; cbn [fst].
  eapply triple_bind with (Q := fun r s => tallied (fst r) s).
  { destruct (MAGNETIC_FIELDS_ENABLED ext).
    - do 2 count_step. apply triple_counted.
    - apply triple_ret. auto. }
  intros [? ?]; cbn [fst].
  next_by triple_broken_if.
  apply triple_ret. auto.
Qed.

Lemma load_blocks_clean pm offset nbstart : forall idx acc,
  triple is_clean (load_blocks F io ext pm offset nbstart idx acc)
         (fun _ s => is_clean s).
Proof.
  induction idx as [|i idx IH]; intros acc; simpl.
  - apply triple_ret. auto.
  - eapply triple_bind; [apply MeshBlock_restart_clean|]. intros b. apply IH.
Qed.

(** A construction that returns leaves a trace without a short read and
    without a leaf-count mismatch. *)
Lemma Mesh_restart_clean pin test_flag :
  triple is_clean (Mesh_restart F io ext pin test_flag) (fun _ s => is_clean s).
Proof.
  unfold Mesh_restart.
  next_by triple_throw_if.
  next_by read_header_clean.
  next_by (@triple_lift unit).
  next_by triple_throw_if.
  next_by triple_throw_if.
  eapply triple_bind.
  { eapply triple_pre; [apply clean_tallied|].
    apply (read_ids_tallied _ _ (mkIds 0 [] [] [] false _ _ _)). }
  intros ids. cbn beta.
  next_by triple_broken_if.
  destruct (rebuild_tree ext _ _ _ _ _) as [tree [loclist nnb]].
  next_by triple_note_leaves.
  next_by triple_throw_unless_eq.
  destruct (_ && _ && _); [apply triple_throw|].
  destruct (_ && _); [apply triple_ret; auto|].
  destruct (Balancer.LoadBalancing _ _ _ _) as [[rl sl] nl].
  destruct (0 <? test_flag); [apply triple_ret; auto|].
  eapply triple_bind; [apply load_blocks_clean|intros blocks].
  apply triple_ret. auto.
Qed.

End RestartFacts.

(** C8. In a restart construction started on any file, if some [Read]
    (of the header, of an id-list record, or of a block's region, tags or
    arrays) delivered a count other than the one asked for, or the leaf
    count of the rebuilt tree differs from the header's [nbtotal], the
    constructor throws: no Mesh is produced. *)
Theorem Mesh_restart_corrupted (F : Type) (io : Restart.IOWrapper F)
    (ext : Restart.Collaborators) (pin : ParameterInput) (test_flag : Z) (f0 : F) :
  let run := Restart.Mesh_restart F io ext pin test_flag (Restart.mkSt f0 []) in
  (exists asked got,
     In (Restart.EvRead asked got) (Restart.log (snd run)) /\ got <> asked) \/
  (exists nnb nbtotal,
     In (Restart.EvLeaves nnb nbtotal) (Restart.log (snd run)) /\ nnb <> nbtotal) ->
  failed (fst run).
Proof.
  intros run Hbad.
  pose proof (Mesh_restart_clean F io ext pin test_flag (Restart.mkSt f0 [])) as H.
  fold run in H. destruct run as [[m|msg] s']; simpl in *.
  - exfalso. assert (Hc : Restart.clean (Restart.log s')).
    { apply H. constructor. }
    unfold Restart.clean in Hc. rewrite Forall_forall in Hc.
    destruct Hbad as [(a & g & Hin & Hne)|(a & g & Hin & Hne)];
      apply Hc in Hin; simpl in Hin; contradiction.
  - exists msg. reflexivity.
Qed.

(** The theorem on the file cut off inside the payload of the second
    block: the read of its 16 conserved values delivers none. *)
Lemma Mesh_restart_corrupted_witness :
  failed (fst (Restart.Mesh_restart (list Examples.item) Examples.stream_io
                 Examples.serial_1d Examples.pin_restart 0
                 (Restart.mkSt Examples.truncated_file []))).
Proof.
  apply Mesh_restart_corrupted. left. exists 16, 0. split; [|lia].
  vm_compute. repeat (first [left; reflexivity|right]).
Defined.

(** The complete file of the same mesh is accepted and gives two blocks. *)
Lemma Mesh_restart_complete_file :
  exists m,
    fst (Restart.Mesh_restart (list Examples.item) Examples.stream_io
           Examples.serial_1d Examples.pin_restart 0
           (Restart.mkSt Examples.restart_file [])) = Ok m /\
    map gid (pblock m) = [0; 1] /\ nbtotal m = 2.
Proof. eexists. repeat split. Qed.

(** * Further properties of mesh.cpp *)

(** ** The load balancer on arbitrary costs *)

Section BalancerShape.

Import Balancer Runs.

Lemma sweep_sorted cs : forall j t m g, 0 <= j ->
  StronglySorted Z.ge (sweep cs j t m g) /\
  Forall (fun r => 0 <= r <= j) (sweep cs j t m g).
Proof.
  induction cs as [|c cs IH]; intros j t m g Hj.
  - simpl. split; constructor.
  - rewrite sweep_cons.
    destruct (Qle_bool g (m + c)) eqn:E; simpl andb.
    + destruct (Z.ltb_spec 0 j) as [Hp|Hp].
      * destruct (IH (j - 1) (t - (m + c))%Q 0%Q
                     ((t - (m + c)) / inject_Z (j - 1 + 1))%Q) as [Hs Hr];
          [lia|].
        split.
        -- constructor; [exact Hs|].
           eapply Forall_impl; [|exact Hr]. simpl. intros; lia.
        -- constructor; [lia|].
           eapply Forall_impl; [|exact Hr]. simpl. intros; lia.
      * destruct (IH j t (m + c)%Q g Hj) as [Hs Hr]. split.
        -- constructor; [exact Hs|].
           eapply Forall_impl; [|exact Hr]. simpl. intros; lia.
        -- constructor; [lia|exact Hr].
    + destruct (IH j t (m + c)%Q g Hj) as [Hs Hr]. split.
      * constructor; [exact Hs|].
        eapply Forall_impl; [|exact Hr]. simpl. intros; lia.
      * constructor; [lia|exact Hr].
Qed.

Lemma sorted_rev_le (l : list Z) :
  StronglySorted Z.ge l -> StronglySorted Z.le (rev l).
Proof.
  induction 1 as [|x l Hs IH Hx]; simpl; [constructor|].
  assert (G : forall (a : list Z) (y : Z),
             StronglySorted Z.le a -> Forall (fun z => z <= y) a ->
             StronglySorted Z.le (a ++ [y])).
  { induction a as [|z a IHa]; intros y Ha Hy; simpl.
    - repeat constructor.
    - inversion Ha; subst. inversion Hy; subst.
      constructor; [apply IHa; assumption|].
      apply Forall_app. split; [assumption|]. repeat constructor. assumption. }
  apply G; [exact IH|].
  apply Forall_rev. eapply Forall_impl; [|exact Hx]. simpl. intros; lia.
Qed.

Lemma sweep_head c cs j t m g d : hd d (sweep (c :: cs) j t m g) = j.
Proof.
  rewrite sweep_cons. destruct (_ && _); reflexivity.
Qed.

(** X1. Whatever the costs, with at least one rank the rank list is as
    long as the cost list, never decreases along the block index, holds
    only ranks from 0 to [nranks-1], and gives the last block to rank
    [nranks-1]. *)
Theorem LoadBalancing_ranks_contiguous (nranks : Z) (clist : list Real) :
  0 < nranks ->
  let rlist := rlist_of nranks clist in
  length rlist = length clist /\
  StronglySorted Z.le rlist /\
  Forall (fun r => 0 <= r < nranks) rlist /\
  (clist <> [] -> last rlist 0 = nranks - 1).
Proof.
  intros Hn rlist. subst rlist. rewrite rlist_of_sweep.
  set (T := fst (fst (totals clist))).
  destruct (sweep_sorted (rev clist) (nranks - 1) T 0%Q (T / inject_Z nranks)%Q)
    as [Hs Hr]; [lia|].
  repeat split.
  - now rewrite length_rev, sweep_length, length_rev.
  - apply sorted_rev_le. exact Hs.
  - apply Forall_rev. eapply Forall_impl; [|exact Hr]. simpl. intros; lia.
  - intros Hne.
    destruct (rev clist) as [|c cs] eqn:E.
    + apply (f_equal (@rev Q)) in E. rewrite rev_involutive in E. simpl in E.
      congruence.
    + pose proof (sweep_head c cs (nranks - 1) T 0%Q (T / inject_Z nranks)%Q 0) as Hh.
      destruct (sweep (c :: cs) (nranks - 1) T 0%Q (T / inject_Z nranks)%Q)
        as [|x xs] eqn:Es; [rewrite sweep_cons in Es; destruct (_ && _); discriminate|].
      simpl in Hh. subst x. simpl rev. apply last_last.
Qed.

(** The theorem at the costs 10, 1, 1 on two ranks. *)
Lemma LoadBalancing_ranks_contiguous_witness :
  StronglySorted Z.le (rlist_of 2 [10%Q; 1%Q; 1%Q]) /\
  last (rlist_of 2 [10%Q; 1%Q; 1%Q]) 0 = 1.
Proof.
  destruct (LoadBalancing_ranks_contiguous 2 [10%Q; 1%Q; 1%Q]) as (_ & Hs & _ & Hl).
  - lia.
  - split; [exact Hs|]. apply Hl. discriminate.
Defined.

End BalancerShape.

Section BalancerSegments.

Import Balancer Runs RunCounts.

Lemma sweep_runs cs : forall j t m g, 0 <= j -> cs <> [] ->
  exists lens, lens <> [] /\ Forall (fun l => 1 <= l)%nat lens /\
    Z.of_nat (length lens) <= j + 1 /\
    sweep cs j t m g = runs_down j lens.
Proof.
  induction cs as [|c cs IH]; intros j t m g Hj Hne; [congruence|].
  rewrite sweep_cons.
  assert (Hstay : forall t' m' g',
            exists lens, lens <> [] /\ Forall (fun l => 1 <= l)%nat lens /\
              Z.of_nat (length lens) <= j + 1 /\
              j :: sweep cs j t' m' g' = runs_down j lens).
  { intros t' m' g'. destruct cs as [|c' cs'].
    - exists [1%nat]. simpl. repeat split; [discriminate|repeat constructor|lia].
    - destruct (IH j t' m' g' Hj ltac:(discriminate)) as (lens & Hl & Hf & Hc & He).
      destruct lens as [|l ls]; [congruence|].
      exists (S l :: ls). rewrite He. simpl. repeat split.
      + discriminate.
      + inversion Hf; subst. constructor; [lia|assumption].
      + simpl in Hc. lia. }
  destruct (Qle_bool g (m + c)); simpl andb; [|apply Hstay].
  destruct (Z.ltb_spec 0 j) as [Hp|Hp]; [|apply Hstay].
  destruct cs as [|c' cs'].
  - exists [1%nat]. simpl. repeat split; [discriminate|repeat constructor|lia].
  - destruct (IH (j - 1) (t - (m + c))%Q 0%Q ((t - (m + c)) / inject_Z (j - 1 + 1))%Q)
      as (lens & Hl & Hf & Hc & He); [lia|discriminate|].
    exists (1%nat :: lens). rewrite He. simpl. repeat split.
    + discriminate.
    + constructor; [lia|assumption].
    + lia.
Qed.

Lemma runs_from_app r a b :
  runs_from r (a ++ b) = runs_from r a ++ runs_from (r + Z.of_nat (length a)) b.
Proof.
  revert r. induction a as [|l a IH]; intros r; simpl.
  - now rewrite Z.add_0_r.
  - rewrite IH, <- app_assoc. do 3 f_equal. lia.
Qed.

Lemma rev_runs_down lens : forall j,
  rev (runs_down j lens) = runs_from (j - Z.of_nat (length lens) + 1) (rev lens).
Proof.
  induction lens as [|l ls IH]; intros j; [reflexivity|].
  cbn [runs_down rev]. rewrite rev_app_distr, rev_repeat, IH, runs_from_app.
  cbn [runs_from]. rewrite app_nil_r, length_rev. cbn [length].
  f_equal; [f_equal; lia|f_equal; lia].
Qed.

Lemma nth_store_same a : forall i v d, (i < length a)%nat ->
  nth i (store a i v) d = v.
Proof.
  induction a as [|x a IH]; intros [|i] v d H; simpl in *; try lia.
  apply IH. lia.
Qed.

Lemma runs_from_length lens : forall r,
  Z.of_nat (length (runs_from r lens)) = total lens.
Proof.
  unfold total. induction lens as [|l ls IH]; intros r; [reflexivity|].
  cbn [runs_from fold_right]. rewrite length_app, repeat_length.
  rewrite !Nat2Z.inj_add, IH. reflexivity.
Qed.

Lemma run_starts_length lens : forall s, length (run_starts s lens) = length lens.
Proof.
  induction lens as [|l ls IH]; intros s; simpl; [reflexivity|]. now rewrite IH.
Qed.

(** The start of the last run and the length of the last run add up to
    everything. *)
Lemma run_starts_last ls : forall l0 s,
  nth (length ls) (run_starts s (l0 :: ls)) 0 + Z.of_nat (last (l0 :: ls) 0%nat)
  = s + total (l0 :: ls).
Proof.
  unfold total. induction ls as [|l1 ls IH]; intros l0 s.
  - simpl. lia.
  - change (nth (length (l1 :: ls)) (run_starts s (l0 :: l1 :: ls)) 0)
      with (nth (length ls) (run_starts (s + Z.of_nat l0) (l1 :: ls)) 0).
    change (last (l0 :: l1 :: ls) 0%nat) with (last (l1 :: ls) 0%nat).
    rewrite IH. cbn [fold_right]. lia.
Qed.

Lemma seg_counts_all ls : forall l0,
  seg_counts (Z.of_nat l0) ls ++ [Z.of_nat (last (l0 :: ls) 0%nat)]
  = map Z.of_nat (l0 :: ls).
Proof.
  induction ls as [|l1 ls IH]; intros l0; [reflexivity|].
  change (last (l0 :: l1 :: ls) 0%nat) with (last (l1 :: ls) 0%nat).
  cbn [seg_counts map app]. f_equal. apply (IH l1).
Qed.

Lemma seg_counts_length ls : forall f, length (seg_counts f ls) = length ls.
Proof.
  induction ls as [|l ls IH]; intros f; simpl; [reflexivity|]. now rewrite IH.
Qed.

(** The third loop on a list made of runs: it leaves with one start per
    run and one count per finished run. *)
Lemma starts_on_runs lens : forall (r : Z) (a : nat) (i : Z) (j : nat) sl nl,
  Forall (fun l => 1 <= l)%nat lens ->
  length nl = length sl -> (j + length lens < length sl)%nat ->
  exists sl' nl',
    starts r (repeat r a ++ runs_from (r + 1) lens) i j sl nl
      = ((j + length lens)%nat, sl', nl') /\
    length sl' = length sl /\ length nl' = length nl /\
    firstn (S j + length lens) sl'
      = firstn (S j) sl ++ run_starts (i + Z.of_nat a) lens /\
    firstn (j + length lens) nl'
      = firstn j nl ++ seg_counts (i + Z.of_nat a - nth j sl 0) lens.
Proof.
  induction lens as [|l ls IH].
  - induction a as [|a IHa]; intros i j sl nl _ Hlen Hj.
    + exists sl, nl. cbn [repeat app runs_from starts length run_starts seg_counts].
      rewrite !Nat.add_0_r, !app_nil_r. repeat split; reflexivity.
    + cbn [repeat app]. rewrite starts_cons, Z.eqb_refl. cbn [negb].
      destruct (IHa (i + 1) j sl nl ltac:(constructor) Hlen Hj)
        as (sl' & nl' & He & H1 & H2 & H3 & H4).
      exists sl', nl'. rewrite He. repeat split; auto.
  - induction a as [|a IHa]; intros i j sl nl Hf Hlen Hj.
    + apply Forall_cons_iff in Hf. destruct Hf as [Hl Hf].
      destruct l as [|l']; [lia|].
      cbn [repeat app runs_from]. rewrite starts_cons.
      assert (Hne : (r + 1 =? r) = false) by (apply Z.eqb_neq; lia).
      rewrite Hne. cbn [negb]. cbn [length] in Hj.
      destruct (IH (r + 1) l' (i + 1) (S j) (store sl (S j) i)
                   (store nl j (i - nth j sl 0)) Hf)
        as (sl' & nl' & He & H1 & H2 & H3 & H4).
      * now rewrite !store_length.
      * rewrite store_length. lia.
      * exists sl', nl'. rewrite He. rewrite !store_length in *.
        cbn [length]. repeat split; auto.
        -- do 2 f_equal. lia.
        -- replace (S j + S (length ls))%nat with (S (S j) + length ls)%nat by lia.
           rewrite H3, firstn_store_snoc by lia.
           cbn [run_starts]. rewrite <- app_assoc. cbn [app].
           f_equal. f_equal; [lia|]. f_equal. lia.
        -- replace (j + S (length ls))%nat with (S j + length ls)%nat by lia.
           rewrite H4, firstn_store_snoc by lia.
           rewrite nth_store_same by lia.
           cbn [seg_counts]. rewrite <- app_assoc. cbn [app].
           f_equal. f_equal; [lia|]. f_equal. lia.
    + cbn [repeat app]. rewrite starts_cons, Z.eqb_refl. cbn [negb].
      destruct (IHa (i + 1) j sl nl Hf Hlen Hj)
        as (sl' & nl' & He & H1 & H2 & H3 & H4).
      exists sl', nl'. rewrite He. repeat split; auto.
      * rewrite H3. do 2 f_equal. lia.
      * rewrite H4. do 2 f_equal. lia.
Qed.

(** The three loops on any non-empty cost list: the sweep writes runs
    of consecutive ranks, and the third loop one start and one count per
    run. *)
Lemma LoadBalancing_runs (nranks : Z) (clist : list Real)
    (slist nlist : list Z) :
  0 < nranks -> clist <> [] ->
  Z.of_nat (length slist) = nranks -> Z.of_nat (length nlist) = nranks ->
  exists (lens : list nat) (sl nl : list Z),
    sweep (rev clist) (nranks - 1) (fst (fst (totals clist))) 0%Q
          (fst (fst (totals clist)) / inject_Z nranks)%Q
    = runs_down (nranks - 1) (rev lens) /\
    LoadBalancing nranks clist slist nlist
    = (runs_from (nranks - Z.of_nat (length lens)) lens, sl, nl) /\
    lens <> [] /\ Forall (fun l => 1 <= l)%nat lens /\
    Z.of_nat (length lens) <= nranks /\
    total lens = Z.of_nat (length clist) /\
    firstn (length lens) sl = run_starts 0 lens /\
    firstn (length lens) nl = map Z.of_nat lens /\
    length sl = length slist /\ length nl = length nlist.
Proof.
  intros Hn Hne Hls Hln. unfold LoadBalancing.
  destruct (totals clist) as [[T mn] mx]. cbn [fst].
  assert (Hrev : rev clist <> []).
  { intros E. apply (f_equal (@rev Q)) in E. rewrite rev_involutive in E.
    simpl in E. congruence. }
  destruct (sweep_runs (rev clist) (nranks - 1) T 0%Q (T / inject_Z nranks)%Q
              ltac:(lia) Hrev) as (lens' & Hl' & Hf' & Hc' & He).
  pose proof (sweep_length (rev clist) (nranks - 1) T 0%Q (T / inject_Z nranks)%Q)
    as Hsl.
  rewrite He in *. rewrite rev_runs_down.
  set (r0 := nranks - 1 - Z.of_nat (length lens') + 1).
  assert (Hlen : total (rev lens') = Z.of_nat (length clist)).
  { rewrite <- (runs_from_length (rev lens') r0). unfold r0.
    rewrite <- rev_runs_down, length_rev, Hsl, length_rev. reflexivity. }
  assert (HfL : Forall (fun l => 1 <= l)%nat (rev lens')) by (apply Forall_rev; exact Hf').
  assert (HlL : length (rev lens') = length lens') by apply length_rev.
  assert (Hrr : rev (rev lens') = lens') by apply rev_involutive.
  destruct (rev lens') as [|l0 ls] eqn:EL.
  { simpl in Hrr. congruence. }
  apply Forall_cons_iff in HfL. destruct HfL as [Hl0 Hfls].
  destruct l0 as [|l0']; [lia|].
  cbn [runs_from repeat app]. cbn [length] in HlL.
  destruct (starts_on_runs ls r0 l0' 1 0%nat (store slist 0 0) nlist Hfls)
    as (sl' & nl' & Hst & H1 & H2 & H3 & H4).
  - rewrite store_length. lia.
  - rewrite store_length. lia.
  - rewrite Hst. cbn [Nat.add] in *.
    exists (S l0' :: ls), sl',
      (store nl' (length ls) (Z.of_nat (length clist) - nth (length ls) sl' 0)).
    rewrite store_length in H1.
    assert (Hs0 : firstn (S (length ls)) sl' = run_starts 0 (S l0' :: ls)).
    { rewrite H3, firstn_store_snoc by lia. cbn [firstn app run_starts].
      do 2 f_equal. lia. }
    assert (Hnth : nth (length ls) sl' 0 = nth (length ls) (run_starts 0 (S l0' :: ls)) 0).
    { rewrite <- Hs0. rewrite nth_firstn.
      destruct (Nat.ltb_spec (length ls) (S (length ls))); [reflexivity|lia]. }
    repeat split.
    + rewrite Hrr. reflexivity.
    + cbn [length runs_from repeat app].
      replace (nranks - Z.of_nat (S (length ls))) with r0 by (unfold r0; lia).
      reflexivity.
    + discriminate.
    + constructor; assumption.
    + cbn [length]. lia.
    + exact Hlen.
    + cbn [length]. exact Hs0.
    + cbn [length]. rewrite firstn_store_snoc by lia.
      rewrite H4. cbn [firstn app].
      rewrite Hnth.
      pose proof (run_starts_last ls (S l0') 0) as Hlast.
      replace (Z.of_nat (length clist) - nth (length ls) (run_starts 0 (S l0' :: ls)) 0)
        with (Z.of_nat (last (S l0' :: ls) 0%nat)) by lia.
      rewrite nth_store_same by lia.
      replace (1 + Z.of_nat l0' - 0) with (Z.of_nat (S l0')) by lia.
      apply seg_counts_all.
    + exact H1.
    + rewrite store_length. exact H2.
Qed.

(** X2. For every non-empty cost list, with [nranks >= 1] and arrays of
    [nranks] entries: the rank list is made of runs of consecutive ranks
    [r0], [r0+1], ..., [nranks-1], each at least one block long; [slist]
    holds the start index of each run and [nlist] its length, so the
    ranges [slist[t], slist[t]+nlist[t]) tile the block list. Run [t]
    belongs to rank [r0+t]: the arrays are indexed by rank only when
    every rank received a block ([r0 = 0]). *)
Theorem LoadBalancing_segments (nranks : Z) (clist : list Real)
    (slist nlist : list Z) :
  0 < nranks -> clist <> [] ->
  Z.of_nat (length slist) = nranks -> Z.of_nat (length nlist) = nranks ->
  exists (lens : list nat) (r0 : Z) (sl nl : list Z),
    LoadBalancing nranks clist slist nlist = (runs_from r0 lens, sl, nl) /\
    lens <> [] /\ Forall (fun l => 1 <= l)%nat lens /\
    0 <= r0 /\ r0 + Z.of_nat (length lens) = nranks /\
    total lens = Z.of_nat (length clist) /\
    firstn (length lens) sl = run_starts 0 lens /\
    firstn (length lens) nl = map Z.of_nat lens.
Proof.
  intros Hn Hne Hls Hln.
  destruct (LoadBalancing_runs nranks clist slist nlist Hn Hne Hls Hln)
    as (lens & sl & nl & _ & He & H1 & H2 & H3 & H4 & H5 & H6 & _).
  exists lens, (nranks - Z.of_nat (length lens)), sl, nl.
  repeat split; try assumption; lia.
Qed.

(** The theorem at the costs 10, 1, 1 on two ranks: one run of three
    blocks, all on rank 1, described by entry 0 of the arrays. *)
Lemma LoadBalancing_segments_witness :
  exists lens r0 sl nl,
    LoadBalancing 2 [10%Q; 1%Q; 1%Q] [7; 7] [9; 9] = (runs_from r0 lens, sl, nl) /\
    r0 + Z.of_nat (length lens) = 2 /\
    firstn (length lens) nl = map Z.of_nat lens.
Proof.
  destruct (LoadBalancing_segments 2 [10%Q; 1%Q; 1%Q] [7; 7] [9; 9])
    as (lens & r0 & sl & nl & He & _ & _ & _ & Hr & _ & _ & Hn);
    [lia|discriminate|reflexivity|reflexivity|].
  exists lens, r0, sl, nl. repeat split; assumption.
Defined.

End BalancerSegments.

(** ** The time step and the block lookup *)

Lemma fold_std_min_le {A} (f : A -> Real) (l : list A) : forall x,
  (fold_left (fun acc b => std_min acc (f b)) l x <= x)%Q /\
  (forall b, In b l -> (fold_left (fun acc b => std_min acc (f b)) l x <= f b)%Q).
Proof.
  induction l as [|a l IH]; intros x; simpl.
  - split; [lra|intros b []].
  - destruct (IH (std_min x (f a))) as [H1 H2].
    pose proof (std_min_le_r x (f a)) as Hr.
    assert (Hl : (std_min x (f a) <= x)%Q).
    { unfold std_min. destruct (Qltb (f a) x) eqn:E; [apply Qltb_lt in E|]; lra. }
    split; [lra|]. intros b [<-|Hb]; [lra|apply H2; exact Hb].
Qed.

(** X3. With a CFL number that is not negative, the step [NewTimeStep]
    stores is at most the CFL number times the proposed step of every
    local block, and of every value another rank contributes to the
    reduction. *)
Theorem NewTimeStep_within_cfl (remote : list Real) (m m' : Mesh) :
  TimeStep.NewTimeStep remote m = Done m' ->
  (0 <= cfl_number m)%Q ->
  (forall b, In b (pblock m) -> (dt m' <= new_block_dt b * cfl_number m)%Q) /\
  (forall x, In x remote -> (dt m' <= x * cfl_number m)%Q).
Proof.
  unfold TimeStep.NewTimeStep. intros H Hc.
  destruct (pblock m) as [|pmb next] eqn:Hb; [discriminate|].
  injection H as <-. cbn [dt set_dt].
  set (loc_min := fold_left (fun acc b => std_min acc (new_block_dt b)) next
                            (new_block_dt pmb)).
  set (mdt := TimeStep.MPI_Allreduce_MIN remote loc_min).
  set (dt1 := std_min (mdt * cfl_number m)%Q (2 * dt m)%Q).
  assert (Hdt2 : ((if Qltb (time m) (tlim m) && Qltb (tlim m - time m) dt1
                   then (tlim m - time m)%Q else dt1) <= mdt * cfl_number m)%Q).
  { pose proof (std_min_le_r (mdt * cfl_number m)%Q (2 * dt m)%Q) as Hr.
    assert (Hl : (dt1 <= mdt * cfl_number m)%Q).
    { unfold dt1, std_min.
      destruct (Qltb (2 * dt m) (mdt * cfl_number m)) eqn:E;
        [apply Qltb_lt in E|]; lra. }
    destruct (Qltb (time m) (tlim m)); simpl; [|exact Hl].
    destruct (Qltb (tlim m - time m) dt1) eqn:E; [apply Qltb_lt in E; lra|exact Hl]. }
  destruct (fold_std_min_le new_block_dt next (new_block_dt pmb)) as [L1 L2].
  fold loc_min in L1, L2.
  destruct (fold_std_min_le (fun x : Real => x) remote loc_min) as [R1 R2].
  assert (Hm : mdt = fold_left (fun acc b => std_min acc b) remote loc_min)
    by reflexivity.
  rewrite <- Hm in R1, R2.
  split.
  - intros b [<-|Hin].
    + eapply Qle_trans; [exact Hdt2|]. apply Qmult_le_compat_r; lra.
    + specialize (L2 b Hin). eapply Qle_trans; [exact Hdt2|].
      apply Qmult_le_compat_r; lra.
  - intros x Hin. specialize (R2 x Hin). eapply Qle_trans; [exact Hdt2|].
    apply Qmult_le_compat_r; lra.
Qed.

(** The theorem on the periodic two-block mesh (CFL number 0.8, proposed
    steps 1). *)
Lemma NewTimeStep_within_cfl_witness :
  exists m', TimeStep.NewTimeStep [] Examples.periodic_mesh = Done m' /\
    (dt m' <= 1 * (8 # 10))%Q.
Proof.
  eexists. split; [reflexivity|].
  eapply (proj1 (NewTimeStep_within_cfl [] Examples.periodic_mesh _ eq_refl _)
                (Examples.block1d 0 0 0 [4; 4; 0; 0; 0; 0])).
  left. reflexivity.
  Unshelve. vm_compute. discriminate.
Defined.

(** X4. In a list whose blocks have pairwise distinct gids, looking up
    the gid of a block of the list returns that very block. *)
Theorem FindMeshBlock_finds_member (pblock : list MeshBlock) (b : MeshBlock) :
  NoDup (map gid pblock) -> In b pblock ->
  Find.FindMeshBlock pblock (gid b) = Some b.
Proof.
  induction pblock as [|x l IH]; intros Hnd Hin; [destruct Hin|].
  simpl in Hnd. apply NoDup_cons_iff in Hnd. destruct Hnd as [Hx Hnd].
  simpl. destruct Hin as [->|Hin].
  - now rewrite Z.eqb_refl.
  - destruct (Z.eqb_spec (gid x) (gid b)) as [E|E].
    + exfalso. apply Hx. rewrite E. apply in_map. exact Hin.
    + apply IH; assumption.
Qed.

(** The theorem on the second block of the periodic mesh. *)
Lemma FindMeshBlock_finds_member_witness :
  Find.FindMeshBlock (pblock Examples.periodic_mesh) 1
  = Some (Examples.block1d 1 1 0 [4; 4; 0; 0; 0; 0]).
Proof.
  apply (FindMeshBlock_finds_member (pblock Examples.periodic_mesh)
           (Examples.block1d 1 1 0 [4; 4; 0; 0; 0; 0])).
  - repeat constructor; simpl; intuition discriminate.
  - right. left. reflexivity.
Defined.

(** ** Face and edge tags of a neighbour descriptor *)

Lemma unit_cases o : Offsets.unit o = true -> o = -1 \/ o = 0 \/ o = 1.
Proof.
  unfold Offsets.unit. rewrite !orb_true_iff, !Z.eqb_eq. tauto.
Qed.

Ltac offsets_cases :=
  repeat match goal with
         | H : Offsets.unit ?o = true |- _ =>
             apply unit_cases in H; destruct H as [ -> | [ -> | -> ] ]
         end.

Lemma direction_of_units ty o1 o2 o3 :
  Offsets.direction_of ty o1 o2 o3 = true ->
  Offsets.unit o1 = true /\ Offsets.unit o2 = true /\ Offsets.unit o3 = true.
Proof.
  unfold Offsets.direction_of. rewrite !andb_true_iff. tauto.
Qed.

(** X5. [SetNeighbor] tags the six face directions with six different
    face ids and the twelve edge directions with twelve different edge
    ids, all in 0..11; for a descriptor that is not a face it assigns no
    face id and for one that is not an edge no edge id. *)
Theorem SetNeighbor_tags (r l g li b t f1 f2 : Z) :
  (forall o1 o2 o3 p1 p2 p3,
     Offsets.direction_of neighbor_face o1 o2 o3 = true ->
     Offsets.direction_of neighbor_face p1 p2 p3 = true ->
     NeighborBlock.fid (Neighbors.SetNeighbor r l g li o1 o2 o3 neighbor_face b t f1 f2)
       <> None /\
     (NeighborBlock.fid (Neighbors.SetNeighbor r l g li o1 o2 o3 neighbor_face b t f1 f2)
      = NeighborBlock.fid (Neighbors.SetNeighbor r l g li p1 p2 p3 neighbor_face b t f1 f2)
      -> (o1, o2, o3) = (p1, p2, p3))) /\
  (forall o1 o2 o3 p1 p2 p3,
     Offsets.direction_of neighbor_edge o1 o2 o3 = true ->
     Offsets.direction_of neighbor_edge p1 p2 p3 = true ->
     (exists e,
        NeighborBlock.eid (Neighbors.SetNeighbor r l g li o1 o2 o3 neighbor_edge b t f1 f2)
        = Some e /\ 0 <= e < 12) /\
     (NeighborBlock.eid (Neighbors.SetNeighbor r l g li o1 o2 o3 neighbor_edge b t f1 f2)
      = NeighborBlock.eid (Neighbors.SetNeighbor r l g li p1 p2 p3 neighbor_edge b t f1 f2)
      -> (o1, o2, o3) = (p1, p2, p3))) /\
  (forall ty o1 o2 o3,
     (ty <> neighbor_face ->
      NeighborBlock.fid (Neighbors.SetNeighbor r l g li o1 o2 o3 ty b t f1 f2) = None) /\
     (ty <> neighbor_edge ->
      NeighborBlock.eid (Neighbors.SetNeighbor r l g li o1 o2 o3 ty b t f1 f2) = None)).
Proof.
  split; [|split].
  - intros o1 o2 o3 p1 p2 p3 Ho Hp.
    pose proof (direction_of_units _ _ _ _ Ho) as (U1 & U2 & U3).
    pose proof (direction_of_units _ _ _ _ Hp) as (V1 & V2 & V3).
    offsets_cases; vm_compute in Ho; try discriminate Ho;
      vm_compute in Hp; try discriminate Hp;
      (split; [vm_compute; discriminate|vm_compute; congruence]).
  - intros o1 o2 o3 p1 p2 p3 Ho Hp.
    pose proof (direction_of_units _ _ _ _ Ho) as (U1 & U2 & U3).
    pose proof (direction_of_units _ _ _ _ Hp) as (V1 & V2 & V3).
    offsets_cases; vm_compute in Ho; try discriminate Ho;
      vm_compute in Hp; try discriminate Hp;
      (split; [eexists; split; [vm_compute; reflexivity|lia]
              |vm_compute; congruence]).
  - intros ty o1 o2 o3. split; intros Hty; destruct ty; try congruence; reflexivity.
Qed.

(** The theorem at the edges (-1,-1,0) and (1,0,1). *)
Lemma SetNeighbor_tags_witness :
  NeighborBlock.eid (Neighbors.SetNeighbor 0 0 0 0 (-1) (-1) 0 neighbor_edge 0 0 0 0)
  <> NeighborBlock.eid (Neighbors.SetNeighbor 0 0 0 0 1 0 1 neighbor_edge 0 0 0 0).
Proof.
  intros H.
  apply (proj2 (proj1 (proj2 (SetNeighbor_tags 0 0 0 0 0 0 0 0))
                  (-1) (-1) 0 1 0 1 eq_refl eq_refl)) in H.
  discriminate H.
Defined.

(** ** The level map and the entries of the neighbour search *)

Section SearchMore.

Variable FindBufferID : Z -> Z -> Z -> Z -> Z -> Z -> Z.
Variable pmy_mesh : Mesh.
Variable ranklist_ nslist_ : list Z.
Variable blk : MeshBlock.

Import Neighbors.

Local Abbreviation face_dir_ := (face_dir FindBufferID pmy_mesh ranklist_ nslist_ blk).
Local Abbreviation edge_dir_ := (edge_dir FindBufferID pmy_mesh ranklist_ nslist_ blk).
Local Abbreviation corner_dir_ := (corner_dir FindBufferID pmy_mesh ranklist_ nslist_ blk).

Lemma fold_keeps {A} (P : search_state -> Prop) (f : search_state -> A -> search_state)
    (l : list A) :
  (forall s a, In a l -> P s -> P (f s a)) ->
  forall s, P s -> P (fold_left f l s).
Proof.
  induction l as [|a l IH]; intros Hf s Hs; simpl; [exact Hs|].
  apply IH.
  - intros s' a' Hin. apply Hf. right. exact Hin.
  - apply Hf; [left; reflexivity|exact Hs].
Qed.

Lemma push_finer_nblevel o1 o2 o3 ty tbid nf f1 f2 s :
  st_nblevel (push_finer ranklist_ nslist_ o1 o2 o3 ty tbid nf f1 f2 s) = st_nblevel s.
Proof. reflexivity. Qed.

Lemma set_nblevel_same f k j i v : set_nblevel f k j i v k j i = v.
Proof. unfold set_nblevel. now rewrite !Z.eqb_refl. Qed.

Lemma set_nblevel_other f k j i v k' j' i' :
  (k' =? k) && (j' =? j) && (i' =? i) = false ->
  set_nblevel f k j i v k' j' i' = f k' j' i'.
Proof. unfold set_nblevel. now intros ->. Qed.

(** What one direction does to the level map: its own slot takes the
    level seen in that direction (and keeps its content when there is no
    neighbour), every other slot is left alone. *)
Lemma face_dir_nblevel o1 o2 o3 leaf cf1 cf2 k j i n s :
  st_nblevel (face_dir_ o1 o2 o3 leaf cf1 cf2 k j i n s)
  = match find pmy_mesh blk o1 o2 o3 with
    | None => st_nblevel s
    | Some nd => set_nblevel (st_nblevel s) k j i
                   (Window.level_seen (Some nd))
    end.
Proof.
  unfold face_dir. destruct (find pmy_mesh blk o1 o2 o3) as [nd|]; [|reflexivity].
  unfold Window.level_seen. destruct (flag nd); cbn [negb]; [reflexivity|].
  apply (fold_keeps (fun s' => st_nblevel s' = _)); [|reflexivity].
  intros s0 f2 _ H0.
  apply (fold_keeps (fun s' => st_nblevel s' = _)); [|exact H0].
  intros s1 f1 _ H1. rewrite push_finer_nblevel. exact H1.
Qed.

Lemma edge_dir_nblevel o1 o2 o3 leaf w cf1 mine k j i n m s :
  st_nblevel (edge_dir_ o1 o2 o3 leaf w cf1 mine k j i n m s)
  = match find pmy_mesh blk o1 o2 o3 with
    | None => st_nblevel s
    | Some nd => set_nblevel (st_nblevel s) k j i
                   (Window.level_seen (Some nd))
    end.
Proof.
  unfold edge_dir. destruct (find pmy_mesh blk o1 o2 o3) as [nd|]; [|reflexivity].
  unfold Window.level_seen. destruct (flag nd); cbn [negb].
  - destruct (_ || mine); reflexivity.
  - apply (fold_keeps (fun s' => st_nblevel s' = _)); [|reflexivity].
    intros s1 f1 _ H1. rewrite push_finer_nblevel. exact H1.
Qed.

Lemma corner_dir_nblevel_other n m l s k' j' i' :
  (k' =? l + 1) && (j' =? m + 1) && (i' =? n + 1) = false ->
  st_nblevel (corner_dir_ n m l s) k' j' i' = st_nblevel s k' j' i'.
Proof.
  intros Hne. unfold corner_dir.
  destruct (find pmy_mesh blk n m l) as [nd|]; [|reflexivity].
  destruct (if negb (flag nd) then _ else _) as [nloc nid].
  destruct (_ || _); cbn [st_nblevel advance push record_level];
    now rewrite set_nblevel_other.
Qed.

Lemma face_dir_nblevel_other o1 o2 o3 leaf cf1 cf2 k j i n s k' j' i' :
  (k' =? k) && (j' =? j) && (i' =? i) = false ->
  st_nblevel (face_dir_ o1 o2 o3 leaf cf1 cf2 k j i n s) k' j' i'
  = st_nblevel s k' j' i'.
Proof.
  intros Hne. rewrite face_dir_nblevel.
  destruct (find pmy_mesh blk o1 o2 o3); [|reflexivity].
  now rewrite set_nblevel_other.
Qed.

Lemma face_dir_nblevel_own o1 o2 o3 leaf cf1 cf2 k j i n s :
  st_nblevel s k j i = -1 ->
  st_nblevel (face_dir_ o1 o2 o3 leaf cf1 cf2 k j i n s) k j i
  = Window.level_seen (find pmy_mesh blk o1 o2 o3).
Proof.
  intros H. rewrite face_dir_nblevel.
  destruct (find pmy_mesh blk o1 o2 o3); [|exact H].
  now rewrite set_nblevel_same.
Qed.

Lemma edge_dir_nblevel_other o1 o2 o3 leaf w cf1 mine k j i n m s k' j' i' :
  (k' =? k) && (j' =? j) && (i' =? i) = false ->
  st_nblevel (edge_dir_ o1 o2 o3 leaf w cf1 mine k j i n m s) k' j' i'
  = st_nblevel s k' j' i'.
Proof.
  intros Hne. rewrite edge_dir_nblevel.
  destruct (find pmy_mesh blk o1 o2 o3); [|reflexivity].
  now rewrite set_nblevel_other.
Qed.

Ltac side_cases :=
  repeat match goal with
         | H : In _ sides |- _ =>
             destruct H as [<-|[<-|[]]]
         end.

Ltac axial_slot H :=
  unfold Window.axial in H;
  repeat match goal with
         | |- context [?a =? ?b] =>
             match type of H with context [a =? b] => destruct (Z.eqb_spec a b) end
         end;
  try discriminate H; try reflexivity;
  repeat match goal with
         | |- context [?a =? ?b] => destruct (Z.eqb_spec a b)
         end; try reflexivity; try lia.

Lemma edges_corners_keep_axial k j i : Window.axial k j i = true ->
  forall s,
    st_nblevel (x1x2_edges FindBufferID pmy_mesh ranklist_ nslist_ blk s) k j i
      = st_nblevel s k j i /\
    st_nblevel (x1x3_edges FindBufferID pmy_mesh ranklist_ nslist_ blk s) k j i
      = st_nblevel s k j i /\
    st_nblevel (x2x3_edges FindBufferID pmy_mesh ranklist_ nslist_ blk s) k j i
      = st_nblevel s k j i /\
    st_nblevel (corners FindBufferID pmy_mesh ranklist_ nslist_ blk s) k j i
      = st_nblevel s k j i.
Proof.
  intros Hax s. repeat split.
  - unfold x1x2_edges.
    apply (fold_keeps (fun s' => st_nblevel s' k j i = st_nblevel s k j i));
      [|reflexivity].
    intros s0 m Hm H0.
    apply (fold_keeps (fun s' => st_nblevel s' k j i = st_nblevel s k j i));
      [|exact H0].
    intros s1 n Hn H1. rewrite edge_dir_nblevel_other; [exact H1|].
    side_cases; axial_slot Hax.
  - unfold x1x3_edges.
    apply (fold_keeps (fun s' => st_nblevel s' k j i = st_nblevel s k j i));
      [|reflexivity].
    intros s0 m Hm H0.
    apply (fold_keeps (fun s' => st_nblevel s' k j i = st_nblevel s k j i));
      [|exact H0].
    intros s1 n Hn H1. rewrite edge_dir_nblevel_other; [exact H1|].
    side_cases; axial_slot Hax.
  - unfold x2x3_edges.
    apply (fold_keeps (fun s' => st_nblevel s' k j i = st_nblevel s k j i));
      [|reflexivity].
    intros s0 m Hm H0.
    apply (fold_keeps (fun s' => st_nblevel s' k j i = st_nblevel s k j i));
      [|exact H0].
    intros s1 n Hn H1. rewrite edge_dir_nblevel_other; [exact H1|].
    side_cases; axial_slot Hax.
  - unfold corners.
    apply (fold_keeps (fun s' => st_nblevel s' k j i = st_nblevel s k j i));
      [|reflexivity].
    intros s0 l Hl H0.
    apply (fold_keeps (fun s' => st_nblevel s' k j i = st_nblevel s k j i));
      [|exact H0].
    intros s1 m Hm H1.
    apply (fold_keeps (fun s' => st_nblevel s' k j i = st_nblevel s k j i));
      [|exact H1].
    intros s2 n Hn H2. rewrite corner_dir_nblevel_other; [exact H2|].
    side_cases; axial_slot Hax.
Qed.


Ltac slots :=
  repeat match goal with
         | H : context [?a =? ?b] |- _ => destruct (Z.eqb_spec a b)
         | |- context [?a =? ?b] => destruct (Z.eqb_spec a b)
         end;
  cbn [andb orb negb] in *;
  try discriminate; try reflexivity; try lia.

Lemma x1_faces_nblevel_other s k j i :
  (k =? 1) && (j =? 1) && negb (i =? 1) = false ->
  st_nblevel (x1_faces FindBufferID pmy_mesh ranklist_ nslist_ blk s) k j i
  = st_nblevel s k j i.
Proof.
  intros H. unfold x1_faces. cbn [fold_left sides].
  rewrite !face_dir_nblevel_other; [reflexivity| |]; slots.
Qed.

Lemma x2_faces_nblevel_other s k j i :
  (k =? 1) && negb (j =? 1) && (i =? 1) = false ->
  st_nblevel (x2_faces FindBufferID pmy_mesh ranklist_ nslist_ blk s) k j i
  = st_nblevel s k j i.
Proof.
  intros H. unfold x2_faces. cbn [fold_left sides].
  rewrite !face_dir_nblevel_other; [reflexivity| |]; slots.
Qed.

Lemma x3_faces_nblevel_other s k j i :
  negb (k =? 1) && (j =? 1) && (i =? 1) = false ->
  st_nblevel (x3_faces FindBufferID pmy_mesh ranklist_ nslist_ blk s) k j i
  = st_nblevel s k j i.
Proof.
  intros H. unfold x3_faces. cbn [fold_left sides].
  rewrite !face_dir_nblevel_other; [reflexivity| |]; slots.
Qed.

Lemma x1_faces_nblevel_own s n :
  In n sides -> st_nblevel s 1 1 (n + 1) = -1 ->
  st_nblevel (x1_faces FindBufferID pmy_mesh ranklist_ nslist_ blk s) 1 1 (n + 1)
  = Window.level_seen (find pmy_mesh blk n 0 0).
Proof.
  intros Hn H. unfold x1_faces. cbn [fold_left sides]. side_cases.
  - rewrite face_dir_nblevel_other by reflexivity.
    now apply face_dir_nblevel_own.
  - apply face_dir_nblevel_own.
    now rewrite face_dir_nblevel_other by reflexivity.
Qed.

Lemma x2_faces_nblevel_own s n :
  In n sides -> st_nblevel s 1 (n + 1) 1 = -1 ->
  st_nblevel (x2_faces FindBufferID pmy_mesh ranklist_ nslist_ blk s) 1 (n + 1) 1
  = Window.level_seen (find pmy_mesh blk 0 n 0).
Proof.
  intros Hn H. unfold x2_faces. cbn [fold_left sides]. side_cases.
  - rewrite face_dir_nblevel_other by reflexivity.
    now apply face_dir_nblevel_own.
  - apply face_dir_nblevel_own.
    now rewrite face_dir_nblevel_other by reflexivity.
Qed.

Lemma x3_faces_nblevel_own s n :
  In n sides -> st_nblevel s (n + 1) 1 1 = -1 ->
  st_nblevel (x3_faces FindBufferID pmy_mesh ranklist_ nslist_ blk s) (n + 1) 1 1
  = Window.level_seen (find pmy_mesh blk 0 0 n).
Proof.
  intros Hn H. unfold x3_faces. cbn [fold_left sides]. side_cases.
  - rewrite face_dir_nblevel_other by reflexivity.
    now apply face_dir_nblevel_own.
  - apply face_dir_nblevel_own.
    now rewrite face_dir_nblevel_other by reflexivity.
Qed.

(** The part of [search] after the faces leaves the centre and the face
    slots alone. *)
Lemma search_tail_axial k j i s :
  Window.axial k j i = true ->
  st_nblevel
    (if face_only pmy_mesh then s else
     let st := x1x2_edges FindBufferID pmy_mesh ranklist_ nslist_ blk s in
     if nx3 (block_size blk) =? 1 then st else
     let st := x1x3_edges FindBufferID pmy_mesh ranklist_ nslist_ blk st in
     let st := x2x3_edges FindBufferID pmy_mesh ranklist_ nslist_ blk st in
     corners FindBufferID pmy_mesh ranklist_ nslist_ blk st) k j i
  = st_nblevel s k j i.
Proof.
  intros Hax. destruct (face_only pmy_mesh); [reflexivity|]. cbv zeta.
  pose proof (edges_corners_keep_axial k j i Hax) as E.
  destruct (nx3 (block_size blk) =? 1).
  - apply E.
  - destruct (E (x2x3_edges FindBufferID pmy_mesh ranklist_ nslist_ blk
               (x1x3_edges FindBufferID pmy_mesh ranklist_ nslist_ blk
                 (x1x2_edges FindBufferID pmy_mesh ranklist_ nslist_ blk s))))
      as (_ & _ & _ & ->).
    destruct (E (x1x3_edges FindBufferID pmy_mesh ranklist_ nslist_ blk
                 (x1x2_edges FindBufferID pmy_mesh ranklist_ nslist_ blk s)))
      as (_ & _ & -> & _).
    destruct (E (x1x2_edges FindBufferID pmy_mesh ranklist_ nslist_ blk s))
      as (_ & -> & _ & _).
    apply E.
Qed.

Lemma search_init_nblevel k j i :
  st_nblevel (search_init blk) k j i
  = if (k =? 1) && (j =? 1) && (i =? 1) then level (loc blk) else -1.
Proof. reflexivity. Qed.

Lemma search_face_levels :
  let f := st_nblevel (search FindBufferID pmy_mesh ranklist_ nslist_ blk) in
  let two := negb (nx2 (block_size blk) =? 1) in
  let three := two && (1 <? nx3 (block_size blk)) in
  f 1 1 1 = level (loc blk) /\
  (forall n, In n sides ->
     f 1 1 (n + 1) = Window.level_seen (find pmy_mesh blk n 0 0)) /\
  (forall n, In n sides ->
     f 1 (n + 1) 1
     = if two then Window.level_seen (find pmy_mesh blk 0 n 0) else -1) /\
  (forall n, In n sides ->
     f (n + 1) 1 1
     = if three then Window.level_seen (find pmy_mesh blk 0 0 n) else -1).
Proof.
  cbv zeta. unfold search. cbv zeta.
  set (s1 := x1_faces FindBufferID pmy_mesh ranklist_ nslist_ blk (search_init blk)).
  assert (H1 : forall k j i, (k =? 1) && (j =? 1) && negb (i =? 1) = false ->
             st_nblevel s1 k j i = st_nblevel (search_init blk) k j i)
    by (intros; now apply x1_faces_nblevel_other).
  assert (O1 : forall n, In n sides ->
             st_nblevel s1 1 1 (n + 1) = Window.level_seen (find pmy_mesh blk n 0 0)).
  { intros n Hn. apply x1_faces_nblevel_own; [exact Hn|].
    rewrite search_init_nblevel. side_cases; reflexivity. }
  destruct (nx2 (block_size blk) =? 1); cbn [negb andb].
  { repeat split.
    - now rewrite H1.
    - exact O1.
    - intros n Hn. rewrite H1, search_init_nblevel; side_cases; reflexivity.
    - intros n Hn. rewrite H1, search_init_nblevel; side_cases; reflexivity. }
  set (s2 := x2_faces FindBufferID pmy_mesh ranklist_ nslist_ blk s1).
  assert (H2 : forall k j i, (k =? 1) && negb (j =? 1) && (i =? 1) = false ->
             st_nblevel s2 k j i = st_nblevel s1 k j i)
    by (intros; now apply x2_faces_nblevel_other).
  assert (O2 : forall n, In n sides ->
             st_nblevel s2 1 (n + 1) 1 = Window.level_seen (find pmy_mesh blk 0 n 0)).
  { intros n Hn. apply x2_faces_nblevel_own; [exact Hn|].
    rewrite H1, search_init_nblevel; side_cases; reflexivity. }
  set (s3 := if 1 <? nx3 (block_size blk)
             then x3_faces FindBufferID pmy_mesh ranklist_ nslist_ blk s2 else s2).
  assert (H3 : forall k j i, negb (k =? 1) && (j =? 1) && (i =? 1) = false ->
             st_nblevel s3 k j i = st_nblevel s2 k j i).
  { intros. unfold s3. destruct (1 <? nx3 (block_size blk)); [|reflexivity].
    now apply x3_faces_nblevel_other. }
  assert (O3 : forall n, In n sides ->
             st_nblevel s3 (n + 1) 1 1
             = if 1 <? nx3 (block_size blk)
               then Window.level_seen (find pmy_mesh blk 0 0 n) else -1).
  { intros n Hn. unfold s3. destruct (1 <? nx3 (block_size blk)).
    - apply x3_faces_nblevel_own; [exact Hn|].
      rewrite H2, H1, search_init_nblevel; side_cases; reflexivity.
    - rewrite H2, H1, search_init_nblevel; side_cases; reflexivity. }
  repeat split.
  - rewrite search_tail_axial by reflexivity. now rewrite H3, H2, H1.
  - intros n Hn. rewrite search_tail_axial by (side_cases; reflexivity).
    rewrite H3, H2 by (side_cases; reflexivity). now apply O1.
  - intros n Hn. rewrite search_tail_axial by (side_cases; reflexivity).
    rewrite H3 by (side_cases; reflexivity). now apply O2.
  - intros n Hn. rewrite search_tail_axial by (side_cases; reflexivity).
    now apply O3.
Qed.

(** X6. After [SearchAndSetNeighbors] the centre of the level map holds
    the block's own level and each face slot holds what the tree reported
    across that face: -1 for no neighbour, the neighbour's level for a
    leaf and one more for a refined node; the x2 slots stay -1 in one
    dimension and the x3 slots stay -1 below three dimensions. No edge or
    corner overwrites them. *)
Theorem SearchAndSetNeighbors_face_levels :
  let b := SearchAndSetNeighbors FindBufferID pmy_mesh ranklist_ nslist_ blk in
  let two := negb (nx2 (block_size blk) =? 1) in
  let three := two && (1 <? nx3 (block_size blk)) in
  nblevel b 1 1 1 = level (loc blk) /\
  (forall n, In n sides ->
     nblevel b 1 1 (n + 1) = Window.level_seen (find pmy_mesh blk n 0 0)) /\
  (forall n, In n sides ->
     nblevel b 1 (n + 1) 1
     = if two then Window.level_seen (find pmy_mesh blk 0 n 0) else -1) /\
  (forall n, In n sides ->
     nblevel b (n + 1) 1 1
     = if three then Window.level_seen (find pmy_mesh blk 0 0 n) else -1).
Proof. exact search_face_levels. Qed.

Lemma level_seen_absent (o : option TreeNode) :
  (forall nd, o = Some nd -> 0 <= level (node_loc nd)) ->
  negb (Window.level_seen o =? -1) = match o with Some _ => true | None => false end.
Proof.
  intros H. destruct o as [nd|]; [|reflexivity].
  specialize (H nd eq_refl). unfold Window.level_seen.
  destruct (flag nd); destruct (Z.eqb_spec (level (node_loc nd)) (-1));
    destruct (Z.eqb_spec (level (node_loc nd) + 1) (-1)); try reflexivity; lia.
Qed.

(** X7. When the levels the tree reports are not negative, the window
    [Mesh::Initialize] passes to [ConservedToPrimitive] after a neighbour
    search is the interior of the block pushed out by [NGHOST] on exactly
    the faces across which the tree has a neighbour; the x2 bounds of a
    1D block and the x3 bounds of a 1D or 2D block stay as constructed. *)
Theorem Initialize_window_after_search (NGHOST : Z) :
  (forall o1 o2 o3 nd, find pmy_mesh blk o1 o2 o3 = Some nd ->
                       0 <= level (node_loc nd)) ->
  let b := SearchAndSetNeighbors FindBufferID pmy_mesh ranklist_ nslist_ blk in
  let two := negb (nx2 (block_size blk) =? 1) in
  let three := two && (1 <? nx3 (block_size blk)) in
  let w := Window.widened NGHOST in
  Window.Initialize_window NGHOST b =
  let '(is_, ie, js, je, ks, ke) := Window.interior NGHOST (block_size blk) in
  (is_ - w (find pmy_mesh blk (-1) 0 0), ie + w (find pmy_mesh blk 1 0 0),
   js - (if two then w (find pmy_mesh blk 0 (-1) 0) else 0),
   je + (if two then w (find pmy_mesh blk 0 1 0) else 0),
   ks - (if three then w (find pmy_mesh blk 0 0 (-1)) else 0),
   ke + (if three then w (find pmy_mesh blk 0 0 1) else 0)).
Proof.
  intros Hlev. cbv zeta.
  destruct search_face_levels as (_ & F1 & F2 & F3).
  pose proof (F1 (-1) (or_introl eq_refl)) as A1.
  pose proof (F1 1 (or_intror (or_introl eq_refl))) as B1.
  pose proof (F2 (-1) (or_introl eq_refl)) as A2.
  pose proof (F2 1 (or_intror (or_introl eq_refl))) as B2.
  pose proof (F3 (-1) (or_introl eq_refl)) as A3.
  pose proof (F3 1 (or_intror (or_introl eq_refl))) as B3.
  cbn [Z.add Z.opp Pos.add Z.pos_sub Pos.succ] in A1, B1, A2, B2, A3, B3.
  unfold Window.Initialize_window, SearchAndSetNeighbors.
  cbn [block_size nblevel].
  destruct (Window.interior NGHOST (block_size blk)) as [[[[[is_ ie] js] je] ks] ke].
  rewrite A1, B1, A2, B2, A3, B3.
  destruct (negb (nx2 (block_size blk) =? 1)); cbn [andb];
    [destruct (1 <? nx3 (block_size blk))|];
    rewrite ?level_seen_absent by (intros nd; apply Hlev);
    cbn [Z.eqb Pos.eqb negb];
    repeat match goal with
           | |- context [find pmy_mesh blk ?a ?b ?c] =>
               destruct (find pmy_mesh blk a b c)
           end;
    cbn [Window.widened]; repeat f_equal; lia.
Qed.

End SearchMore.

(** The theorem at the first block of the two-block mesh with reflecting
    ends and two ghost cells: only the outer x1 face has a neighbour, so
    the window is cells 2 to 19 of the 20 stored ones. *)
Lemma Initialize_window_after_search_witness :
  Window.Initialize_window 2
    (Neighbors.SearchAndSetNeighbors Examples.FindBufferID_1d
       Examples.reflecting_mesh [0; 0] [0]
       (Examples.block1d 0 0 0 [1; -1; 0; 0; 0; 0]))
  = (2, 19, 0, 0, 0, 0).
Proof.
  refine (eq_trans
            (Initialize_window_after_search Examples.FindBufferID_1d
               Examples.reflecting_mesh [0; 0] [0]
               (Examples.block1d 0 0 0 [1; -1; 0; 0; 0; 0]) 2 _) _).
  - intros o1 o2 o3 nd. unfold Neighbors.find. cbn.
    destruct ((o2 =? 0) && (o3 =? 0)); [|discriminate].
    destruct (o1 =? 1); [|discriminate].
    intros H. injection H as <-. cbn. lia.
  - reflexivity.
Defined.

(** ** The entries of the neighbour list *)

Section SearchEntries.

Variable FindBufferID : Z -> Z -> Z -> Z -> Z -> Z -> Z.
Variable pmy_mesh : Mesh.
Variable ranklist_ nslist_ : list Z.
Variable blk : MeshBlock.

Import Neighbors.

Variable Q : NeighborBlock.t -> Prop.

Local Abbreviation covers := (Offsets.covers ranklist_ nslist_ Q).
Local Abbreviation good := (Offsets.all_entries Q).

Lemma push_good s nb : Q nb -> good s -> good (push s nb).
Proof.
  intros Hq Hs. unfold Offsets.all_entries, push. cbn [st_neighbor].
  apply Forall_app. split; [exact Hs|]. constructor; [exact Hq|constructor].
Qed.

Lemma push_finer_good o1 o2 o3 ty tbid nf f1 f2 s :
  covers ty o1 o2 o3 -> good s ->
  good (push_finer ranklist_ nslist_ o1 o2 o3 ty tbid nf f1 f2 s).
Proof.
  intros Hc Hs. unfold push_finer, advance. cbn [st_neighbor].
  apply (push_good s); [apply Hc|exact Hs].
Qed.

Lemma face_dir_good o1 o2 o3 leaf cf1 cf2 k j i n s :
  covers neighbor_face o1 o2 o3 -> good s ->
  good (face_dir FindBufferID pmy_mesh ranklist_ nslist_ blk
          o1 o2 o3 leaf cf1 cf2 k j i n s).
Proof.
  intros Hc Hs. unfold face_dir.
  destruct (find pmy_mesh blk o1 o2 o3) as [nd|]; [|exact Hs].
  destruct (flag nd); cbn [negb].
  - unfold advance. cbn [st_neighbor].
    apply (push_good (record_level s k j i _)); [apply Hc|exact Hs].
  - apply (fold_keeps good); [|exact Hs].
    intros s0 f2 _ H0. apply (fold_keeps good); [|exact H0].
    intros s1 f1 _ H1. now apply push_finer_good.
Qed.

Lemma edge_dir_good o1 o2 o3 leaf w cf1 mine k j i n m s :
  covers neighbor_edge o1 o2 o3 -> good s ->
  good (edge_dir FindBufferID pmy_mesh ranklist_ nslist_ blk
          o1 o2 o3 leaf w cf1 mine k j i n m s).
Proof.
  intros Hc Hs. unfold edge_dir.
  destruct (find pmy_mesh blk o1 o2 o3) as [nd|]; [|exact Hs].
  destruct (flag nd); cbn [negb].
  - unfold advance. cbn [st_neighbor].
    destruct (_ || mine); [|exact Hs].
    apply (push_good (record_level s k j i _)); [apply Hc|exact Hs].
  - apply (fold_keeps good); [|exact Hs].
    intros s1 f1 _ H1. now apply push_finer_good.
Qed.

Lemma corner_dir_good n m l s :
  covers neighbor_corner n m l -> good s ->
  good (corner_dir FindBufferID pmy_mesh ranklist_ nslist_ blk n m l s).
Proof.
  intros Hc Hs. unfold corner_dir.
  destruct (find pmy_mesh blk n m l) as [nd|]; [|exact Hs].
  destruct (if negb (flag nd) then _ else _) as [nloc nid].
  unfold advance. cbn [st_neighbor].
  destruct (_ || _); [|exact Hs].
  apply (push_good (record_level s _ _ _ _)); [apply Hc|exact Hs].
Qed.

(** [Q] holds of every entry of the list as soon as it is covered by the
    directions the search visits for this dimension and switch. *)
Lemma search_good :
  let two := negb (nx2 (block_size blk) =? 1) in
  let edges := two && negb (face_only pmy_mesh) in
  let all := edges && negb (nx3 (block_size blk) =? 1) in
  (forall n, In n sides -> covers neighbor_face n 0 0) ->
  (two = true -> forall n, In n sides -> covers neighbor_face 0 n 0) ->
  (two = true -> 1 < nx3 (block_size blk) ->
   forall n, In n sides -> covers neighbor_face 0 0 n) ->
  (edges = true -> forall n m, In n sides -> In m sides ->
                               covers neighbor_edge n m 0) ->
  (all = true -> forall n m, In n sides -> In m sides ->
     covers neighbor_edge n 0 m /\ covers neighbor_edge 0 n m) ->
  (all = true -> forall n m l, In n sides -> In m sides -> In l sides ->
     covers neighbor_corner n m l) ->
  good (search FindBufferID pmy_mesh ranklist_ nslist_ blk).
Proof.
  cbv zeta. intros F1 F2 F3 E1 E2 C. unfold search. cbv zeta.
  assert (G1 : good (x1_faces FindBufferID pmy_mesh ranklist_ nslist_ blk
                       (search_init blk))).
  { unfold x1_faces. apply (fold_keeps good); [|constructor].
    intros s n Hn Hs. apply face_dir_good; auto. }
  destruct (nx2 (block_size blk) =? 1); [exact G1|]. cbn [negb andb] in *.
  specialize (F2 eq_refl). specialize (F3 eq_refl).
  assert (G2 : good (x2_faces FindBufferID pmy_mesh ranklist_ nslist_ blk
                 (x1_faces FindBufferID pmy_mesh ranklist_ nslist_ blk
                    (search_init blk)))).
  { unfold x2_faces. apply (fold_keeps good); [|exact G1].
    intros s n Hn Hs. apply face_dir_good; auto. }
  match goal with
  | |- context [if 1 <? ?x then ?a else ?b] =>
      assert (G3 : good (if 1 <? x then a else b))
  end.
  { destruct (Z.ltb_spec 1 (nx3 (block_size blk))); [|exact G2].
    unfold x3_faces. apply (fold_keeps good); [|exact G2].
    intros s n Hn Hs. apply face_dir_good; auto. }
  destruct (face_only pmy_mesh); [exact G3|]. cbn [negb andb] in *.
  specialize (E1 eq_refl).
  match goal with
  | |- context [x1x2_edges ?a ?b ?c ?d ?e ?s] =>
      assert (G4 : good (x1x2_edges a b c d e s))
  end.
  { unfold x1x2_edges. apply (fold_keeps good); [|exact G3].
    intros s0 m Hm H0. apply (fold_keeps good); [|exact H0].
    intros s n Hn Hs. apply edge_dir_good; auto. }
  destruct (nx3 (block_size blk) =? 1); [exact G4|]. cbn [negb] in *.
  specialize (E2 eq_refl). specialize (C eq_refl).
  unfold corners. apply (fold_keeps good).
  { intros s0 l Hl H0. apply (fold_keeps good); [|exact H0].
    intros s1 m Hm H1. apply (fold_keeps good); [|exact H1].
    intros s n Hn Hs. apply corner_dir_good; auto. }
  unfold x2x3_edges. apply (fold_keeps good).
  { intros s0 m Hm H0. apply (fold_keeps good); [|exact H0].
    intros s n Hn Hs. apply edge_dir_good; [apply E2|]; auto. }
  unfold x1x3_edges. apply (fold_keeps good); [|exact G4].
  intros s0 m Hm H0. apply (fold_keeps good); [|exact H0].
  intros s n Hn Hs. apply edge_dir_good; [apply E2|]; auto.
Qed.

End SearchEntries.

Lemma SetNeighbor_consistent rl sl ty o1 o2 o3 :
  Offsets.direction_of ty o1 o2 o3 = true ->
  Offsets.covers rl sl Offsets.consistent ty o1 o2 o3.
Proof.
  intros H l g b t f1 f2. split; [exact H|].
  destruct (direction_of_units _ _ _ _ H) as (U1 & U2 & U3).
  offsets_cases; destruct ty; try discriminate H; cbn;
    try discriminate; try exact I; (eexists; split; [reflexivity|lia]).
Qed.

Lemma sides_cases n : In n Neighbors.sides -> n = -1 \/ n = 1.
Proof. intros [<-|[<-|[]]]; auto. Qed.

Ltac on_sides :=
  repeat match goal with
         | H : In _ Neighbors.sides |- _ =>
             apply sides_cases in H; destruct H as [ -> | -> ]
         end.

(** X8. Every entry [SearchAndSetNeighbors] writes is a well-formed
    descriptor: its three offsets are -1, 0 or 1 with one, two or three
    of them not 0 according to its type (face, edge, corner), and the
    face or edge tag of that type is set. A one-dimensional block gets
    x1 faces only; with [face_only] every entry is a face; with a single
    cell in x3 no entry leaves the plane. *)
Theorem SearchAndSetNeighbors_entries
    (FindBufferID : Z -> Z -> Z -> Z -> Z -> Z -> Z) (pmy_mesh : Mesh)
    (ranklist_ nslist_ : list Z) (blk : MeshBlock) :
  let b := Neighbors.SearchAndSetNeighbors FindBufferID pmy_mesh ranklist_ nslist_ blk in
  Forall Offsets.consistent (neighbor b) /\
  (nx2 (block_size blk) = 1 ->
   Forall (fun nb => NeighborBlock.type nb = neighbor_face /\
                     NeighborBlock.ox2 nb = 0 /\ NeighborBlock.ox3 nb = 0)
          (neighbor b)) /\
  (face_only pmy_mesh = true ->
   Forall (fun nb => NeighborBlock.type nb = neighbor_face) (neighbor b)) /\
  (nx3 (block_size blk) = 1 ->
   Forall (fun nb => NeighborBlock.ox3 nb = 0) (neighbor b)).
Proof.
  cbv zeta. unfold Neighbors.SearchAndSetNeighbors. cbn [neighbor].
  repeat split.
  - apply search_good; cbv zeta; intros;
      try match goal with |- _ /\ _ => split end;
      apply SetNeighbor_consistent; on_sides; reflexivity.
  - intros H1. apply search_good; cbv zeta; rewrite ?H1;
      cbn [Z.eqb Pos.eqb negb andb]; try (intros ?; discriminate).
    intros n Hn l g b t f1 f2. cbn. auto.
  - intros Hf. apply search_good; cbv zeta; rewrite ?Hf;
      cbn [negb]; rewrite ?andb_false_r; try (intros ?; discriminate);
      intros; intros l g b t f1 f2; reflexivity.
  - intros H3. apply search_good; cbv zeta; rewrite ?H3;
      cbn [Z.eqb Pos.eqb negb]; rewrite ?andb_false_r;
      try (intros ?; discriminate); try (intros; lia);
      intros; intros l g b t f1 f2; reflexivity.
Qed.

(** The theorem at the second of the four blocks of the periodic 2x2
    mesh, which exchanges faces only: four faces, all in the plane. *)
Lemma SearchAndSetNeighbors_entries_witness :
  let b := Neighbors.SearchAndSetNeighbors Examples.FindBufferID_1d
             (Examples.mesh2d [Examples.block2d 0 0; Examples.block2d 1 0;
                               Examples.block2d 2 0; Examples.block2d 3 0])
             [0; 0; 0; 0] [0] (Examples.block2d 1 0) in
  length (neighbor b) = 4%nat /\
  Forall Offsets.consistent (neighbor b) /\
  Forall (fun nb => NeighborBlock.type nb = neighbor_face) (neighbor b) /\
  Forall (fun nb => NeighborBlock.ox3 nb = 0) (neighbor b).
Proof.
  pose proof (SearchAndSetNeighbors_entries Examples.FindBufferID_1d
             (Examples.mesh2d [Examples.block2d 0 0; Examples.block2d 1 0;
                               Examples.block2d 2 0; Examples.block2d 3 0])
             [0; 0; 0; 0] [0] (Examples.block2d 1 0)) as H.
  cbv zeta in *. destruct H as (Hc & _ & Hf & H3).
  split; [reflexivity|]. split; [exact Hc|].
  split; [apply Hf|apply H3]; reflexivity.
Defined.

(** The face-level theorem at the first block of the two-block mesh with
    reflecting ends: nothing across the inner x1 face, a level-1 leaf
    across the outer one. *)
Lemma SearchAndSetNeighbors_face_levels_witness :
  let b := Neighbors.SearchAndSetNeighbors Examples.FindBufferID_1d
             Examples.reflecting_mesh [0; 0] [0]
             (Examples.block1d 0 0 0 [1; -1; 0; 0; 0; 0]) in
  nblevel b 1 1 0 = -1 /\ nblevel b 1 1 1 = 1 /\ nblevel b 1 1 2 = 1 /\
  nblevel b 1 0 1 = -1.
Proof.
  pose proof (SearchAndSetNeighbors_face_levels Examples.FindBufferID_1d
                Examples.reflecting_mesh [0; 0] [0]
                (Examples.block1d 0 0 0 [1; -1; 0; 0; 0; 0])) as H.
  cbv zeta in *. destruct H as (Hc & H1 & H2 & _).
  split; [exact (H1 (-1) (or_introl eq_refl))|].
  split; [exact Hc|].
  split; [exact (H1 1 (or_intror (or_introl eq_refl)))|].
  exact (H2 (-1) (or_introl eq_refl)).
Defined.

(** ** The refinement cycle as a whole *)

Section CycleMore.

Import Refinement.

Variable FindBufferID : Z -> Z -> Z -> Z -> Z -> Z -> Z.
Variable Greater : LogicalLocation -> LogicalLocation -> bool.

Lemma fold_add_shift (l : list Z) : forall a,
  fold_left Z.add l a = a + fold_left Z.add l 0.
Proof.
  induction l as [|x l IH]; intros a; simpl; [lia|].
  rewrite (IH (a + x)), (IH x). lia.
Qed.

(** The counting loop and the prefix sums: the total is the number of
    blocks of all ranks that carry the flag. *)
Lemma total_count v (all : list (list MeshBlock)) :
  fold_left Z.add (map (count_flag v) all) 0
  = Z.of_nat (length (Flags.flagged v all)).
Proof.
  unfold Flags.flagged.
  induction all as [|bl all IH]; [reflexivity|].
  cbn [map fold_left concat]. rewrite fold_add_shift, IH.
  rewrite filter_app, length_app, Nat2Z.inj_add. unfold count_flag. lia.
Qed.

Lemma gathered {A} (f : MeshBlock -> A) v (all : list (list MeshBlock)) :
  MPI_Allgatherv (map (fun bl => map f (filter (fun b => refine_flag_ b =? v) bl)) all)
  = map f (Flags.flagged v all).
Proof.
  unfold MPI_Allgatherv, Flags.flagged.
  induction all as [|bl all IH]; [reflexivity|].
  cbn [map concat]. rewrite IH, filter_app, map_app. reflexivity.
Qed.

(** The three loops visit at most [minbl] offsets, and exactly [minbl]
    unless the mesh is an x1-x3 plane (which the constructor refuses). *)
Lemma offsets_le_minbl ms :
  Z.of_nat (length (offsets (ke_of ms) (je_of ms))) <= minbl_of ms.
Proof.
  unfold minbl_of, ke_of, je_of.
  destruct (1 <? nx2 ms), (1 <? nx3 ms); apply Z.leb_le; reflexivity.
Qed.

Lemma minbl_offsets ms :
  (1 < nx3 ms -> 1 < nx2 ms) ->
  minbl_of ms = Z.of_nat (length (offsets (ke_of ms) (je_of ms))).
Proof.
  unfold minbl_of, ke_of, je_of. intros H.
  destruct (Z.ltb_spec 1 (nx2 ms)), (Z.ltb_spec 1 (nx3 ms)); try reflexivity; lia.
Qed.

Lemma offsets_head ms :
  exists rest, offsets (ke_of ms) (je_of ms) = (0, 0, 0) :: rest.
Proof.
  unfold ke_of, je_of.
  destruct (1 <? nx2 ms), (1 <? nx3 ms); eexists; reflexivity.
Qed.

Lemma read_nth ld i x :
  read (Some ld) i = Done x -> 0 <= i /\ nth_error ld (Z.to_nat i) = Some x.
Proof.
  unfold read. destruct (Z.ltb_spec i 0); [discriminate|].
  destruct (nth_error ld (Z.to_nat i)) eqn:E; [|discriminate].
  intros Hd. injection Hd as <-. split; [lia|reflexivity].
Qed.

Lemma is_sibling_same base x : is_sibling base (0, 0, 0) x = true -> x = base.
Proof.
  intros H. apply is_sibling_spec in H; [|assumption..].
  destruct H as (H1 & H2 & H3 & H4). destruct x, base. cbn [lx1 lx2 lx3 level] in *. f_equal; lia.
Qed.

(** On a list without repetitions the entry after a candidate is not the
    candidate itself, the first offset finds no match and the count stays
    below [minbl]: no parent is accepted. *)
Lemma collect_derefined_distinct (ld : list LogicalLocation) ms :
  NoDup ld ->
  forall ns acc cl,
    collect_derefined (Some ld) (minbl_of ms) (ke_of ms) (je_of ms) ns acc = Done cl ->
    cl = acc.
Proof.
  intros Hnd. destruct (offsets_head ms) as [rest Ho].
  pose proof (offsets_le_minbl ms) as Hm. rewrite Ho in Hm. cbn [length] in Hm.
  induction ns as [|n ns IH]; intros acc cl H.
  - simpl in H. now injection H as <-.
  - rewrite collect_derefined_cons in H.
    destruct (read (Some ld) n) as [x|] eqn:Er; cbn [obind] in H; [|discriminate].
    destruct (aligned x); [|now apply IH].
    rewrite Ho in H. cbn [count_siblings] in H.
    destruct (read (Some ld) (n + 1)) as [y|] eqn:Ey; cbn [obind] in H; [|discriminate].
    destruct (is_sibling x (0, 0, 0) y) eqn:Es.
    + exfalso. apply is_sibling_same in Es. subst y.
      apply read_nth in Er. apply read_nth in Ey.
      destruct Er as [Hn Er], Ey as [_ Ey].
      assert (Hlt : (Z.to_nat n < length ld)%nat)
        by (apply nth_error_Some; congruence).
      pose proof (proj1 (NoDup_nth_error ld) Hnd _ _ Hlt (eq_trans Er (eq_sym Ey))).
      lia.
    + destruct (count_siblings (Some ld) x rest (n + 1 + 1) 0) as [rr|] eqn:Ec;
        cbn [obind] in H; [|discriminate].
      apply count_siblings_bound in Ec. destruct Ec as [Hle _].
      destruct (Z.eqb_spec rr (minbl_of ms)); [lia|]. now apply IH.
Qed.

(** Reading [n] entries from [r] on runs off a list shorter than [r + n]. *)
Lemma count_siblings_overrun ld base : forall offs r rr,
  offs <> [] -> 0 <= r ->
  Z.of_nat (length ld) < r + Z.of_nat (length offs) ->
  count_siblings (Some ld) base offs r rr = Fault.
Proof.
  induction offs as [|o offs IH]; intros r rr Hne Hr Hlen; [congruence|].
  cbn [count_siblings]. unfold read at 1.
  destruct (Z.ltb_spec r 0); [reflexivity|].
  destruct (nth_error ld (Z.to_nat r)) as [x|] eqn:E; [|reflexivity].
  cbn [obind].
  assert ((Z.to_nat r < length ld)%nat) by (apply nth_error_Some; congruence).
  apply IH.
  - destruct offs; [cbn [length] in Hlen; lia|discriminate].
  - lia.
  - cbn [length] in Hlen. lia.
Qed.

Lemma collect_derefined_overrun (ld : list LogicalLocation) ms n x :
  (1 < nx3 ms -> 1 < nx2 ms) ->
  nth_error ld (Z.to_nat n) = Some x -> 0 <= n ->
  aligned x = true ->
  Z.of_nat (length ld) - minbl_of ms <= n ->
  forall ns acc, In n ns ->
    collect_derefined (Some ld) (minbl_of ms) (ke_of ms) (je_of ms) ns acc = Fault.
Proof.
  intros Hms Hx Hn Ha Hlen. induction ns as [|k ns IH]; intros acc []; subst.
  - rewrite collect_derefined_cons. unfold read at 1.
    destruct (Z.ltb_spec n 0); [lia|]. rewrite Hx. cbn [obind]. rewrite Ha.
    rewrite count_siblings_overrun; [reflexivity| |lia|].
    + destruct (offsets_head ms) as [rest ->]. discriminate.
    + rewrite <- minbl_offsets by exact Hms. lia.
  - rewrite collect_derefined_cons.
    destruct (read (Some ld) k) as [y|]; cbn [obind]; [|reflexivity].
    destruct (aligned y); [|now apply IH].
    destruct (count_siblings _ _ _ _ _); cbn [obind]; [|reflexivity].
    now apply IH.
Qed.

Lemma in_upto n k : 0 <= k < n -> In k (Neighbors.upto n).
Proof.
  intros H. unfold Neighbors.upto. apply in_map_iff.
  exists (Z.to_nat k). split; [lia|]. apply in_seq. lia.
Qed.

(** The search reads the block's location, size and boundary flags and
    nothing else of it. *)
Lemma search_ext m rl sl b1 b2 :
  loc b1 = loc b2 -> block_size b1 = block_size b2 ->
  block_bcs b1 = block_bcs b2 ->
  Neighbors.search FindBufferID m rl sl b1 = Neighbors.search FindBufferID m rl sl b2.
Proof.
  intros Hl Hs Hb.
  unfold Neighbors.search, Neighbors.x1_faces, Neighbors.x2_faces,
    Neighbors.x3_faces, Neighbors.x1x2_edges, Neighbors.x1x3_edges,
    Neighbors.x2x3_edges, Neighbors.corners, Neighbors.face_dir,
    Neighbors.edge_dir, Neighbors.corner_dir, Neighbors.find, Neighbors.nf1,
    Neighbors.nf2, Neighbors.myfx1, Neighbors.myfx2, Neighbors.myfx3,
    Neighbors.myox1, Neighbors.myox2, Neighbors.myox3, Neighbors.search_init.
  rewrite Hl, Hs, Hb. reflexivity.
Qed.

(** A second search of the same block over the same tree changes
    nothing: the table, the counters and the level map are rebuilt from
    scratch at every call. *)
Lemma SearchAndSetNeighbors_again m rl sl b :
  let S := Neighbors.SearchAndSetNeighbors FindBufferID m rl sl in
  S (S b) = S b.
Proof.
  cbv zeta. set (b' := Neighbors.SearchAndSetNeighbors FindBufferID m rl sl b).
  unfold Neighbors.SearchAndSetNeighbors.
  rewrite (search_ext m rl sl b' b) by reflexivity.
  reflexivity.
Qed.

Lemma reinitialize_head m first rest : forall pmb ev,
  pmb <> [] ->
  reinitialize FindBufferID m pmb (first :: rest) ev
  = (Neighbors.SearchAndSetNeighbors FindBufferID m (ranklist m) (nslist m) first
       :: rest,
     ev ++ map (fun _ => EvSearchAndSetNeighbors (gid first)) pmb).
Proof.
  assert (G : forall pmb (b : MeshBlock) ev,
    (gid b = gid first /\
     Neighbors.SearchAndSetNeighbors FindBufferID m (ranklist m) (nslist m) b
     = Neighbors.SearchAndSetNeighbors FindBufferID m (ranklist m) (nslist m) first) ->
    reinitialize FindBufferID m pmb (b :: rest) ev
    = (match pmb with
       | [] => b
       | _ :: _ => Neighbors.SearchAndSetNeighbors FindBufferID m (ranklist m)
                     (nslist m) first
       end :: rest,
       ev ++ map (fun _ => EvSearchAndSetNeighbors (gid first)) pmb)).
  { induction pmb as [|p pmb IH]; intros b ev [Hg Hs].
    - cbn. now rewrite app_nil_r.
    - cbn [reinitialize map]. rewrite IH.
      + rewrite Hg, Hs, <- app_assoc. destruct pmb; reflexivity.
      + split; [rewrite <- Hg; reflexivity|].
        rewrite <- Hs. apply SearchAndSetNeighbors_again. }
  intros pmb ev Hne. rewrite G by (split; reflexivity).
  destruct pmb; [congruence|reflexivity].
Qed.

Lemma gathered_lref all : MPI_Allgatherv (map local_lref all) = map loc (Flags.flagged 1 all).
Proof. exact (gathered loc 1 all). Qed.

Lemma gathered_fref all :
  MPI_Allgatherv (map local_fref all) = map neighbor_rflag_ (Flags.flagged 1 all).
Proof. exact (gathered neighbor_rflag_ 1 all). Qed.

Lemma gathered_lderef all :
  MPI_Allgatherv (map local_lderef all) = map loc (Flags.flagged (-1) all).
Proof. exact (gathered loc (-1) all). Qed.

Lemma reinitialize_all m :
  reinitialize FindBufferID m (pblock m) (pblock m) []
  = (Flags.head_searched FindBufferID m,
     map (fun _ => EvSearchAndSetNeighbors (Flags.head_gid m)) (pblock m)).
Proof.
  unfold Flags.head_searched, Flags.head_gid.
  destruct (pblock m) as [|first rest]; [reflexivity|].
  rewrite reinitialize_head by discriminate. reflexivity.
Qed.

Lemma MeshRefinement_totals before after m m' rep :
  MeshRefinement FindBufferID Greater before after m = Done (m', rep) ->
  let all := before ++ [pblock m] ++ after in
  tnref rep = Z.of_nat (length (Flags.flagged 1 all)) /\
  tnderef rep = Z.of_nat (length (Flags.flagged (-1) all)).
Proof.
  intros H all. revert H. unfold MeshRefinement. fold all.
  rewrite !total_count.
  destruct (_ && _) eqn:Eq.
  - intros H. injection H as <- <-. cbn [tnref tnderef].
    apply andb_true_iff in Eq. rewrite !Z.eqb_eq in Eq. lia.
  - destruct (collect_derefined _ _ _ _ _ _); cbn [obind]; [|discriminate].
    destruct (reinitialize _ _ _ _ _). intros H. injection H as <- <-.
    split; reflexivity.
Qed.

(** X9. A cycle in which no block of any rank raises a flag returns at
    once: the mesh is as it was, nothing is listed and neither a
    neighbour search nor [Initialize] runs. *)
Theorem MeshRefinement_no_flags before after m :
  let all := before ++ [pblock m] ++ after in
  Flags.flagged 1 all = [] -> Flags.flagged (-1) all = [] ->
  MeshRefinement FindBufferID Greater before after m
  = Done (m, mkReport 0 0 [] [] [] []).
Proof.
  intros all H1 H2. unfold MeshRefinement. fold all.
  rewrite !total_count, H1, H2. reflexivity.
Qed.



(** X12. When the locations of the blocks flagged for derefinement are
    pairwise different, as the leaves of a tree are, a cycle that returns
    has accepted no parent: the inner loop compares a candidate first
    with the entry that follows it ([r = n+1]) under the offset (0,0,0),
    which can only match a copy of the candidate, so the count never
    reaches [minbl]. *)
Theorem MeshRefinement_accepts_no_parent before after m m' rep :
  let all := before ++ [pblock m] ++ after in
  NoDup (map loc (Flags.flagged (-1) all)) ->
  MeshRefinement FindBufferID Greater before after m = Done (m', rep) ->
  clderef rep = [].
Proof.
  intros all Hnd. unfold MeshRefinement. fold all.
  destruct (_ && _).
  - intros H. injection H as <- <-. reflexivity.
  - rewrite gathered_lderef.
    destruct (minbl_of (mesh_size m) <? _).
    + destruct (collect_derefined _ _ _ _ _ _) as [cl|] eqn:Ec; cbn [obind];
        [|discriminate].
      apply collect_derefined_distinct in Ec; [|exact Hnd]. subst cl.
      destruct (reinitialize _ _ _ _ _). intros H. injection H as <- <-.
      reflexivity.
    + destruct (Neighbors.upto _) as [|n ns]; cbn [collect_derefined obind read].
      * destruct (reinitialize _ _ _ _ _). intros H. injection H as <- <-.
        reflexivity.
      * discriminate.
Qed.

(** X13. A cycle with an aligned location (all three indices even) among
    the last [minbl] of the locations flagged for derefinement does not
    return: the inner loop walks [r] over the [minbl] entries after the
    candidate and reads [lderef] past its end (or, when no more than
    [minbl] blocks are flagged, reads the array that was never
    allocated). *)
Theorem MeshRefinement_overruns_lderef before after m n x :
  let all := before ++ [pblock m] ++ after in
  let ld := map loc (Flags.flagged (-1) all) in
  (1 < nx3 (mesh_size m) -> 1 < nx2 (mesh_size m)) ->
  nth_error ld n = Some x -> aligned x = true ->
  (length ld <= n + Z.to_nat (minbl_of (mesh_size m)))%nat ->
  MeshRefinement FindBufferID Greater before after m = Fault.
Proof.
  intros all ld Hms Hx Ha Hlen. unfold MeshRefinement. fold all.
  assert (Hn : (n < length ld)%nat) by (apply nth_error_Some; congruence).
  rewrite !total_count, gathered_lderef. fold ld.
  assert (El : length (Flags.flagged (-1) all) = length ld)
    by (unfold ld; now rewrite length_map).
  rewrite El.
  destruct (Z.eqb_spec (Z.of_nat (length ld)) 0) as [E|E]; [lia|].
  rewrite andb_false_r.
  destruct (Z.ltb_spec (minbl_of (mesh_size m)) (Z.of_nat (length ld))).
  - rewrite (collect_derefined_overrun ld (mesh_size m) (Z.of_nat n) x);
      try reflexivity; try assumption; try lia.
    + now rewrite Nat2Z.id.
    + apply in_upto. lia.
  - destruct (upto_pos (Z.of_nat (length ld))) as [ns ->]; [lia|]. reflexivity.
Qed.

End CycleMore.

(** The theorem on the periodic two-block mesh, where no block is
    flagged. *)
Lemma MeshRefinement_no_flags_witness :
  Refinement.MeshRefinement Examples.FindBufferID_1d Examples.Greater_by_level
    [] [] Examples.periodic_mesh
  = Done (Examples.periodic_mesh, Refinement.mkReport 0 0 [] [] [] []).
Proof.
  apply (MeshRefinement_no_flags Examples.FindBufferID_1d Examples.Greater_by_level
           [] [] Examples.periodic_mesh); reflexivity.
Defined.



(** The theorem on three blocks at x1 = 0, 1, 3, all flagged for
    derefinement: the cycle returns and accepts nothing, although blocks 0
    and 1 are a complete pair of siblings. *)
Lemma MeshRefinement_accepts_no_parent_witness :
  exists m' rep,
    Refinement.MeshRefinement Examples.FindBufferID_1d Examples.Greater_by_level
      [] [] (Examples.derefine_three_1d 3) = Done (m', rep) /\
    Refinement.tnderef rep = 3 /\ Refinement.clderef rep = [].
Proof.
  destruct (Refinement.MeshRefinement Examples.FindBufferID_1d
              Examples.Greater_by_level [] [] (Examples.derefine_three_1d 3))
    as [[m' rep]|] eqn:E; [|vm_compute in E; discriminate].
  exists m', rep. split; [reflexivity|]. split.
  - destruct (MeshRefinement_totals _ _ _ _ _ _ _ E) as (_ & ->). reflexivity.
  - apply (MeshRefinement_accepts_no_parent _ _ _ _ _ _ _) with (2 := E).
    vm_compute. repeat constructor; cbn; intros H;
      repeat (destruct H as [H|H]; [discriminate H|]); exact H.
Defined.

(** The theorem on three blocks at x1 = 0, 1, 2, all flagged: the last
    location is aligned and the inner loop reads [lderef[3]]. *)
Lemma MeshRefinement_overruns_lderef_witness :
  Refinement.MeshRefinement Examples.FindBufferID_1d Examples.Greater_by_level
    [] [] (Examples.derefine_three_1d 2) = Fault.
Proof.
  apply (MeshRefinement_overruns_lderef Examples.FindBufferID_1d
           Examples.Greater_by_level [] [] (Examples.derefine_three_1d 2)
           2%nat (Examples.loc1d 1 2)).
  - cbn. lia.
  - reflexivity.
  - reflexivity.
  - vm_compute. lia.
Defined.

(** ** Equal costs: every rank owns a run *)

Section BalancerEqualCosts.

Import Balancer Runs RunCounts.

Variable c : Real.
Hypothesis cpos : (0 < c)%Q.

(** The test [mycost >= targetcost] on multiples of [c] is a test on
    block counts. *)
Lemma test_on_counts (N b : nat) (J : Z) (G X : Q) :
  0 < J ->
  (G == nat_scale N c / inject_Z J)%Q -> (X == nat_scale b c)%Q ->
  Qle_bool G X = (Z.of_nat N <=? Z.of_nat b * J).
Proof.
  intros HJ HG HX.
  pose proof (inject_Z_pos J HJ) as HJq.
  assert (Hm : (inject_Z (Z.of_nat b * J) == inject_Z (Z.of_nat b) * inject_Z J)%Q)
    by (rewrite inject_Z_mult; reflexivity).
  destruct (Z.leb_spec (Z.of_nat N) (Z.of_nat b * J)) as [H|H].
  - apply Qle_bool_true. rewrite HG, HX.
    apply Qle_shift_div_r; [exact HJq|].
    rewrite Zle_Qle, Hm in H. unfold nat_scale. nra.
  - apply Qle_bool_false. rewrite HG, HX.
    apply Qlt_shift_div_l; [exact HJq|].
    rewrite Zlt_Qlt, Hm in H. unfold nat_scale. nra.
Qed.

Lemma last_repeat {A} (x d : A) n : last (repeat x (S n)) d = x.
Proof. induction n as [|n IH]; [reflexivity|exact IH]. Qed.

Lemma last_cons_nonempty {A} (x d : A) l : l <> [] -> last (x :: l) d = last l d.
Proof. destruct l; [congruence|reflexivity]. Qed.

Lemma last_app_nonempty {A} (a b : list A) d : b <> [] -> last (a ++ b) d = last b d.
Proof.
  intros Hb. induction a as [|x a IH]; [reflexivity|].
  cbn [app]. rewrite last_cons_nonempty; [exact IH|].
  destruct a; [exact Hb|discriminate].
Qed.

Lemma nat_scale_add a b : (nat_scale (a + b) c == nat_scale a c + nat_scale b c)%Q.
Proof.
  unfold nat_scale. rewrite Nat2Z.inj_add, inject_Z_plus. ring.
Qed.

(** With [a] blocks of the current rank in hand, fewer than its share,
    and at least as many blocks left as ranks, the sweep comes down to
    rank 0. *)
Lemma sweep_equal_costs_last : forall cs j (a : nat) T M G,
  Forall (fun x => x == c)%Q cs -> cs <> [] -> 0 <= j ->
  (T == nat_scale (length cs + a) c)%Q -> (M == nat_scale a c)%Q ->
  (G == T / inject_Z (j + 1))%Q ->
  j + 1 <= Z.of_nat (length cs + a) ->
  Z.of_nat a * (j + 1) < Z.of_nat (length cs + a) ->
  last (sweep cs j T M G) 0 = 0.
Proof.
  induction cs as [|x cs IH]; intros j a T M G Hc Hne Hj HT HM HG Hn Ha;
    [congruence|].
  apply Forall_cons_iff in Hc. destruct Hc as [Hx Hc].
  destruct (Z.eq_dec j 0) as [->|Hj0].
  { rewrite sweep_rank0. cbn [length]. apply last_repeat. }
  rewrite sweep_cons.
  assert (Hmx : (M + x == nat_scale (S a) c)%Q)
    by (rewrite HM, Hx, nat_scale_S; reflexivity).
  assert (HG' : (G == nat_scale (length (x :: cs) + a) c / inject_Z (j + 1))%Q)
    by (rewrite HG, HT; reflexivity).
  rewrite (test_on_counts _ _ (j + 1) _ _ ltac:(lia) HG' Hmx).
  cbn [length] in *.
  destruct (Z.leb_spec (Z.of_nat (S (length cs) + a)) (Z.of_nat (S a) * (j + 1)))
    as [Hs|Hs]; cbn [andb].
  - destruct (Z.ltb_spec 0 j); [|lia].
    assert (Hcs : j <= Z.of_nat (length cs)) by nia.
    assert (Hne' : cs <> []) by (destruct cs; [cbn in Hcs; lia|discriminate]).
    rewrite last_cons_nonempty
      by (intros E; apply (f_equal (@length Z)) in E;
          rewrite sweep_length in E; destruct cs; [congruence|discriminate]).
    apply (IH (j - 1) 0%nat); try assumption; try lia.
    + rewrite HT, Hmx. rewrite Nat.add_0_r.
      replace (S (length cs) + a)%nat with (length cs + S a)%nat by lia.
      rewrite nat_scale_add. ring.
    + rewrite nat_scale_0. reflexivity.
    + replace (j - 1 + 1) with j by lia. reflexivity.
  - assert (Hne' : cs <> []).
    { destruct cs; [|discriminate]. cbn [length] in Hs. nia. }
    rewrite last_cons_nonempty
      by (intros E; apply (f_equal (@length Z)) in E;
          rewrite sweep_length in E; destruct cs; [congruence|discriminate]).
    apply (IH j (S a)); try assumption; try lia.
    rewrite HT. replace (S (length cs) + a)%nat with (length cs + S a)%nat by lia.
    reflexivity.
Qed.

Lemma last_runs_down lens : forall j,
  lens <> [] -> Forall (fun l => 1 <= l)%nat lens ->
  last (runs_down j lens) 0 = j - Z.of_nat (length lens) + 1.
Proof.
  induction lens as [|l ls IH]; intros j Hne Hf; [congruence|].
  apply Forall_cons_iff in Hf. destruct Hf as [Hl Hf].
  cbn [runs_down length]. destruct ls as [|l' ls].
  - cbn [runs_down]. rewrite app_nil_r.
    destruct l as [|l]; [lia|]. rewrite last_repeat. cbn [length]. lia.
  - rewrite last_app_nonempty.
    + rewrite IH by (discriminate || assumption). cbn [length]. lia.
    + apply Forall_cons_iff in Hf. destruct Hf as [Hl' _].
      destruct l'; [lia|]. cbn [runs_down repeat app]. discriminate.
Qed.

End BalancerEqualCosts.

Section RunsIndexing.

Import Balancer Runs RunCounts.

Lemma run_starts_ge lens : forall s t,
  (t < length lens)%nat -> s <= nth t (run_starts s lens) 0.
Proof.
  induction lens as [|l ls IH]; intros s [|t] H; cbn [length] in H; try lia.
  - cbn. lia.
  - cbn [run_starts nth]. specialize (IH (s + Z.of_nat l) t ltac:(lia)). lia.
Qed.

Lemma run_starts_next lens : forall s t,
  (S t < length lens)%nat ->
  nth (S t) (run_starts s lens) 0
  = nth t (run_starts s lens) 0 + Z.of_nat (nth t lens 0%nat).
Proof.
  induction lens as [|l ls IH]; intros s [|t] H; cbn [length] in H; try lia.
  - destruct ls; [cbn [length] in H; lia|]. reflexivity.
  - cbn [run_starts nth]. apply IH. lia.
Qed.

Lemma run_starts_end lens : forall s,
  lens <> [] ->
  nth (length lens - 1) (run_starts s lens) 0
  + Z.of_nat (nth (length lens - 1) lens 0%nat) = s + total lens.
Proof.
  unfold total. induction lens as [|l ls IH]; intros s Hne; [congruence|].
  destruct ls as [|l' ls].
  - cbn. lia.
  - cbn [length]. replace (S (S (length ls)) - 1)%nat with (S (length ls)) by lia.
    cbn [run_starts nth fold_right] in *.
    specialize (IH (s + Z.of_nat l) ltac:(discriminate)).
    cbn [length] in IH. replace (S (length ls) - 1)%nat with (length ls) in IH by lia.
    rewrite IH. lia.
Qed.

(** The run that block [i] falls in is the run of its rank. *)
Lemma runs_from_owner lens : forall s r0 (t i : nat),
  (t < length lens)%nat ->
  nth t (run_starts s lens) 0 <= s + Z.of_nat i
    < nth t (run_starts s lens) 0 + Z.of_nat (nth t lens 0%nat) ->
  nth i (runs_from r0 lens) 0 = r0 + Z.of_nat t.
Proof.
  induction lens as [|l ls IH]; intros s r0 t i Ht Hi; cbn [length] in Ht; [lia|].
  cbn [runs_from]. destruct t as [|t].
  - cbn [run_starts nth] in Hi.
    rewrite app_nth1 by (rewrite repeat_length; lia).
    rewrite nth_repeat_lt by lia. lia.
  - cbn [run_starts nth] in Hi.
    pose proof (run_starts_ge ls (s + Z.of_nat l) t ltac:(lia)).
    rewrite app_nth2 by (rewrite repeat_length; lia).
    rewrite repeat_length.
    rewrite (IH (s + Z.of_nat l) (r0 + 1) t (i - l)%nat) by lia.
    lia.
Qed.

Lemma runs_from_range lens : forall s r0 (i : nat),
  Z.of_nat i < total lens ->
  exists t, (t < length lens)%nat /\
    nth i (runs_from r0 lens) 0 = r0 + Z.of_nat t /\
    nth t (run_starts s lens) 0 <= s + Z.of_nat i
      < nth t (run_starts s lens) 0 + Z.of_nat (nth t lens 0%nat).
Proof.
  unfold total.
  induction lens as [|l ls IH]; intros s r0 i Hi; cbn [fold_right] in Hi; [lia|].
  destruct (Nat.ltb_spec i l) as [Hl|Hl].
  - exists 0%nat. cbn [length runs_from run_starts nth].
    rewrite app_nth1 by (rewrite repeat_length; lia).
    rewrite nth_repeat_lt by lia. repeat split; lia.
  - destruct (IH (s + Z.of_nat l) (r0 + 1) (i - l)%nat ltac:(lia))
      as (t & Ht & Hn & Hr).
    exists (S t). cbn [length runs_from run_starts nth].
    rewrite app_nth2 by (rewrite repeat_length; lia).
    rewrite repeat_length, Hn. repeat split; lia.
Qed.

Lemma run_starts_bound lens : forall s t,
  (t < length lens)%nat ->
  nth t (run_starts s lens) 0 + Z.of_nat (nth t lens 0%nat) <= s + total lens.
Proof.
  unfold total.
  induction lens as [|l ls IH]; intros s [|t] H; cbn [length] in H; try lia.
  - cbn [run_starts nth fold_right]. lia.
  - cbn [run_starts nth fold_right]. specialize (IH (s + Z.of_nat l) t ltac:(lia)).
    lia.
Qed.

(** With equal positive costs and no more ranks than blocks the sweep
    leaves one run per rank, and the two tables are indexed by rank. *)
Lemma LoadBalancing_equal_costs_runs (nranks : Z) (c : Real) (clist : list Real)
    (slist nlist : list Z) :
  0 < nranks -> (0 < c)%Q -> Forall (fun x => x == c)%Q clist ->
  nranks <= Z.of_nat (length clist) ->
  Z.of_nat (length slist) = nranks -> Z.of_nat (length nlist) = nranks ->
  exists lens : list nat,
    LoadBalancing nranks clist slist nlist
    = (runs_from 0 lens, run_starts 0 lens, map Z.of_nat lens) /\
    Z.of_nat (length lens) = nranks /\
    Forall (fun l => 1 <= l)%nat lens /\
    total lens = Z.of_nat (length clist).
Proof.
  intros Hn Hc Hall Hnb Hls Hln.
  assert (Hne : clist <> []) by (destruct clist; [cbn in Hnb; lia|discriminate]).
  destruct (LoadBalancing_runs nranks clist slist nlist Hn Hne Hls Hln)
    as (lens & sl & nl & Hsw & He & H1 & H2 & H3 & H4 & H5 & H6 & H7 & H8).
  assert (Hlast : last (sweep (rev clist) (nranks - 1) (fst (fst (totals clist))) 0%Q
                          (fst (fst (totals clist)) / inject_Z nranks)%Q) 0 = 0).
  { apply (sweep_equal_costs_last c Hc (rev clist) (nranks - 1) 0%nat).
    - apply Forall_rev. exact Hall.
    - intros E. apply (f_equal (@length Q)) in E. rewrite length_rev in E.
      destruct clist; [congruence|discriminate].
    - lia.
    - rewrite totals_sum, (sum_uniform c) by exact Hall.
      rewrite length_rev, Nat.add_0_r. reflexivity.
    - rewrite nat_scale_0. reflexivity.
    - replace (nranks - 1 + 1) with nranks by lia. reflexivity.
    - rewrite length_rev. lia.
    - rewrite length_rev. lia. }
  rewrite Hsw in Hlast.
  rewrite last_runs_down in Hlast.
  - rewrite length_rev in Hlast.
    assert (Hlen : Z.of_nat (length lens) = nranks) by lia.
    exists lens. rewrite He.
    replace (nranks - Z.of_nat (length lens)) with 0 by lia.
    rewrite <- H5, <- H6.
    rewrite !firstn_all2 by lia. repeat split; assumption.
  - intros E. apply (f_equal (@length nat)) in E. rewrite length_rev in E.
    destruct lens; [congruence|discriminate].
  - apply Forall_rev. exact H2.
Qed.


End RunsIndexing.


(** ** The root grid *)

Section RootGrid.

Import Layout.

Lemma throw_if_ok {A} cond msg (k : unit -> result A) v :
  bind (Construct.throw_if cond msg) k = Ok v -> cond = false /\ k tt = Ok v.
Proof.
  unfold Construct.throw_if. destruct cond; simpl; [discriminate|]. auto.
Qed.

Lemma bind_ok {A B} (r : result A) (k : A -> result B) v :
  bind r k = Ok v -> exists a, r = Ok a /\ k a = Ok v.
Proof. destruct r as [a|msg]; simpl; [eauto|discriminate]. Qed.

(** The loop stops at the least [L] with [2^L >= nbmax], as long as that
    needs no shift by more than 30. *)
Lemma find_root_level_from nbmax : forall fuel rl,
  (1 <= fuel)%nat -> 0 <= rl ->
  (rl = 0 \/ 2 ^ (rl - 1) < nbmax) ->
  nbmax <= 2 ^ (rl + Z.of_nat fuel - 1) ->
  find_root_level fuel rl nbmax = Some (Z.log2_up nbmax).
Proof.
  induction fuel as [|f IH]; intros rl Hf Hrl Hlow Hup; [lia|].
  cbn [find_root_level]. rewrite Z.shiftl_1_l.
  destruct (Z.ltb_spec (2 ^ rl) nbmax) as [Hlt|Hge].
  - apply IH; try lia.
    + destruct f; [|lia]. exfalso.
      change (Z.of_nat 1) with 1 in Hup. rewrite Z.add_simpl_r in Hup.
      apply (Z.lt_irrefl nbmax). eapply Z.le_lt_trans; eassumption.
    + right. replace (rl + 1 - 1) with rl by lia. exact Hlt.
    + replace (rl + 1 + Z.of_nat f - 1) with (rl + Z.of_nat (S f) - 1) by lia.
      exact Hup.
  - f_equal. symmetry. destruct (Z.eq_dec rl 0) as [->|Hnz].
    + change (2 ^ 0) with 1 in Hge.
      destruct (Z.le_gt_cases nbmax 0) as [H0|H0].
      * apply Z.log2_up_nonpos. exact H0.
      * assert (nbmax = 1) by lia. subst. reflexivity.
    + destruct Hlow as [?|Hlow]; [lia|].
      apply Z.log2_up_unique; [lia|]. split; [|exact Hge].
      replace (Z.pred rl) with (rl - 1) by lia. exact Hlow.
Qed.

Lemma find_root_level_sound nbmax : forall fuel rl0 rl,
  0 <= rl0 -> (rl0 = 0 \/ 2 ^ (rl0 - 1) < nbmax) ->
  find_root_level fuel rl0 nbmax = Some rl -> rl = Z.log2_up nbmax.
Proof.
  induction fuel as [|f IH]; intros rl0 rl Hrl Hlow; [discriminate|].
  cbn [find_root_level]. rewrite Z.shiftl_1_l.
  destruct (Z.ltb_spec (2 ^ rl0) nbmax) as [Hlt|Hge].
  - apply IH; [lia|]. right. rewrite Z.add_simpl_r. exact Hlt.
  - intros H. injection H as <-.
    assert (E : find_root_level 1 rl0 nbmax = Some (Z.log2_up nbmax)).
    { apply find_root_level_from; try lia; try assumption.
      change (Z.of_nat 1) with 1. rewrite Z.add_simpl_r. exact Hge. }
    cbn [find_root_level] in E. rewrite Z.shiftl_1_l in E.
    destruct (Z.ltb_spec (2 ^ rl0) nbmax); [discriminate|]. now injection E.
Qed.

Lemma not_divisible_ok a b u :
  not_divisible a b = Ok u -> b <> 0 /\ u = negb (Z.rem a b =? 0).
Proof.
  unfold not_divisible. destruct (Z.eqb_spec b 0); [discriminate|].
  intros H. injection H as <-. auto.
Qed.

Lemma exact_quotient a b : b <> 0 -> Z.rem a b = 0 -> Z.quot a b * b = a.
Proof.
  intros Hb Hr. pose proof (Z.quot_rem' a b) as H. rewrite Hr in H. lia.
Qed.

(** What an input that passes the first part of the constructor looks
    like. *)
Lemma Mesh_checks_ok pin ms dim :
  Construct.Mesh_checks pin = Ok (ms, dim) ->
  4 <= pin_nx1 pin /\ 1 <= pin_nx2 pin /\ 1 <= pin_nx3 pin /\
  (pin_nx2 pin = 1 -> pin_nx3 pin = 1) /\
  nx1 ms = pin_nx1 pin /\ nx2 ms = pin_nx2 pin /\ nx3 ms = pin_nx3 pin /\
  dim = Construct.dim_of (pin_nx2 pin) (pin_nx3 pin).
Proof.
  unfold Construct.Mesh_checks. intros H.
  apply throw_if_ok in H. destruct H as [_ H].
  apply throw_if_ok in H. destruct H as [H1 H].
  apply throw_if_ok in H. destruct H as [H2 H].
  apply throw_if_ok in H. destruct H as [H3 H].
  apply throw_if_ok in H. destruct H as [H4 H].
  apply bind_ok in H. destruct H as (_ & _ & H).
  do 6 (apply throw_if_ok in H; destruct H as [_ H]).
  injection H as <- <-. cbn [nx1 nx2 nx3].
  apply Z.ltb_ge in H1, H2, H3.
  assert (N23 : pin_nx2 pin = 1 -> pin_nx3 pin = 1).
  { intros E. rewrite E in H4. cbn [Z.eqb Pos.eqb andb] in H4.
    apply Z.ltb_ge in H4. lia. }
  repeat split; try assumption; reflexivity.
Qed.


End RootGrid.


(** ** Refinement regions *)

Section RegionRange.

Import Regions.

Lemma scan_spec test : forall steps lx,
  let r := scan test steps lx in
  lx <= r <= lx + Z.of_nat steps /\
  (r < lx + Z.of_nat steps -> test r = true) /\
  (forall k, lx <= k < r -> test k = false).
Proof.
  induction steps as [|n IH]; intros lx; cbn [scan].
  - cbv zeta. repeat split; lia.
  - destruct (test lx) eqn:E; cbv zeta.
    + repeat split; try lia. intros _. exact E.
    + specialize (IH (lx + 1)). cbv zeta in IH. destruct IH as (Hr & Ht & Hf).
      split; [lia|]. split.
      * intros H. apply Ht. lia.
      * intros k Hk. destruct (Z.eq_dec k lx) as [->|Hne]; [exact E|].
        apply Hf. lia.
Qed.

Lemma by_twos_spec lo hi i :
  In i (by_twos lo hi) <-> exists k, 0 <= k /\ i = lo + 2 * k /\ i < hi.
Proof.
  unfold by_twos. rewrite in_map_iff. split.
  - intros (k & <- & Hk). apply in_seq in Hk. exists (Z.of_nat k).
    repeat split; try lia.
    assert (Z.of_nat k < (hi - lo + 1) / 2) by lia.
    pose proof (Z.mul_div_le (hi - lo + 1) 2 ltac:(lia)). lia.
  - intros (k & Hk & -> & Hlt). exists (Z.to_nat k). split; [lia|].
    apply in_seq. split; [lia|]. cbn [Nat.add].
    assert (k + 1 <= (hi - lo + 1) / 2); [|lia].
    apply Z.div_le_lower_bound; lia.
Qed.

Lemma fraction_one n : 0 < n -> (inject_Z (n - 1 + 1) / inject_Z n == 1)%Q.
Proof.
  intros Hn. rewrite Z.sub_add. apply Qmult_inv_r.
  intros E. pose proof (inject_Z_pos n Hn) as Hp. rewrite E in Hp.
  now apply Qlt_irrefl in Hp.
Qed.

Lemma lxmax_even nrbx ref_lev :
  1 <= nrbx -> 1 <= ref_lev ->
  0 < nrbx * Z.shiftl 1 ref_lev /\ (nrbx * Z.shiftl 1 ref_lev) mod 2 = 0.
Proof.
  intros Hn Hr. rewrite Z.shiftl_1_l.
  replace ref_lev with (1 + (ref_lev - 1)) by lia.
  rewrite Z.pow_add_r by lia. change (2 ^ 1) with 2.
  assert (0 < 2 ^ (ref_lev - 1)) by (apply Z.pow_pos_nonneg; lia).
  split; [nia|].
  replace (nrbx * (2 * 2 ^ (ref_lev - 1))) with (nrbx * 2 ^ (ref_lev - 1) * 2) by lia.
  apply Z.mod_mul. lia.
Qed.

(** X16. For a refinement region whose lower bound lies below the upper
    end of the mesh and whose upper bound does not exceed it (the
    generator at fraction 1 being that upper end), the logical range
    along a direction starts at an even index, ends at an odd one, is
    not empty and lies inside the refined grid: every index the loop
    hands to [AddMeshBlock] is even, not negative, and has its odd
    sibling below [lxmax], and the two breaking indices of the scans lie
    within the range. *)
Theorem axis_range_inside (gen : Real -> Real) (nrbx ref_lev : Z)
    (xmin xmax : Real) :
  1 <= nrbx -> 1 <= ref_lev ->
  (forall q, q == 1 -> xmin < gen q)%Q ->
  (forall q, q == 1 -> xmax <= gen q)%Q ->
  let lxmax := nrbx * Z.shiftl 1 ref_lev in
  let '(lo, hi) := axis_range gen nrbx ref_lev xmin xmax in
  lo mod 2 = 0 /\ hi mod 2 = 1 /\ 0 <= lo /\ lo < hi /\ hi < lxmax /\
  by_twos lo hi <> [] /\
  forall i, In i (by_twos lo hi) -> i mod 2 = 0 /\ 0 <= i /\ i + 1 < lxmax.
Proof.
  intros Hn Hr Hlow Hup lxmax. unfold axis_range. fold lxmax.
  destruct (lxmax_even nrbx ref_lev Hn Hr) as [Hpos Hev]. fold lxmax in Hpos, Hev.
  set (t1 := fun lx => Qltb xmin (gen (inject_Z (lx + 1) / inject_Z lxmax)%Q)).
  set (t2 := fun lx => Qle_bool xmax (gen (inject_Z (lx + 1) / inject_Z lxmax)%Q)).
  unfold scan_from.
  pose proof (scan_spec t1 (Z.to_nat (lxmax - 0)) 0) as S1. cbv zeta in S1.
  set (a := scan t1 (Z.to_nat (lxmax - 0)) 0) in *.
  destruct S1 as (A1 & _ & A3).
  assert (T1 : t1 (lxmax - 1) = true).
  { unfold t1. apply Qltb_lt. apply Hlow. apply fraction_one. exact Hpos. }
  assert (A : 0 <= a <= lxmax - 1).
  { split; [lia|]. destruct (Z_le_gt_dec a (lxmax - 1)) as [|G]; [assumption|].
    rewrite A3 in T1 by lia. discriminate. }
  pose proof (scan_spec t2 (Z.to_nat (lxmax - a)) a) as S2. cbv zeta in S2.
  set (b := scan t2 (Z.to_nat (lxmax - a)) a) in *.
  destruct S2 as (B1 & _ & B3).
  assert (T2 : t2 (lxmax - 1) = true).
  { unfold t2. apply Qle_bool_true. apply Hup. apply fraction_one. exact Hpos. }
  assert (B : a <= b <= lxmax - 1).
  { split; [lia|]. destruct (Z_le_gt_dec b (lxmax - 1)) as [|G]; [assumption|].
    rewrite B3 in T2 by lia. discriminate. }
  clear A1 A3 B1 B3 T1 T2. clearbody b. clearbody a. clear t1 t2.
  clearbody lxmax.
  rewrite !Z.rem_mod_nonneg by lia.
  set (lo := if a mod 2 =? 1 then a - 1 else a).
  set (hi := if b mod 2 =? 0 then b + 1 else b).
  assert (Hlo : lo mod 2 = 0 /\ 0 <= lo <= a).
  { unfold lo. clear lo hi.
    destruct (Z.eqb_spec (a mod 2) 1); Z.div_mod_to_equations; lia. }
  assert (Hhi : hi mod 2 = 1 /\ b <= hi <= lxmax - 1).
  { unfold hi. clear Hlo lo hi.
    destruct (Z.eqb_spec (b mod 2) 0); Z.div_mod_to_equations; lia. }
  clearbody lo hi.
  assert (Hlt : lo < hi) by (Z.div_mod_to_equations; lia).
  split; [apply Hlo|]. split; [apply Hhi|]. split; [lia|]. split; [exact Hlt|].
  split; [lia|]. split.
  - intros E. assert (Hin : In lo (by_twos lo hi)).
    { apply by_twos_spec. exists 0. lia. }
    rewrite E in Hin. exact Hin.
  - intros i Hi. apply by_twos_spec in Hi. destruct Hi as (k & Hk & -> & Hi).
    Z.div_mod_to_equations. lia.
Qed.


End RegionRange.

(** The theorem on the unit interval with the identity generator, two
    root blocks, one level of refinement and the region [1/4, 1/2]: the
    range is 0..1 of the four refined indices. *)
Lemma axis_range_inside_witness :
  Regions.axis_range (fun q => q) 2 1 (1 # 4) (1 # 2) = (0, 1) /\
  Regions.by_twos 0 1 = [0].
Proof.
  pose proof (axis_range_inside (fun q => q) 2 1 (1 # 4) (1 # 2)
                ltac:(lia) ltac:(lia)) as H.
  cbv zeta in H.
  destruct (Regions.axis_range (fun q => q) 2 1 (1 # 4) (1 # 2)) as [lo hi] eqn:E.
  destruct H as (_ & _ & _ & _ & _ & _ & _).
  - intros q Hq. rewrite Hq. reflexivity.
  - intros q Hq. rewrite Hq. discriminate.
  - vm_compute in E. injection E as <- <-. split; reflexivity.
Defined.


(** ** What a restart leaves behind *)

Section RestartBlocks.

Import Restart.

Variable F : Type.
Variable io : IOWrapper F.
Variable ext : Collaborators.

Lemma iobind_ok {A B} (c : IO F A) (k : A -> IO F B) s b s' :
  iobind c k s = (Ok b, s') ->
  exists a s1, c s = (Ok a, s1) /\ k a s1 = (Ok b, s').
Proof.
  unfold iobind. destruct (c s) as [[a|msg] s1]; [eauto|discriminate].
Qed.

Lemma throw_if_io_ok cond msg s u s' :
  throw_if F cond msg s = (Ok u, s') -> cond = false.
Proof. unfold throw_if. destruct cond; [discriminate|reflexivity]. Qed.

Lemma lift_ok {A} (r : result A) (s : st F) a s' :
  lift r s = (Ok a, s') -> r = Ok a.
Proof. unfold lift. intros H. now injection H as -> _. Qed.

Ltac step H :=
  apply iobind_ok in H;
  let a := fresh "a" in let s1 := fresh "s" in let Hc := fresh "Hc" in
  destruct H as (a & s1 & Hc & H);
  match type of a with
  | (_ * _)%type => destruct a
  | _ => idtac
  end; cbn beta iota in H.

(** The block a restart builds carries the ids, the location and the
    cost it was asked for. *)
Lemma MeshBlock_restart_ids igid ilid pm iloc offset icost s b s' :
  MeshBlock_restart F io ext igid ilid pm iloc offset icost s = (Ok b, s') ->
  gid b = igid /\ lid b = ilid /\ loc b = iloc /\ cost b = icost.
Proof.
  unfold MeshBlock_restart. intros H.
  do 9 step H.
  unfold ret in H. injection H as <- _. repeat split.
Qed.

Lemma load_blocks_ids pm offset nbstart : forall idx acc s bl s',
  load_blocks F io ext pm offset nbstart idx acc s = (Ok bl, s') ->
  exists new, bl = acc ++ new /\ map gid new = idx /\
              Forall (Ownership.loaded pm nbstart) new.
Proof.
  induction idx as [|i idx IH]; intros acc s bl s' H.
  - cbn [load_blocks] in H. unfold ret in H. injection H as <- _.
    exists []. rewrite app_nil_r. repeat split. constructor.
  - cbn [load_blocks] in H. apply iobind_ok in H.
    destruct H as (b & s1 & Hc & H).
    apply MeshBlock_restart_ids in Hc. destruct Hc as (Hg & Hl & Hloc & Hcost).
    apply IH in H. destruct H as (new & -> & Hm & Hf).
    exists (Neighbors.SearchAndSetNeighbors (FindBufferID ext) pm (ranklist pm)
              (nslist pm) b :: new).
    rewrite <- app_assoc. repeat split.
    + cbn [map]. f_equal; [exact Hg|exact Hm].
    + constructor; [|exact Hf].
      unfold Ownership.loaded. cbn [gid lid loc cost Neighbors.SearchAndSetNeighbors].
      rewrite Hg, Hl, Hloc, Hcost. repeat split.
Qed.


End RestartBlocks.


(** ** Blocks tile the mesh *)

Section Tiling.

Import Geometry.

Variable gen : Real -> Real.
Hypothesis gen_proper : forall p q, (p == q)%Q -> (gen p == gen q)%Q.

Lemma shiftl_succ nrbx shift :
  0 <= shift -> Z.shiftl nrbx (shift + 1) = 2 * Z.shiftl nrbx shift.
Proof.
  intros H. rewrite !Z.shiftl_mul_pow2 by lia.
  rewrite Z.pow_add_r by lia. change (2 ^ 1) with 2. lia.
Qed.

Lemma shiftl_pos nrbx shift : 1 <= nrbx -> 0 <= shift -> 1 <= Z.shiftl nrbx shift.
Proof.
  intros Hn H. rewrite Z.shiftl_mul_pow2 by lia.
  assert (0 < 2 ^ shift) by (apply Z.pow_pos_nonneg; lia). nia.
Qed.

Lemma half_fraction a n :
  0 < n -> (inject_Z (2 * a) / inject_Z (2 * n) == inject_Z a / inject_Z n)%Q.
Proof.
  intros Hn. rewrite !inject_Z_mult.
  pose proof (inject_Z_pos n Hn) as Hp. field.
  intros E. rewrite E in Hp. now apply Qlt_irrefl in Hp.
Qed.

(** X19. Along each direction, two blocks that follow each other on a
    level give their common face the same coordinate and flag it -1 on
    both sides; the first block of a level starts at the lower end of the
    mesh with the mesh's inner flag and the last ends at its upper end
    with the outer flag; and the two children of a block cover it: the
    even child starts where the block starts, the odd child ends where
    the block ends, each inheriting the block's flag on that side. *)
Theorem axis_extent_tiles (mesh_min mesh_max : Real) (bc_inner bc_outer : Z)
    (nrbx shift lx : Z) :
  1 <= nrbx -> 0 <= shift -> 0 <= lx < Z.shiftl nrbx shift ->
  let ext := axis_extent gen mesh_min mesh_max bc_inner bc_outer nrbx in
  let n := Z.shiftl nrbx shift in
  (lx + 1 < n -> snd (ext shift lx) = fst (ext shift (lx + 1)) /\
                 snd (snd (ext shift lx)) = -1) /\
  fst (ext shift 0) = (mesh_min, bc_inner) /\
  snd (ext shift (n - 1)) = (mesh_max, bc_outer) /\
  Qeq (fst (fst (ext (shift + 1) (2 * lx)))) (fst (fst (ext shift lx))) /\
  snd (fst (ext (shift + 1) (2 * lx))) = snd (fst (ext shift lx)) /\
  Qeq (fst (snd (ext (shift + 1) (2 * lx + 1)))) (fst (snd (ext shift lx))) /\
  snd (snd (ext (shift + 1) (2 * lx + 1))) = snd (snd (ext shift lx)) /\
  snd (ext (shift + 1) (2 * lx)) = fst (ext (shift + 1) (2 * lx + 1)).
Proof.
  intros Hn Hs Hlx ext n. unfold ext, axis_extent. fold n.
  rewrite shiftl_succ by lia. fold n.
  pose proof (shiftl_pos nrbx shift Hn Hs) as Hpos. fold n in Hpos, Hlx.
  cbn [fst snd].
  split; [|split; [|split; [|split; [|split; [|split; [|split]]]]]].
  - intros Hlt.
    destruct (Z.eqb_spec lx (n - 1)); [lia|].
    destruct (Z.eqb_spec (lx + 1) 0); [lia|]. split; reflexivity.
  - reflexivity.
  - now rewrite Z.eqb_refl.
  - destruct (Z.eqb_spec lx 0) as [->|H0]; [reflexivity|].
    destruct (Z.eqb_spec (2 * lx) 0); [lia|]. cbn [fst].
    apply gen_proper. apply half_fraction. lia.
  - destruct (Z.eqb_spec lx 0) as [->|H0]; [reflexivity|].
    destruct (Z.eqb_spec (2 * lx) 0); [lia|]. reflexivity.
  - destruct (Z.eqb_spec lx (n - 1)) as [->|H0].
    + destruct (Z.eqb_spec (2 * (n - 1) + 1) (2 * n - 1)); [reflexivity|lia].
    + destruct (Z.eqb_spec (2 * lx + 1) (2 * n - 1)); [lia|]. cbn [fst].
      apply gen_proper. replace (2 * lx + 1 + 1) with (2 * (lx + 1)) by lia.
      apply half_fraction. lia.
  - destruct (Z.eqb_spec lx (n - 1)) as [->|H0].
    + destruct (Z.eqb_spec (2 * (n - 1) + 1) (2 * n - 1)); [reflexivity|lia].
    + destruct (Z.eqb_spec (2 * lx + 1) (2 * n - 1)); [lia|]. reflexivity.
  - destruct (Z.eqb_spec (2 * lx) (2 * n - 1)); [lia|].
    destruct (Z.eqb_spec (2 * lx + 1) 0); [lia|]. reflexivity.
Qed.

End Tiling.

(** The theorem on the unit interval with the identity generator and
    two root blocks: block 0 ends where block 1 starts, at 1/2, and the
    children 2 and 3 of block 1 cover it. *)
Lemma axis_extent_tiles_witness :
  let ext := Geometry.axis_extent (fun q => q) 0%Q 1%Q 4 4 2 in
  snd (ext 0 0) = (1 # 2, -1) /\ fst (ext 0 1) = (1 # 2, -1) /\
  Qeq (fst (fst (ext 1 2))) (1 # 2) /\ Qeq (fst (snd (ext 1 3))) 1.
Proof.
  pose proof (axis_extent_tiles (fun q => q) (fun p q H => H) 0%Q 1%Q 4 4 2 0 0
                ltac:(lia) ltac:(lia) ltac:(cbn; lia)) as H0.
  pose proof (axis_extent_tiles (fun q => q) (fun p q H => H) 0%Q 1%Q 4 4 2 0 1
                ltac:(lia) ltac:(lia) ltac:(cbn; lia)) as H1.
  cbv zeta in *.
  destruct H0 as (Ha & _). destruct (Ha ltac:(cbn; lia)) as [Hs _].
  destruct H1 as (_ & _ & _ & Hc & _ & Hd & _).
  split; [rewrite Hs; reflexivity|]. split; [reflexivity|].
  split; [rewrite Hc; reflexivity|rewrite Hd; reflexivity].
Defined.

(** ** The destructors *)

Section Teardown.

Import Destroy.

Lemma write_same h p v : write h p v p = v.
Proof. unfold write. now rewrite Z.eqb_refl. Qed.

Lemma write_other h p v q : q <> p -> write h p v q = h q.
Proof. unfold write. intros H. destruct (Z.eqb_spec q p); [contradiction|reflexivity]. Qed.

Lemma before_frame h h' : forall l from,
  (forall a, In a l -> h' a = h a) -> before h from l -> before h' from l.
Proof.
  induction l as [|a l IH]; intros from Hf H; [exact I|].
  destruct H as [Ha Hl]. split.
  - rewrite Hf by (left; reflexivity). exact Ha.
  - apply IH; [|exact Hl]. intros b Hb. apply Hf. right. exact Hb.
Qed.

Lemma after_frame h h' : forall l from,
  (forall a, In a l -> h' a = h a) -> after h from l -> after h' from l.
Proof.
  induction l as [|a l IH]; intros from Hf H; [exact I|].
  destruct H as [Ha Hl]. split.
  - rewrite Hf by (left; reflexivity). exact Ha.
  - apply IH; [|exact Hl]. intros b Hb. apply Hf. right. exact Hb.
Qed.

(** Deleting the block just before [pblock] leaves the list without
    it. *)
Lemma delete_prev h c p ps ns :
  list_at h c (p :: ps) ns ->
  exists h', delete_block h p = Done h' /\ list_at h' c ps ns /\
             h' p = None /\
             forall a, a <> c -> ~ In a (p :: ps ++ ns) -> h' a = h a.
Proof.
  intros (Hnd & Hc & [Hp Hps] & Hns).
  apply NoDup_cons_iff in Hnd. destruct Hnd as [Hc_out Hnd].
  cbn [app] in Hnd, Hc_out. apply NoDup_cons_iff in Hnd. destruct Hnd as [Hp_out Hnd].
  assert (Hpc : p <> c) by (intros ->; apply Hc_out; left; reflexivity).
  unfold delete_block. rewrite Hp. cbn [prev next].
  destruct ps as [|p2 ps].
  - cbn [hd_error]. rewrite Hp. cbn [prev next].
    unfold set_prev. rewrite Hc. cbn [prev next hd_error].
    eexists. split; [reflexivity|]. split; [|split].
    + split; [|split; [|split]].
      * constructor; [|exact Hnd]. intros H. apply Hc_out. right. exact H.
      * rewrite write_other by congruence. rewrite write_same. reflexivity.
      * exact I.
      * apply (after_frame h); [|exact Hns]. intros a Ha.
        rewrite !write_other; [reflexivity| |].
        -- intros ->. apply Hc_out. right. exact Ha.
        -- intros ->. apply Hp_out. exact Ha.
    + apply write_same.
    + intros a Hac Ha. rewrite !write_other; [reflexivity|exact Hac|].
      intros ->. apply Ha. left. reflexivity.
  - destruct Hps as [Hp2 Hps]. cbn [hd_error].
    assert (Hp2p : p2 <> p) by (intros ->; apply Hp_out; left; reflexivity).
    assert (Hp2c : p2 <> c) by (intros ->; apply Hc_out; right; left; reflexivity).
    unfold set_next at 1. rewrite Hp2. cbn [prev next].
    rewrite write_other by congruence. rewrite Hp. cbn [prev next].
    unfold set_prev. rewrite write_other by congruence. rewrite Hc.
    cbn [prev next hd_error].
    eexists. split; [reflexivity|]. split; [|split].
    + split; [|split; [|split]].
      * constructor; [|exact Hnd]. intros H. apply Hc_out. right. exact H.
      * rewrite write_other by congruence. rewrite write_same. reflexivity.
      * cbn [app] in Hnd. apply NoDup_cons_iff in Hnd. destruct Hnd as [Hp2_out Hnd].
        split.
        -- rewrite !write_other by congruence. rewrite write_same. reflexivity.
        -- apply (before_frame h); [|exact Hps]. intros a Ha.
           rewrite !write_other; [reflexivity| | |].
           ++ intros ->. apply Hp2_out. apply in_or_app. left. exact Ha.
           ++ intros ->. apply Hc_out. right. right. apply in_or_app. left. exact Ha.
           ++ intros ->. apply Hp_out. right. apply in_or_app. left. exact Ha.
      * apply (after_frame h); [|exact Hns]. intros a Ha.
        cbn [app] in Hnd. apply NoDup_cons_iff in Hnd. destruct Hnd as [Hp2_out Hnd].
        rewrite !write_other; [reflexivity| | |].
        -- intros ->. apply Hp2_out. apply in_or_app. right. exact Ha.
        -- intros ->. apply Hc_out. right. right. apply in_or_app. right. exact Ha.
        -- intros ->. apply Hp_out. right. apply in_or_app. right. exact Ha.
    + apply write_same.
    + intros a Hac Ha. rewrite !write_other; [reflexivity| | |].
      * intros ->. apply Ha. right. left. reflexivity.
      * exact Hac.
      * intros ->. apply Ha. left. reflexivity.
Qed.

(** Deleting the block just after [pblock] leaves the list without it. *)
Lemma delete_next h c n ps ns :
  list_at h c ps (n :: ns) ->
  exists h', delete_block h n = Done h' /\ list_at h' c ps ns /\
             h' n = None /\
             forall a, a <> c -> ~ In a (ps ++ n :: ns) -> h' a = h a.
Proof.
  intros (Hnd & Hc & Hps & [Hn Hns]).
  apply NoDup_cons_iff in Hnd. destruct Hnd as [Hc_out Hnd].
  pose proof (NoDup_remove_1 _ _ _ Hnd) as Hnd'.
  pose proof (NoDup_remove_2 _ _ _ Hnd) as Hn_out.
  assert (Hnc : n <> c).
  { intros ->. apply Hc_out. apply in_or_app. right. left. reflexivity. }
  assert (Hc_out' : ~ In c (ps ++ ns)).
  { intros H. apply Hc_out. apply in_app_or in H. apply in_or_app.
    destruct H; [left|right; right]; assumption. }
  unfold delete_block. rewrite Hn. cbn [prev next].
  unfold set_next. rewrite Hc. cbn [prev next].
  rewrite write_other by congruence. rewrite Hn. cbn [prev next].
  destruct ns as [|n2 ns].
  - cbn [hd_error]. eexists. split; [reflexivity|]. split; [|split].
    + split; [|split; [|split]].
      * constructor; assumption.
      * rewrite write_other by congruence. rewrite write_same. reflexivity.
      * apply (before_frame h); [|exact Hps]. intros a Ha.
        rewrite !write_other; [reflexivity| |].
        -- intros ->. apply Hc_out'. apply in_or_app. left. exact Ha.
        -- intros ->. apply Hn_out. apply in_or_app. left. exact Ha.
      * exact I.
    + apply write_same.
    + intros a Hac Ha. rewrite !write_other; [reflexivity|exact Hac|].
      intros ->. apply Ha. apply in_or_app. right. left. reflexivity.
  - destruct Hns as [Hn2 Hns]. cbn [hd_error].
    assert (Hn2n : n2 <> n).
    { intros ->. apply Hn_out. apply in_or_app. right. left. reflexivity. }
    assert (Hn2c : n2 <> c).
    { intros ->. apply Hc_out'. apply in_or_app. right. left. reflexivity. }
    assert (Hn2_out : ~ In n2 (ps ++ ns)).
    { apply NoDup_remove_2. exact Hnd'. }
    unfold set_prev. rewrite write_other by congruence. rewrite Hn2.
    cbn [prev next].
    eexists. split; [reflexivity|]. split; [|split].
    + split; [|split; [|split]].
      * constructor; assumption.
      * rewrite !write_other by congruence. rewrite write_same. reflexivity.
      * apply (before_frame h); [|exact Hps]. intros a Ha.
        rewrite !write_other; [reflexivity| | |].
        -- intros ->. apply Hc_out'. apply in_or_app. left. exact Ha.
        -- intros ->. apply Hn2_out. apply in_or_app. left. exact Ha.
        -- intros ->. apply Hn_out. apply in_or_app. left. exact Ha.
      * split.
        -- rewrite write_other by congruence. rewrite write_same. reflexivity.
        -- apply (after_frame h); [|exact Hns]. intros a Ha.
           rewrite !write_other; [reflexivity| | |].
           ++ intros ->. apply Hc_out'. apply in_or_app. right. right. exact Ha.
           ++ intros ->. apply Hn2_out. apply in_or_app. right. exact Ha.
           ++ intros ->. apply Hn_out. apply in_or_app. right. right. exact Ha.
    + apply write_same.
    + intros a Hac Ha. rewrite !write_other; [reflexivity| | |].
      * exact Hac.
      * intros ->. apply Ha. apply in_or_app. right. right. left. reflexivity.
      * intros ->. apply Ha. apply in_or_app. right. left. reflexivity.
Qed.

Lemma drain_prev c ns : forall ps h fuel,
  list_at h c ps ns -> (length ps < fuel)%nat ->
  exists h', drain prev fuel h c = Some (Done h') /\ list_at h' c [] ns /\
             (forall a, In a ps -> h' a = None) /\
             (forall a, a <> c -> ~ In a (ps ++ ns) -> h' a = h a).
Proof.
  induction ps as [|p ps IH]; intros h fuel Hl Hf;
    (destruct fuel as [|fuel]; [cbn [length] in Hf; lia|]).
  - cbn [drain]. destruct Hl as (Hnd & Hc & Hb & Ha). rewrite Hc. cbn [prev hd_error].
    exists h. repeat split; try assumption. intros a [].
  - cbn [drain]. pose proof Hl as (_ & Hc & _). rewrite Hc. cbn [prev hd_error].
    destruct (delete_prev h c p ps ns Hl) as (h1 & -> & Hl1 & Hp & Hfr).
    destruct (IH h1 fuel Hl1 ltac:(cbn [length] in Hf; lia))
      as (h' & -> & Hl' & Hfreed & Hfr').
    destruct Hl as (Hnd & _).
    apply NoDup_cons_iff in Hnd. destruct Hnd as [Hc_out Hnd].
    cbn [app] in Hnd, Hc_out. apply NoDup_cons_iff in Hnd. destruct Hnd as [Hp_out _].
    exists h'. split; [reflexivity|]. split; [exact Hl'|]. split.
    + intros a [<-|Ha]; [|apply Hfreed; exact Ha].
      rewrite Hfr'; [exact Hp| |exact Hp_out].
      intros ->. apply Hc_out. left. reflexivity.
    + intros a Hac Ha. rewrite Hfr'; [apply Hfr; assumption|exact Hac|].
      intros H. apply Ha. right. exact H.
Qed.

Lemma drain_next c : forall ns h fuel,
  list_at h c [] ns -> (length ns < fuel)%nat ->
  exists h', drain next fuel h c = Some (Done h') /\ list_at h' c [] [] /\
             (forall a, In a ns -> h' a = None) /\
             (forall a, a <> c -> ~ In a ns -> h' a = h a).
Proof.
  induction ns as [|n ns IH]; intros h fuel Hl Hf;
    (destruct fuel as [|fuel]; [cbn [length] in Hf; lia|]).
  - cbn [drain]. destruct Hl as (Hnd & Hc & Hb & Ha). rewrite Hc. cbn [next hd_error].
    exists h. repeat split; try assumption. intros a [].
  - cbn [drain]. pose proof Hl as (_ & Hc & _). rewrite Hc. cbn [next hd_error].
    destruct (delete_next h c n [] ns Hl) as (h1 & -> & Hl1 & Hn & Hfr).
    destruct (IH h1 fuel Hl1 ltac:(cbn [length] in Hf; lia))
      as (h' & -> & Hl' & Hfreed & Hfr').
    destruct Hl as (Hnd & _).
    apply NoDup_cons_iff in Hnd. destruct Hnd as [Hc_out Hnd].
    cbn [app] in Hnd, Hc_out. apply NoDup_cons_iff in Hnd. destruct Hnd as [Hn_out _].
    exists h'. split; [reflexivity|]. split; [exact Hl'|]. split.
    + intros a [<-|Ha]; [|apply Hfreed; exact Ha].
      rewrite Hfr'; [exact Hn| |exact Hn_out].
      intros ->. apply Hc_out. left. reflexivity.
    + intros a Hac Ha. cbn [app] in Hfr. rewrite Hfr'; [apply Hfr; assumption|exact Hac|].
      intros H. apply Ha. right. exact H.
Qed.

(** X20. On a well-formed doubly linked list of blocks, wherever in it
    [pblock] points, [Mesh::~Mesh] with [MeshBlock::~MeshBlock] comes to
    an end after at most as many passes as there are blocks on the
    longer side, never touches a block that is not live (no block is
    freed twice or used after it was freed), frees every block of the
    list and leaves every other address alone. When [pblock] is not a
    live block (a mesh built in test mode has none) the first statement
    reads through it. *)
Theorem Mesh_dtor_frees_all (h : heap) (pblock : Z) :
  (forall ps ns fuel,
     list_at h pblock ps ns ->
     (length ps < fuel)%nat -> (length ns < fuel)%nat ->
     exists h', Mesh_dtor fuel h pblock = Some (Done h') /\
       (forall a, In a (pblock :: ps ++ ns) -> h' a = None) /\
       (forall a, ~ In a (pblock :: ps ++ ns) -> h' a = h a)) /\
  (h pblock = None -> forall fuel, Mesh_dtor (S fuel) h pblock = Some Fault).
Proof.
  split.
  - intros ps ns fuel Hl Hp Hn. unfold Mesh_dtor.
    destruct (drain_prev pblock ns ps h fuel Hl Hp) as (h1 & -> & Hl1 & Hf1 & Hr1).
    destruct (drain_next pblock ns h1 fuel Hl1 Hn) as (h2 & -> & Hl2 & Hf2 & Hr2).
    destruct Hl2 as (_ & Hc2 & _).
    unfold delete_block. rewrite Hc2. cbn [prev next hd_error]. rewrite Hc2.
    cbn [prev next].
    destruct Hl as (Hnd & _).
    apply NoDup_cons_iff in Hnd. destruct Hnd as [Hc_out Hnd].
    eexists. split; [reflexivity|]. split.
    + intros a [<-|Ha]; [apply write_same|].
      assert (Hac : a <> pblock) by (intros ->; exact (Hc_out Ha)).
      rewrite write_other by exact Hac.
      apply in_app_or in Ha. destruct Ha as [Ha|Ha].
      * rewrite Hr2; [apply Hf1; exact Ha|exact Hac|].
        intros Hin. revert Ha Hin. clear - Hnd. revert ns Hnd.
        induction ps as [|p ps IH]; intros ns Hnd Ha Hin; [destruct Ha|].
        cbn [app] in Hnd. apply NoDup_cons_iff in Hnd. destruct Hnd as [Hp Hnd].
        destruct Ha as [->|Ha].
        -- apply Hp. apply in_or_app. right. exact Hin.
        -- exact (IH ns Hnd Ha Hin).
      * apply Hf2. exact Ha.
    + intros a Ha.
      assert (Hac : a <> pblock) by (intros ->; apply Ha; left; reflexivity).
      rewrite write_other by exact Hac.
      rewrite Hr2; [apply Hr1; [exact Hac|]|exact Hac|].
      * intros H. apply Ha. right. exact H.
      * intros H. apply Ha. right. apply in_or_app. right. exact H.
  - intros Hnull fuel. unfold Mesh_dtor. cbn [drain]. rewrite Hnull. reflexivity.
Qed.

End Teardown.

(** The theorem on three blocks at addresses 10, 20, 30 with [pblock]
    on the middle one. *)
Lemma Mesh_dtor_frees_all_witness :
  let h : Destroy.heap := fun a =>
    if a =? 10 then Some (Destroy.mkLinks None (Some 20))
    else if a =? 20 then Some (Destroy.mkLinks (Some 10) (Some 30))
    else if a =? 30 then Some (Destroy.mkLinks (Some 20) None)
    else None in
  exists h', Destroy.Mesh_dtor 2 h 20 = Some (Done h') /\
    h' 10 = None /\ h' 20 = None /\ h' 30 = None.
Proof.
  intros h.
  destruct (proj1 (Mesh_dtor_frees_all h 20) [10] [30] 2%nat) as (h' & E & Hf & _).
  - split; [|split; [reflexivity|split; cbn; auto]].
    repeat constructor; cbn; intuition discriminate.
  - cbn; lia.
  - cbn; lia.
  - exists h'. split; [exact E|].
    split; [|split]; apply Hf; cbn; auto.
Defined.

(** ** The size of the neighbour table *)

Lemma sorted_in_range_length (l : list Z) : forall a n,
  StronglySorted Z.lt l -> Forall (fun x => a <= x < n) l ->
  Z.of_nat (length l) <= Z.max 0 (n - a).
Proof.
  induction l as [|x l IH]; intros a n Hs Hf; [cbn; lia|].
  apply StronglySorted_inv in Hs. destruct Hs as [Hs Hx].
  apply Forall_cons_iff in Hf. destruct Hf as [Hxr Hf].
  assert (Hf' : Forall (fun y => x + 1 <= y < n) l).
  { rewrite Forall_forall in *. intros y Hy.
    specialize (Hx y Hy). specialize (Hf y Hy). lia. }
  specialize (IH (x + 1) n Hs Hf'). cbn [length]. lia.
Qed.

(** X21. The number of neighbours [SearchAndSetNeighbors] records never
    exceeds the number of buffer slots of the directions it visits, which
    is at most 56 in any mesh and at most 26 when the mesh is not
    multilevel: the table of 56 entries cannot overflow. *)
Theorem SearchAndSetNeighbors_fits
    (FindBufferID : Z -> Z -> Z -> Z -> Z -> Z -> Z) (pmy_mesh : Mesh)
    (ranklist_ nslist_ : list Z) (blk : MeshBlock) :
  let b := Neighbors.SearchAndSetNeighbors FindBufferID pmy_mesh ranklist_ nslist_ blk in
  0 <= nneighbor b <= Neighbors.nslots pmy_mesh blk /\
  nneighbor b = Z.of_nat (length (neighbor b)) /\
  Neighbors.nslots pmy_mesh blk <= 56 /\
  (multilevel pmy_mesh = false -> Neighbors.nslots pmy_mesh blk <= 26).
Proof.
  cbv zeta. unfold Neighbors.SearchAndSetNeighbors. cbn [nneighbor neighbor].
  destruct (search_ordered FindBufferID pmy_mesh ranklist_ nslist_ blk)
    as [(Hn & Hs & Hb & H0) Hslots].
  rewrite Hslots in Hb.
  pose proof (sorted_in_range_length _ 0 _ Hs Hb) as Hlen.
  unfold ids in Hlen. rewrite length_map in Hlen.
  assert (Hpos : 0 <= Neighbors.nslots pmy_mesh blk) by (rewrite <- Hslots; exact H0).
  split; [rewrite Hn; lia|]. split; [exact Hn|].
  unfold Neighbors.nslots, Neighbors.nf1, Neighbors.nf2.
  split.
  - destruct (multilevel pmy_mesh), (1 <? nx2 (block_size blk)),
      (1 <? nx3 (block_size blk)), (nx2 (block_size blk) =? 1),
      (face_only pmy_mesh), (nx3 (block_size blk) =? 1); cbn; lia.
  - intros ->.
    destruct (1 <? nx2 (block_size blk)),
      (1 <? nx3 (block_size blk)), (nx2 (block_size blk) =? 1),
      (face_only pmy_mesh), (nx3 (block_size blk) =? 1); cbn; lia.
Qed.

(** The theorem on the first block of the periodic two-block mesh. *)
Lemma SearchAndSetNeighbors_fits_witness :
  let b := Neighbors.SearchAndSetNeighbors Examples.FindBufferID_1d
             Examples.periodic_mesh [0; 0] [0]
             (Examples.block1d 0 0 0 [4; 4; 0; 0; 0; 0]) in
  nneighbor b <= 26.
Proof.
  destruct (SearchAndSetNeighbors_fits Examples.FindBufferID_1d
              Examples.periodic_mesh [0; 0] [0]
              (Examples.block1d 0 0 0 [4; 4; 0; 0; 0; 0]))
    as ([_ H1] & _ & _ & H2).
  cbv zeta. specialize (H2 eq_refl). lia.
Defined.

(** X22. The rank and the local id [SearchAndSetNeighbors] stores for a
    neighbour are those the tables give for the neighbour's gid:
    [rank = ranklist[gid]] and [lid = gid - nslist[rank]]. Where the
    tables describe the ranges the ranks own, the local id is therefore
    the position of the neighbour in its owner's range. *)
Theorem SearchAndSetNeighbors_owners
    (FindBufferID : Z -> Z -> Z -> Z -> Z -> Z -> Z) (pmy_mesh : Mesh)
    (ranklist_ nslist_ nblist_ : list Z) (blk : MeshBlock) :
  let b := Neighbors.SearchAndSetNeighbors FindBufferID pmy_mesh ranklist_ nslist_ blk in
  Forall (Offsets.owned ranklist_ nslist_) (neighbor b) /\
  ((forall g, 0 <= g < nbtotal pmy_mesh ->
      at_ nslist_ (at_ ranklist_ g) <= g
        < at_ nslist_ (at_ ranklist_ g) + at_ nblist_ (at_ ranklist_ g)) ->
   Forall (fun nb => 0 <= NeighborBlock.gid nb < nbtotal pmy_mesh ->
                     0 <= NeighborBlock.lid nb
                       < at_ nblist_ (NeighborBlock.rank nb)) (neighbor b)).
Proof.
  cbv zeta.
  assert (H : Forall (Offsets.owned ranklist_ nslist_)
                (neighbor (Neighbors.SearchAndSetNeighbors FindBufferID pmy_mesh
                             ranklist_ nslist_ blk))).
  { unfold Neighbors.SearchAndSetNeighbors. cbn [neighbor].
    apply search_good; cbv zeta; intros;
      try match goal with |- _ /\ _ => split end;
      intros ? ? ? ? ? ?; split; reflexivity. }
  split; [exact H|]. intros Htab.
  eapply Forall_impl; [|exact H].
  intros nb [Hr Hl] Hg. specialize (Htab _ Hg). rewrite Hl, Hr. lia.
Qed.

(** The theorem on the first block of the periodic two-block mesh, both
    blocks on rank 0. *)
Lemma SearchAndSetNeighbors_owners_witness :
  let b := Neighbors.SearchAndSetNeighbors Examples.FindBufferID_1d
             Examples.periodic_mesh [0; 0] [0]
             (Examples.block1d 0 0 0 [4; 4; 0; 0; 0; 0]) in
  Forall (fun nb => 0 <= NeighborBlock.gid nb < nbtotal Examples.periodic_mesh ->
                    0 <= NeighborBlock.lid nb < at_ [2] (NeighborBlock.rank nb))
         (neighbor b).
Proof.
  destruct (SearchAndSetNeighbors_owners Examples.FindBufferID_1d
              Examples.periodic_mesh [0; 0] [0] [2]
              (Examples.block1d 0 0 0 [4; 4; 0; 0; 0; 0])) as [_ H].
  cbv zeta. apply H. intros g Hg.
  change (nbtotal Examples.periodic_mesh) with 2 in Hg.
  assert (g = 0 \/ g = 1) as [->| ->] by lia;
    vm_compute; (split; [discriminate|reflexivity]).
Defined.
